(** * DENWATUNE: the tone engine and the sequence player of [app.js]

    A shallow embedding of the Web Audio tone engine ([ToneEngine]) and of
    the sequence scheduler ([scheduleNextFromBuffer] and friends) of
    [src/app.js], followed by the properties of the specification that are
    settled on it.

    Conventions of the embedding:
    - a JavaScript string is a [string]; every character stands for one
      UTF-16 code unit, so that [split('')] yields one-character strings;
    - [null] fields are [option]s; object references (audio nodes) are
      indices into the node store of the audio context;
    - the window timers are an explicit list of pending timers, each with
      its due time and a first-order description of its callback;
    - DOM effects are appended to a log of calls. *)

From Stdlib Require Import QArith.
From stdpp Require Import base gmap strings list fin_maps.

Open Scope string_scope.
Open Scope list_scope.
Open Scope Z_scope.

(** ** JavaScript values met by the frequency lookup *)

(** What [dtmfLow[key]] can evaluate to: a number of the table, [undefined]
    for an absent property, or a member inherited from [Object.prototype]
    (a function, or the prototype itself for [__proto__]). [JNull] is the
    literal [null] of the Japanese dial tone. *)
Inductive jsval :=
  | JUndefined
  | JNull
  | JNum (n : Z)
  | JInherited (name : string).

#[global] Instance jsval_eq_dec : EqDecision jsval.
Proof. solve_decision. Defined.

(** ToBoolean, as used by [!low], [!high] and [if (spec.b)]. *)
Definition truthy (v : jsval) : bool :=
  match v with
  | JUndefined | JNull => false
  | JNum n => negb (n =? 0)
  | JInherited _ => true
  end.

(** The string-keyed members every object literal inherits. *)
Definition objectPrototype : list string :=
  [ "constructor"; "hasOwnProperty"; "isPrototypeOf"; "propertyIsEnumerable";
    "toLocaleString"; "toString"; "valueOf"; "__proto__";
    "__defineGetter__"; "__defineSetter__"; "__lookupGetter__";
    "__lookupSetter__" ].

(** Property read [o[key]] on an object literal with own properties [o]. *)
Definition getProp (o : gmap string Z) (key : string) : jsval :=
  match o !! key with
  | Some n => JNum n
  | None => if bool_decide (key ∈ objectPrototype) then JInherited key
            else JUndefined
  end.

(** ** FrequencyTable: [ToneEngine.getFrequenciesForKey] *)

Inductive RegionalPreset := us | jp.

#[global] Instance RegionalPreset_eq_dec : EqDecision RegionalPreset.
Proof. solve_decision. Defined.

Record Cadence := { onMs : Z; offMs : Z }.

Record ToneSpec := {
  a : jsval;
  b : jsval;
  isContinuous : bool;
  cadence : option Cadence
}.

Definition dtmfLow : gmap string Z :=
  list_to_map
    [ ("1", 697); ("2", 697); ("3", 697); ("4", 770); ("5", 770); ("6", 770);
      ("7", 852); ("8", 852); ("9", 852); ("*", 941); ("0", 941); ("#", 941) ].

Definition dtmfHigh : gmap string Z :=
  list_to_map
    [ ("1", 1209); ("2", 1336); ("3", 1477); ("4", 1209); ("5", 1336);
      ("6", 1477); ("7", 1209); ("8", 1336); ("9", 1477); ("*", 1209);
      ("0", 1336); ("#", 1477) ].

(** [getFrequenciesForKey(key)]; [None] is the [null] result. The only
    field of [this] it reads is [dialPreset]. *)
Definition getFrequenciesForKey (dialPreset : RegionalPreset) (key : string)
  : option ToneSpec :=
  if decide (key = "*") then
    if decide (dialPreset = jp) then
      Some {| a := JNum 400; b := JNull; isContinuous := true; cadence := None |}
    else
      Some {| a := JNum 350; b := JNum 440; isContinuous := true; cadence := None |}
  else if decide (key = "/") then
    Some {| a := JNum 480; b := JNum 620; isContinuous := false;
            cadence := Some {| onMs := 250; offMs := 250 |} |}
  else
    let low := getProp dtmfLow key in
    let high := getProp dtmfHigh key in
    if negb (truthy low) || negb (truthy high) then None
    else Some {| a := low; b := high; isContinuous := false; cadence := None |}.

(** ** The audio backend, as far as the engine drives it *)

Inductive Target := Destination | ToNode (i : nat).

Record GainNode := { gain_value : Q; gain_out : option Target }.

Record OscillatorNode := {
  osc_frequency : Z;
  osc_started : bool;
  osc_stopped : bool;
  osc_out : option Target
}.

Inductive AudioNode := NGain (g : GainNode) | NOsc (o : OscillatorNode).

Inductive ContextState := running | suspended.

(** An [AudioContext]: its state and the nodes created from it. A node
    reference held by the engine is an index into [ctx_nodes]. *)
Record AudioContext := { ctx_state : ContextState; ctx_nodes : list AudioNode }.

(** An oscillator sounds from [start()] until [stop()]. *)
Definition osc_alive (o : OscillatorNode) : bool :=
  osc_started o && negb (osc_stopped o).

Definition node_alive (n : AudioNode) : bool :=
  match n with NOsc o => osc_alive o | NGain _ => false end.

Definition node_out (n : AudioNode) : option Target :=
  match n with NOsc o => osc_out o | NGain g => gain_out g end.

(** [node.connect(t)] *)
Definition node_connect (t : Target) (n : AudioNode) : AudioNode :=
  match n with
  | NGain g => NGain {| gain_value := gain_value g; gain_out := Some t |}
  | NOsc o => NOsc {| osc_frequency := osc_frequency o; osc_started := osc_started o;
                      osc_stopped := osc_stopped o; osc_out := Some t |}
  end.

(** [node.disconnect()] *)
Definition node_disconnect (n : AudioNode) : AudioNode :=
  match n with
  | NGain g => NGain {| gain_value := gain_value g; gain_out := None |}
  | NOsc o => NOsc {| osc_frequency := osc_frequency o; osc_started := osc_started o;
                      osc_stopped := osc_stopped o; osc_out := None |}
  end.

(** [gain.gain.value = v], and [setValueAtTime(v, currentTime)] after
    [cancelScheduledValues(currentTime)], which takes effect at once. *)
Definition node_set_gain (v : Q) (n : AudioNode) : AudioNode :=
  match n with
  | NGain g => NGain {| gain_value := v; gain_out := gain_out g |}
  | NOsc _ => n
  end.

(** [osc.frequency.value = f] *)
Definition node_set_frequency (f : Z) (n : AudioNode) : AudioNode :=
  match n with
  | NOsc o => NOsc {| osc_frequency := f; osc_started := osc_started o;
                      osc_stopped := osc_stopped o; osc_out := osc_out o |}
  | NGain _ => n
  end.

(** [osc.start()] *)
Definition node_start (n : AudioNode) : AudioNode :=
  match n with
  | NOsc o => NOsc {| osc_frequency := osc_frequency o; osc_started := true;
                      osc_stopped := osc_stopped o; osc_out := osc_out o |}
  | NGain _ => n
  end.

(** [try { osc.stop(currentTime) } catch (_) {}]: an oscillator that was
    never started raises InvalidStateError, which the [catch] swallows. *)
Definition node_stop (n : AudioNode) : AudioNode :=
  match n with
  | NOsc o => if osc_started o
              then NOsc {| osc_frequency := osc_frequency o; osc_started := true;
                           osc_stopped := true; osc_out := osc_out o |}
              else n
  | NGain _ => n
  end.

Definition newGain : AudioNode := NGain {| gain_value := 1%Q; gain_out := None |}.

Definition newOscillator : AudioNode :=
  NOsc {| osc_frequency := 440; osc_started := false; osc_stopped := false;
          osc_out := None |}.

(** ** The engine object *)

Record ToneEngine := {
  audioContext : option AudioContext;
  masterGain : option nat;
  toneGain : option nat;
  oscA : option nat;
  oscB : option nat;
  currentKey : option string;
  isStarted : bool;
  masterVolume : Q;
  cadenceTimeoutId : option nat;
  dialPreset : RegionalPreset
}.

(** [new ToneEngine()] *)
Definition newToneEngine : ToneEngine :=
  {| audioContext := None; masterGain := None; toneGain := None;
     oscA := None; oscB := None; currentKey := None; isStarted := false;
     masterVolume := (3 # 10)%Q; cadenceTimeoutId := None; dialPreset := us |}.

(** ** Timers, DOM calls and the state of the page *)

(** The closures handed to [setTimeout], in first-order form. *)
Inductive callback :=
  | CbCadence (isOn : bool) (onMs offMs : Z)  (* () => toggle(isOn) *)
  | CbToneEnd (localK : string)               (* end of a sequence tone *)
  | CbNext                                    (* scheduleNextFromBuffer *)
  | CbUnhighlight (k : string)                (* remove 'is-active' *)
  | CbAutoStop (localKey : string).           (* auto mode, manual key *)

Record Timer := { tm_id : nat; tm_due : Z; tm_cb : callback }.

Inductive Mode := hold | auto.

#[global] Instance Mode_eq_dec : EqDecision Mode.
Proof. solve_decision. Defined.

(** The texts given to [setStatus]: idle, playing, stopped, "sounds while
    held" and "auto <n>ms". *)
Inductive Status := StIdle | StPlaying | StStopped | StHold | StAuto (ms : Z).

#[global] Instance Status_eq_dec : EqDecision Status.
Proof. solve_decision. Defined.

Inductive UiCall :=
  | SetStatus (s : Status)
  | SetCurrentKey (shown : option string)  (* [None] is the dash *)
  | AppendLog (k : string)
  | AddActive (k : string)
  | RemoveActive (k : string).

#[global] Instance UiCall_eq_dec : EqDecision UiCall.
Proof. solve_decision. Defined.

Record World := {
  engine : ToneEngine;
  mode : Mode;
  autoDurationMs : Z;
  gapMs : Z;
  seqTimer : option nat;
  seqBuffer : list string;
  isSeqPlaying : bool;
  pressedKeys : gset string;
  (* the window: clock in ms, timer ids, pending timers in creation order *)
  now : Z;
  nextTimerId : nat;
  timers : list Timer;
  (* DOM calls, oldest first *)
  ui : list UiCall;
  (* history variable: the keys handed to [playOnce], oldest first *)
  seqPlayed : list string
}.

(** Field assignments [this.f = v] on the engine. *)

Definition set_audioContext (v : option AudioContext) (e : ToneEngine) : ToneEngine :=
  {| audioContext := v; masterGain := masterGain e; toneGain := toneGain e;
     oscA := oscA e; oscB := oscB e; currentKey := currentKey e;
     isStarted := isStarted e; masterVolume := masterVolume e;
     cadenceTimeoutId := cadenceTimeoutId e; dialPreset := dialPreset e |}.

Definition set_masterGain (v : option nat) (e : ToneEngine) : ToneEngine :=
  {| audioContext := audioContext e; masterGain := v; toneGain := toneGain e;
     oscA := oscA e; oscB := oscB e; currentKey := currentKey e;
     isStarted := isStarted e; masterVolume := masterVolume e;
     cadenceTimeoutId := cadenceTimeoutId e; dialPreset := dialPreset e |}.

Definition set_toneGain (v : option nat) (e : ToneEngine) : ToneEngine :=
  {| audioContext := audioContext e; masterGain := masterGain e;
     toneGain := v; oscA := oscA e; oscB := oscB e;
     currentKey := currentKey e; isStarted := isStarted e;
     masterVolume := masterVolume e; cadenceTimeoutId := cadenceTimeoutId e;
     dialPreset := dialPreset e |}.

Definition set_oscA (v : option nat) (e : ToneEngine) : ToneEngine :=
  {| audioContext := audioContext e; masterGain := masterGain e;
     toneGain := toneGain e; oscA := v; oscB := oscB e;
     currentKey := currentKey e; isStarted := isStarted e;
     masterVolume := masterVolume e; cadenceTimeoutId := cadenceTimeoutId e;
     dialPreset := dialPreset e |}.

Definition set_oscB (v : option nat) (e : ToneEngine) : ToneEngine :=
  {| audioContext := audioContext e; masterGain := masterGain e;
     toneGain := toneGain e; oscA := oscA e; oscB := v;
     currentKey := currentKey e; isStarted := isStarted e;
     masterVolume := masterVolume e; cadenceTimeoutId := cadenceTimeoutId e;
     dialPreset := dialPreset e |}.

Definition set_currentKey (v : option string) (e : ToneEngine) : ToneEngine :=
  {| audioContext := audioContext e; masterGain := masterGain e;
     toneGain := toneGain e; oscA := oscA e; oscB := oscB e; currentKey := v;
     isStarted := isStarted e; masterVolume := masterVolume e;
     cadenceTimeoutId := cadenceTimeoutId e; dialPreset := dialPreset e |}.

Definition set_isStarted (v : bool) (e : ToneEngine) : ToneEngine :=
  {| audioContext := audioContext e; masterGain := masterGain e;
     toneGain := toneGain e; oscA := oscA e; oscB := oscB e;
     currentKey := currentKey e; isStarted := v;
     masterVolume := masterVolume e; cadenceTimeoutId := cadenceTimeoutId e;
     dialPreset := dialPreset e |}.

Definition set_masterVolume (v : Q) (e : ToneEngine) : ToneEngine :=
  {| audioContext := audioContext e; masterGain := masterGain e;
     toneGain := toneGain e; oscA := oscA e; oscB := oscB e;
     currentKey := currentKey e; isStarted := isStarted e; masterVolume := v;
     cadenceTimeoutId := cadenceTimeoutId e; dialPreset := dialPreset e |}.

Definition set_cadenceTimeoutId (v : option nat) (e : ToneEngine) : ToneEngine :=
  {| audioContext := audioContext e; masterGain := masterGain e;
     toneGain := toneGain e; oscA := oscA e; oscB := oscB e;
     currentKey := currentKey e; isStarted := isStarted e;
     masterVolume := masterVolume e; cadenceTimeoutId := v;
     dialPreset := dialPreset e |}.

Definition set_dialPreset (v : RegionalPreset) (e : ToneEngine) : ToneEngine :=
  {| audioContext := audioContext e; masterGain := masterGain e;
     toneGain := toneGain e; oscA := oscA e; oscB := oscB e;
     currentKey := currentKey e; isStarted := isStarted e;
     masterVolume := masterVolume e; cadenceTimeoutId := cadenceTimeoutId e;
     dialPreset := v |}.

(** Assignments to the variables of the page. *)

Definition set_engine (v : ToneEngine) (w : World) : World :=
  {| engine := v; mode := mode w; autoDurationMs := autoDurationMs w;
     gapMs := gapMs w; seqTimer := seqTimer w; seqBuffer := seqBuffer w;
     isSeqPlaying := isSeqPlaying w; pressedKeys := pressedKeys w;
     now := now w; nextTimerId := nextTimerId w; timers := timers w;
     ui := ui w; seqPlayed := seqPlayed w |}.

Definition set_mode (v : Mode) (w : World) : World :=
  {| engine := engine w; mode := v; autoDurationMs := autoDurationMs w;
     gapMs := gapMs w; seqTimer := seqTimer w; seqBuffer := seqBuffer w;
     isSeqPlaying := isSeqPlaying w; pressedKeys := pressedKeys w;
     now := now w; nextTimerId := nextTimerId w; timers := timers w;
     ui := ui w; seqPlayed := seqPlayed w |}.

Definition set_autoDurationMs (v : Z) (w : World) : World :=
  {| engine := engine w; mode := mode w; autoDurationMs := v;
     gapMs := gapMs w; seqTimer := seqTimer w; seqBuffer := seqBuffer w;
     isSeqPlaying := isSeqPlaying w; pressedKeys := pressedKeys w;
     now := now w; nextTimerId := nextTimerId w; timers := timers w;
     ui := ui w; seqPlayed := seqPlayed w |}.

Definition set_gapMs (v : Z) (w : World) : World :=
  {| engine := engine w; mode := mode w; autoDurationMs := autoDurationMs w;
     gapMs := v; seqTimer := seqTimer w; seqBuffer := seqBuffer w;
     isSeqPlaying := isSeqPlaying w; pressedKeys := pressedKeys w;
     now := now w; nextTimerId := nextTimerId w; timers := timers w;
     ui := ui w; seqPlayed := seqPlayed w |}.

Definition set_seqTimer (v : option nat) (w : World) : World :=
  {| engine := engine w; mode := mode w; autoDurationMs := autoDurationMs w;
     gapMs := gapMs w; seqTimer := v; seqBuffer := seqBuffer w;
     isSeqPlaying := isSeqPlaying w; pressedKeys := pressedKeys w;
     now := now w; nextTimerId := nextTimerId w; timers := timers w;
     ui := ui w; seqPlayed := seqPlayed w |}.

Definition set_seqBuffer (v : list string) (w : World) : World :=
  {| engine := engine w; mode := mode w; autoDurationMs := autoDurationMs w;
     gapMs := gapMs w; seqTimer := seqTimer w; seqBuffer := v;
     isSeqPlaying := isSeqPlaying w; pressedKeys := pressedKeys w;
     now := now w; nextTimerId := nextTimerId w; timers := timers w;
     ui := ui w; seqPlayed := seqPlayed w |}.

Definition set_isSeqPlaying (v : bool) (w : World) : World :=
  {| engine := engine w; mode := mode w; autoDurationMs := autoDurationMs w;
     gapMs := gapMs w; seqTimer := seqTimer w; seqBuffer := seqBuffer w;
     isSeqPlaying := v; pressedKeys := pressedKeys w; now := now w;
     nextTimerId := nextTimerId w; timers := timers w; ui := ui w;
     seqPlayed := seqPlayed w |}.

Definition set_pressedKeys (v : gset string) (w : World) : World :=
  {| engine := engine w; mode := mode w; autoDurationMs := autoDurationMs w;
     gapMs := gapMs w; seqTimer := seqTimer w; seqBuffer := seqBuffer w;
     isSeqPlaying := isSeqPlaying w; pressedKeys := v; now := now w;
     nextTimerId := nextTimerId w; timers := timers w; ui := ui w;
     seqPlayed := seqPlayed w |}.

Definition set_now (v : Z) (w : World) : World :=
  {| engine := engine w; mode := mode w; autoDurationMs := autoDurationMs w;
     gapMs := gapMs w; seqTimer := seqTimer w; seqBuffer := seqBuffer w;
     isSeqPlaying := isSeqPlaying w; pressedKeys := pressedKeys w; now := v;
     nextTimerId := nextTimerId w; timers := timers w; ui := ui w;
     seqPlayed := seqPlayed w |}.

Definition set_nextTimerId (v : nat) (w : World) : World :=
  {| engine := engine w; mode := mode w; autoDurationMs := autoDurationMs w;
     gapMs := gapMs w; seqTimer := seqTimer w; seqBuffer := seqBuffer w;
     isSeqPlaying := isSeqPlaying w; pressedKeys := pressedKeys w;
     now := now w; nextTimerId := v; timers := timers w; ui := ui w;
     seqPlayed := seqPlayed w |}.

Definition set_timers (v : list Timer) (w : World) : World :=
  {| engine := engine w; mode := mode w; autoDurationMs := autoDurationMs w;
     gapMs := gapMs w; seqTimer := seqTimer w; seqBuffer := seqBuffer w;
     isSeqPlaying := isSeqPlaying w; pressedKeys := pressedKeys w;
     now := now w; nextTimerId := nextTimerId w; timers := v; ui := ui w;
     seqPlayed := seqPlayed w |}.

Definition set_ui (v : list UiCall) (w : World) : World :=
  {| engine := engine w; mode := mode w; autoDurationMs := autoDurationMs w;
     gapMs := gapMs w; seqTimer := seqTimer w; seqBuffer := seqBuffer w;
     isSeqPlaying := isSeqPlaying w; pressedKeys := pressedKeys w;
     now := now w; nextTimerId := nextTimerId w; timers := timers w; ui := v;
     seqPlayed := seqPlayed w |}.

Definition set_seqPlayed (v : list string) (w : World) : World :=
  {| engine := engine w; mode := mode w; autoDurationMs := autoDurationMs w;
     gapMs := gapMs w; seqTimer := seqTimer w; seqBuffer := seqBuffer w;
     isSeqPlaying := isSeqPlaying w; pressedKeys := pressedKeys w;
     now := now w; nextTimerId := nextTimerId w; timers := timers w;
     ui := ui w; seqPlayed := v |}.

(** [engine.f = v] seen from the page. *)
Definition on_engine (f : ToneEngine → ToneEngine) (w : World) : World :=
  set_engine (f (engine w)) w.

(** A method call on the node referenced by [i]. *)
Definition on_node (f : AudioNode → AudioNode) (i : nat) (w : World) : World :=
  match audioContext (engine w) with
  | Some c =>
      on_engine (set_audioContext
        (Some {| ctx_state := ctx_state c; ctx_nodes := alter f i (ctx_nodes c) |})) w
  | None => w
  end.

(** [audioContext.createGain()] / [createOscillator()]: the reference of
    the new node. The engine only creates nodes once it holds a context. *)
Definition createNode (n : AudioNode) (w : World) : nat * World :=
  match audioContext (engine w) with
  | Some c =>
      (length (ctx_nodes c),
       on_engine (set_audioContext
         (Some {| ctx_state := ctx_state c; ctx_nodes := ctx_nodes c ++ [n] |})) w)
  | None => (0%nat, w)
  end.

(** The nodes of the page's audio context. *)
Definition nodes (w : World) : list AudioNode :=
  match audioContext (engine w) with
  | Some c => ctx_nodes c
  | None => []
  end.

(** [window.setTimeout(cb, delay)]: a fresh id, due [delay] ms from now,
    at once for a negative delay. The due time is the earliest moment at
    which the browser runs the callback. The browser reads [delay] as a
    32-bit [long]; the due time given here is the browser's for the
    delays of that range. *)
Definition setTimeout (cb : callback) (delay : Z) (w : World) : nat * World :=
  let id := nextTimerId w in
  (id, set_nextTimerId (S id)
         (set_timers (timers w ++
            [{| tm_id := id; tm_due := now w + Z.max 0 delay; tm_cb := cb |}]) w)).

(** [clearTimeout(id)]; an id that is not pending is ignored. *)
Definition clearTimeout (id : nat) (w : World) : World :=
  set_timers (filter (λ t, tm_id t ≠ id) (timers w)) w.

Definition logUi (c : UiCall) (w : World) : World := set_ui (ui w ++ [c]) w.

Definition setStatus (s : Status) : World → World := logUi (SetStatus s).

(** [setCurrentKey(text)] shows [text || dash]. *)
Definition setCurrentKey (text : string) : World → World :=
  logUi (SetCurrentKey (if decide (text = "") then None else Some text)).

(** [setCurrentKey] applied to the dash itself. *)
Definition setCurrentKeyDash : World → World := logUi (SetCurrentKey None).

Definition appendLog (k : string) : World → World := logUi (AppendLog k).

(** The page as the script leaves it once loaded; [d] and [g] are the
    initial values of the duration and gap sliders. *)
Definition initWorld (d g : Z) : World :=
  {| engine := newToneEngine; mode := hold; autoDurationMs := d; gapMs := g;
     seqTimer := None; seqBuffer := []; isSeqPlaying := false;
     pressedKeys := ∅; now := 0; nextTimerId := 1%nat; timers := [];
     ui := []; seqPlayed := [] |}.

(** ** ToneSynthesizer: the methods of [ToneEngine] *)

(** How a call ends: normally, or with an exception that unwinds to the
    event loop. The only one the engine can raise is the TypeError of
    [frequency.value = v] for a [v] that is not a number. *)
Inductive completion := Normal | Threw.

(** [ensureContext()], on a browser that provides Web Audio. The state of
    the context belongs to the browser: a new context is taken to run and
    [resume()] to be granted at once; a context that the browser leaves
    suspended is the event [ContextSuspended] after the call. *)
Definition ensureContext (w : World) : World :=
  let w :=
    match audioContext (engine w) with
    | Some _ => w
    | None =>
        let w := on_engine (set_audioContext
                   (Some {| ctx_state := running; ctx_nodes := [] |})) w in
        let '(mg, w) := createNode newGain w in
        let w := on_engine (set_masterGain (Some mg)) w in
        let w := on_node (node_set_gain (masterVolume (engine w))) mg w in
        on_node (node_connect Destination) mg w
    end in
  match audioContext (engine w) with
  | Some {| ctx_state := suspended; ctx_nodes := ns |} =>
      (* resume() *)
      on_engine (set_audioContext
        (Some {| ctx_state := running; ctx_nodes := ns |})) w
  | _ => w
  end.

Definition setVolume (volume : Q) (w : World) : World :=
  let w := on_engine (set_masterVolume volume) w in
  match masterGain (engine w) with
  | Some mg => on_node (node_set_gain volume) mg w
  | None => w
  end.

Definition setDialPreset (preset : RegionalPreset) : World → World :=
  on_engine (set_dialPreset preset).

Definition stopTone (w : World) : World :=
  if negb (isStarted (engine w)) then w else
  let w := match cadenceTimeoutId (engine w) with
           | Some id => on_engine (set_cadenceTimeoutId None) (clearTimeout id w)
           | None => w
           end in
  let w := match oscA (engine w) with
           | Some i => on_node node_disconnect i (on_node node_stop i w)
           | None => w
           end in
  let w := match oscB (engine w) with
           | Some i => on_node node_disconnect i (on_node node_stop i w)
           | None => w
           end in
  let w := match toneGain (engine w) with
           | Some g => on_node node_disconnect g w
           | None => w
           end in
  let w := on_engine (set_oscA None) w in
  let w := on_engine (set_oscB None) w in
  let w := on_engine (set_toneGain None) w in
  let w := on_engine (set_isStarted false) w in
  on_engine (set_currentKey None) w.

(** The closure [toggle] of [startToneForKey], for a cadence
    [{onMs, offMs}]. The timer it arms calls [toggle(!isOn)]. *)
Definition toggle (onMs offMs : Z) (isOn : bool) (w : World) : World :=
  match audioContext (engine w), toneGain (engine w) with
  | Some _, Some g =>
      let w := on_node (node_set_gain (if isOn then 1%Q else 0%Q)) g w in
      let nextDelay := if isOn then onMs else offMs in
      let '(id, w) := setTimeout (CbCadence (negb isOn) onMs offMs) nextDelay w in
      on_engine (set_cadenceTimeoutId (Some id)) w
  | _, _ => w
  end.

(** The second half of [startToneForKey], from the creation of the tone
    gate on: [mg] is [this.masterGain], which the guard before it found. *)
Definition wireTone (key : string) (spec : ToneSpec) (mg : nat) (w : World)
  : completion * World :=
  let '(g, w) := createNode newGain w in
  let w := on_engine (set_toneGain (Some g)) w in
  let w := on_node (node_set_gain 1%Q) g w in
  let w := on_node (node_connect (ToNode mg)) g w in
  let '(oa, w) := createNode newOscillator w in
  let w := on_engine (set_oscA (Some oa)) w in
  match a spec with
  | JNum fa =>
      let w := on_node (node_set_frequency fa) oa w in
      let w := on_node (node_connect (ToNode g)) oa w in
      let w := on_node node_start oa w in
      let finish (w : World) : completion * World :=
        let w := on_engine (set_currentKey (Some key)) w in
        let w := on_engine (set_isStarted true) w in
        match cadence spec with
        | Some c => (Normal, toggle (onMs c) (offMs c) true w)
        | None => (Normal, w)
        end in
      if truthy (b spec) then
        let '(ob, w) := createNode newOscillator w in
        let w := on_engine (set_oscB (Some ob)) w in
        match b spec with
        | JNum fb =>
            let w := on_node (node_set_frequency fb) ob w in
            let w := on_node (node_connect (ToNode g)) ob w in
            let w := on_node node_start ob w in
            finish w
        | _ => (Threw, w)
        end
      else finish w
  | _ => (Threw, w)
  end.

Definition startToneForKey (key : string) (w : World) : completion * World :=
  match getFrequenciesForKey (dialPreset (engine w)) key with
  | None => (Normal, w)
  | Some spec =>
      let w := ensureContext w in
      match audioContext (engine w), masterGain (engine w) with
      | Some _, Some mg => wireTone key spec mg (stopTone w)
      | _, _ => (Normal, w)
      end
  end.

(** ** SequencePlayer and the handlers of the page *)

Definition validKeys : gset string :=
  list_to_set ["0"; "1"; "2"; "3"; "4"; "5"; "6"; "7"; "8"; "9"; "#"; "*"; "/"].

Definition cancelSequencePlayback (w : World) : World :=
  let w := match seqTimer w with
           | Some id => set_seqTimer None (clearTimeout id w)
           | None => w
           end in
  set_isSeqPlaying false w.

(** [scheduleNextFromBuffer], by recursion on the buffer it shifts:
    [buf] is [seqBuffer] at the call. *)
Fixpoint scheduleNextFrom (buf : list string) (w : World) : World :=
  if negb (isSeqPlaying w) then w else
  match buf with
  | [] => setStatus StIdle (set_isSeqPlaying false w)
  | k :: rest =>
      let w := set_seqBuffer rest w in                        (* shift() *)
      if decide (k = "") then scheduleNextFrom rest w
      else if negb (bool_decide (k ∈ validKeys)) then scheduleNextFrom rest w
      else
        let w := setCurrentKey k w in
        let w := appendLog k w in
        let w := logUi (AddActive k) w in
        (* playOnce() *)
        let w := set_seqPlayed (seqPlayed w ++ [k]) w in
        let '(c, w) := startToneForKey k w in
        match c with
        | Threw => w
        | Normal =>
            let w := setStatus StPlaying w in
            let '(_, w) := setTimeout (CbToneEnd k) (autoDurationMs w) w in
            snd (setTimeout (CbUnhighlight k) (autoDurationMs w + 10) w)
        end
  end.

Definition scheduleNextFromBuffer (w : World) : World :=
  scheduleNextFrom (seqBuffer w) w.

(** [input.split('')] *)
Definition split_chars (s : string) : list string :=
  (λ c, String c EmptyString) <$> String.list_ascii_of_string s.

(** [startSequencePlaybackFromText], with [raw] the value of the input
    field (the empty string when there is no field). *)
Definition startSequencePlaybackFromText (raw : string) (w : World) : World :=
  let input := String.substring 0 128 raw in
  let w := set_seqBuffer (split_chars input) w in
  if decide (length (seqBuffer w) = 0%nat) then w else
  let w := cancelSequencePlayback w in
  let w := set_isSeqPlaying true w in
  scheduleNextFromBuffer w.

Definition triggerKeyDown (k : string) (w : World) : World :=
  let w := logUi (AddActive k) w in
  let w := setCurrentKey k w in
  let w := appendLog k w in
  match mode w with
  | hold => snd (startToneForKey k w)
  | auto =>
      let '(c, w) := startToneForKey k w in
      match c with
      | Threw => w
      | Normal =>
          let w := setStatus StPlaying w in
          snd (setTimeout (CbAutoStop k) (autoDurationMs w) w)
      end
  end.

Definition triggerKeyUp (k : string) (w : World) : World :=
  let w := logUi (RemoveActive k) w in
  match mode w with
  | hold =>
      if decide (currentKey (engine w) = Some k)
      then setStatus StIdle (setCurrentKeyDash (stopTone w))
      else w
  | auto => w
  end.

(** What a timer does when it fires. *)
Definition runCallback (cb : callback) (w : World) : World :=
  match cb with
  | CbCadence isOn onMs offMs => toggle onMs offMs isOn w
  | CbToneEnd localK =>
      let w := if decide (currentKey (engine w) = Some localK)
               then setCurrentKeyDash (stopTone w) else w in
      let '(id, w) := setTimeout CbNext (gapMs w) w in
      set_seqTimer (Some id) w
  | CbNext => scheduleNextFromBuffer w
  | CbUnhighlight k => logUi (RemoveActive k) w
  | CbAutoStop localKey =>
      if decide (currentKey (engine w) = Some localKey)
      then logUi (RemoveActive localKey)
             (setStatus (StAuto (autoDurationMs w)) (setCurrentKeyDash (stopTone w)))
      else w
  end.

(** The pending timer with id [id], if any. *)
Definition pendingTimer (id : nat) (w : World) : option Timer :=
  head (filter (λ t, tm_id t = id) (timers w)).

(** The timer [id] fires: it leaves the pending list and its callback
    runs. A timer that is not pending, or not yet due, does not fire. *)
Definition fire (id : nat) (w : World) : World :=
  match pendingTimer id w with
  | Some t =>
      if decide (tm_due t ≤ now w) then runCallback (tm_cb t) (clearTimeout id w)
      else w
  | None => w
  end.

(** What can happen to the page: the clock moves on, a timer fires, or the
    user acts on a control. *)
Inductive event :=
  | Advance (t : Z)
  | Fire (id : nat)
  | PlaySeqClick (raw : string)
  | StopSeqClick
  | PointerDown (key : string)
  | PointerUp (key : string)
  | KeyDown (editable : bool) (k : string)
  | KeyUp (editable : bool) (k : string)
  | VolumeInput (v : Q)
  | DurationInput (d : Z)
  | GapInput (g : Z)
  | ModeChange (m : Mode)
  | PresetChange (p : RegionalPreset)
  | ContextSuspended.

Definition step (e : event) (w : World) : World :=
  match e with
  | Advance t => set_now (Z.max (now w) t) w
  | Fire id => fire id w
  | PlaySeqClick raw => startSequencePlaybackFromText raw w
  | StopSeqClick => setStatus StStopped (cancelSequencePlayback w)
  | PointerDown key => if decide (key = "") then w else triggerKeyDown key w
  | PointerUp key => triggerKeyUp key w
  | KeyDown editable k =>
      if editable then w
      else if negb (bool_decide (k ∈ validKeys)) then w
      else
        let w := if isSeqPlaying w then cancelSequencePlayback w else w in
        if bool_decide (k ∈ pressedKeys w) && bool_decide (mode w = hold) then w
        else triggerKeyDown k (set_pressedKeys ({[k]} ∪ pressedKeys w) w)
  | KeyUp editable k =>
      if editable then w
      else if negb (bool_decide (k ∈ validKeys)) then w
      else triggerKeyUp k (set_pressedKeys (pressedKeys w ∖ {[k]}) w)
  | VolumeInput v => setVolume v w
  | DurationInput d =>
      let w := set_autoDurationMs d w in
      match mode w with auto => setStatus (StAuto d) w | hold => w end
  | GapInput g => set_gapMs g w
  | ModeChange m =>
      setStatus (match m with hold => StHold | auto => StAuto (autoDurationMs w) end)
        (set_mode m w)
  | PresetChange p =>
      let w := setDialPreset p w in
      if bool_decide (currentKey (engine w) = Some "*") && isStarted (engine w)
      then snd (startToneForKey "*" w) else w
  | ContextSuspended =>
      match audioContext (engine w) with
      | Some c => on_engine (set_audioContext
                    (Some {| ctx_state := suspended; ctx_nodes := ctx_nodes c |})) w
      | None => w
      end
  end.

(** The page after the events [es], oldest first. *)
Definition run (es : list event) (w : World) : World :=
  foldl (λ w e, step e w) w es.

(** The timer the event loop runs next when the user stays idle: the
    earliest due, and the oldest among those due together. *)
Definition nextTimer (w : World) : option Timer :=
  foldl (λ best t,
           match best with
           | None => Some t
           | Some t0 => if tm_due t <? tm_due t0 then Some t else Some t0
           end) None (timers w).

(** [fuel] turns of the event loop with no user input: the clock moves to
    the next timer and that timer fires. *)
Fixpoint eventLoop (fuel : nat) (w : World) : World :=
  match fuel with
  | O => w
  | S n =>
      match nextTimer w with
      | None => w
      | Some t => eventLoop n (fire (tm_id t) (set_now (Z.max (now w) (tm_due t)) w))
      end
  end.

(** ** The text of the input log *)

(** [s.slice(start)] with one argument: a negative [start] counts from
    the end of the string. *)
Definition slice (start : Z) (s : string) : string :=
  let l := String.list_ascii_of_string s in
  let len := Z.of_nat (length l) in
  let from := if start <? 0 then Z.max (len + start) 0 else Z.min start len in
  String.string_of_list_ascii (drop (Z.to_nat from) l).

(** [appendLog(k)], as it rewrites the text of the log:
    [(inputLog.textContent + k).slice(-24)]. *)
Definition appendLogText (k : string) (text : string) : string :=
  slice (-24) (String.append text k).

(** The text of the input log after the DOM calls [calls], oldest first,
    on a log that showed [init]. *)
Definition inputLogText (init : string) (calls : list UiCall) : string :=
  foldl (λ text c, match c with AppendLog k => appendLogText k text | _ => text end)
    init calls.

(** ** The pointer listeners of the keypad *)

(** The page together with the [up] closures that [pointerdown] has
    registered on the window and that are still registered, oldest first;
    a closure is known by the key it closes over. Each closure is
    registered for [pointerup], [pointercancel] and [pointerleave] and
    removes itself from all three when it runs, so that the three
    listener lists are one list. *)
Record Page := { world : World; upListeners : list string }.

(** How [triggerKeyDown(k)] ends: the one call in it that can raise is
    [engine.startToneForKey(k)], made after the three DOM calls. *)
Definition triggerKeyDownCompletion (k : string) (w : World) : completion :=
  fst (startToneForKey k (appendLog k (setCurrentKey k (logUi (AddActive k) w)))).

(** The [pointerdown] listener of the keypad. [dataKey] is what
    [target.getAttribute('data-key')] yields, [None] standing for a
    target that is no HTMLElement or has no such attribute. When
    [triggerKeyDown] raises, the listener is left before [up] is
    registered. *)
Definition pointerdown (dataKey : option string) (p : Page) : Page :=
  match dataKey with
  | None => p
  | Some key =>
      if decide (key = "") then p
      else {| world := triggerKeyDown key (world p);
              upListeners :=
                match triggerKeyDownCompletion key (world p) with
                | Normal => upListeners p ++ [key]
                | Threw => upListeners p
                end |}
  end.

(** A [pointerup], [pointercancel] or [pointerleave] is dispatched on the
    window: every registered [up] runs, in the order of registration, and
    none stays registered. *)
Definition pointerend (p : Page) : Page :=
  {| world := foldl (λ w key, triggerKeyUp key w) (world p) (upListeners p);
     upListeners := [] |}.

(** ** Notions the properties are stated with *)

(** The keypad of the DTMF standard, as the specification words it: four
    low-group rows and three high-group columns. *)
Definition keypadRows : list (Z * list string) :=
  [ (697, ["1"; "2"; "3"]); (770, ["4"; "5"; "6"]);
    (852, ["7"; "8"; "9"]); (941, ["*"; "0"; "#"]) ].

Definition keypadColumns : list Z := [1209; 1336; 1477].

(** The position of [key] in a row. *)
Fixpoint column_of (key : string) (row : list string) (cols : list Z) : option Z :=
  match row, cols with
  | k :: row', c :: cols' => if decide (k = key) then Some c else column_of key row' cols'
  | _, _ => None
  end.

(** The (low, high) pair the standard assigns to [key]. *)
Fixpoint standardDtmfIn (rows : list (Z * list string)) (key : string) : option (Z * Z) :=
  match rows with
  | [] => None
  | (low, row) :: rows' =>
      match column_of key row keypadColumns with
      | Some high => Some (low, high)
      | None => standardDtmfIn rows' key
      end
  end.

Definition standardDtmf : string → option (Z * Z) := standardDtmfIn keypadRows.

(** The eleven keys that sound as DTMF digits. *)
Definition dtmfKeys : list string :=
  ["0"; "1"; "2"; "3"; "4"; "5"; "6"; "7"; "8"; "9"; "#"].

(** The (low, high) pair of a lookup result. *)
Definition pair_of (r : option ToneSpec) : option (jsval * jsval) :=
  (λ s, (a s, b s)) <$> r.

(** A key symbol: one character, as [split('')] and the keyboard deliver. *)
Definition isSymbol (key : string) : Prop := String.length key = 1%nat.

(** Clamping to [0,1], as the specification words [setVolume]. *)
Definition clamp01 (v : Q) : Q :=
  if Qlt_le_dec v 0 then 0%Q else if Qlt_le_dec 1 v then 1%Q else v.

(** A node that is silent and released: not sounding, not connected. *)
Definition released (n : AudioNode) : Prop :=
  node_alive n = false ∧ node_out n = None.

Definition dead (n : AudioNode) : Prop := node_alive n = false.

Definition unplugged (n : AudioNode) : Prop := node_out n = None.

(** A method call through a reference that may be [null]. *)
Definition alter_at (f : AudioNode → AudioNode) (r : option nat)
  (ns : list AudioNode) : list AudioNode :=
  match r with Some i => alter f i ns | None => ns end.

(** What [stopTone] does to the nodes of a started engine [e]. *)
Definition teardown_nodes (e : ToneEngine) (ns : list AudioNode) : list AudioNode :=
  alter_at node_disconnect (toneGain e)
    (alter_at node_disconnect (oscB e) (alter_at node_stop (oscB e)
      (alter_at node_disconnect (oscA e) (alter_at node_stop (oscA e) ns)))).

(** [w'] differs from [w] at most in the engine and the timers: the
    variables of the sequence player and the DOM log are those of [w]. *)
Definition engine_only (w w' : World) : Prop :=
  w' = set_nextTimerId (nextTimerId w') (set_timers (timers w') (set_engine (engine w') w)).

Definition is_cadence (cb : callback) : bool :=
  match cb with CbCadence _ _ _ => true | _ => false end.

(** The sounding oscillators are those of the engine's current tone,
    wired to its gate. *)
Definition sounding_is_current (w : World) : Prop :=
  ∀ i n, nodes w !! i = Some n → node_alive n = true →
    isStarted (engine w) = true
    ∧ (oscA (engine w) = Some i ∨ oscB (engine w) = Some i)
    ∧ ∃ g, toneGain (engine w) = Some g ∧ node_out n = Some (ToNode g).

(** What holds of the page after any sequence of events. *)
Record Inv (w : World) : Prop := {
  inv_key : isStarted (engine w) = false → currentKey (engine w) = None;
  inv_cad : currentKey (engine w) = None → cadenceTimeoutId (engine w) = None;
  inv_cad_timer : ∀ t, t ∈ timers w → is_cadence (tm_cb t) = true →
    cadenceTimeoutId (engine w) = Some (tm_id t);
  inv_cad_pending : ∀ id, cadenceTimeoutId (engine w) = Some id →
    ∃ t, t ∈ timers w ∧ tm_id t = id ∧ is_cadence (tm_cb t) = true;
  inv_fresh : ∀ t, t ∈ timers w → (tm_id t < nextTimerId w)%nat;
  inv_nodup : NoDup (tm_id <$> timers w);
  inv_seqTimer : ∀ id, seqTimer w = Some id →
    (id < nextTimerId w)%nat ∧ ∀ t, t ∈ timers w → tm_id t = id → tm_cb t = CbNext;
  inv_alive : sounding_is_current w;
  inv_master : audioContext (engine w) ≠ None → masterGain (engine w) ≠ None;
  inv_gate : isStarted (engine w) = true →
    audioContext (engine w) ≠ None
    ∧ ∃ g gn, toneGain (engine w) = Some g ∧ nodes w !! g = Some (NGain gn)
              ∧ gain_out gn ≠ None
}.

(** Two pages that agree on what the invariant looks at. *)
Definition same_core (w w' : World) : Prop :=
  isStarted (engine w') = isStarted (engine w)
  ∧ currentKey (engine w') = currentKey (engine w)
  ∧ cadenceTimeoutId (engine w') = cadenceTimeoutId (engine w)
  ∧ oscA (engine w') = oscA (engine w)
  ∧ oscB (engine w') = oscB (engine w)
  ∧ toneGain (engine w') = toneGain (engine w)
  ∧ masterGain (engine w') = masterGain (engine w)
  ∧ (audioContext (engine w') = None ↔ audioContext (engine w) = None)
  ∧ timers w' = timers w
  ∧ nextTimerId w' = nextTimerId w
  ∧ seqTimer w' = seqTimer w
  ∧ length (nodes w') = length (nodes w)
  ∧ ∀ i n, nodes w !! i = Some n →
      ∃ n', nodes w' !! i = Some n' ∧ node_alive n' = node_alive n
            ∧ node_out n' = node_out n
            ∧ (∀ gn, n = NGain gn → ∃ gn', n' = NGain gn').

(** The nodes a tone adds: its gate and its one or two oscillators. *)
Definition toneNodes (mg g : nat) (fa : Z) (vb : jsval) : list AudioNode :=
  [ NGain {| gain_value := 1; gain_out := Some (ToNode mg) |};
    NOsc {| osc_frequency := fa; osc_started := true; osc_stopped := false;
            osc_out := Some (ToNode g) |} ]
  ++ match vb with
     | JNum fb => [ NOsc {| osc_frequency := fb; osc_started := true;
                            osc_stopped := false; osc_out := Some (ToNode g) |} ]
     | _ => []
     end.

(** The cadence timer armed by [toggle(true)] at the start of a tone. *)
Definition firstCadenceTimer (c : Cadence) (w : World) : Timer :=
  {| tm_id := nextTimerId w; tm_due := now w + Z.max 0 (onMs c);
     tm_cb := CbCadence false (onMs c) (offMs c) |}.

(** The timer [toggle(isOn)] arms for the next phase. *)
Definition nextCadenceTimer (on off : Z) (isOn : bool) (w : World) : Timer :=
  {| tm_id := nextTimerId w;
     tm_due := now w + Z.max 0 (if isOn then on else off);
     tm_cb := CbCadence (negb isOn) on off |}.








(** What the sequence player keeps between two drain steps. *)
Definition seqView (w : World) : bool * list string * list string :=
  (isSeqPlaying w, seqPlayed w, seqBuffer w).

(** The calls that announce a key: the display of the key, its entry in
    the input log and its highlight. *)
Definition isKeyStarted (c : UiCall) : bool :=
  match c with
  | SetCurrentKey (Some _) | AppendLog _ | AddActive _ => true
  | _ => false
  end.

Definition keyStarts (w : World) : list UiCall :=
  filter (λ c, isKeyStarted c = true) (ui w).

(** The clicks on the play button. *)
Definition isPlayClick (e : event) : bool :=
  match e with PlaySeqClick _ => true | _ => false end.

(** The events that need no user: the clock and the timers. *)
Definition isTimerEvent (e : event) : bool :=
  match e with Advance _ | Fire _ => true | _ => false end.

(** The page when the tone of the key [k] of a sequence has ended, before
    the gap timer is armed. *)
Definition afterTone (k : string) (w : World) : World :=
  if decide (currentKey (engine w) = Some k) then setCurrentKeyDash (stopTone w)
  else w.

(** A symbol the drain step plays: not empty and one of [validKeys]. *)
Definition playable (k : string) : Prop := k ≠ "" ∧ k ∈ validKeys.

#[global] Instance playable_dec k : Decision (playable k).
Proof. unfold playable. apply _. Defined.

(** The keys a text is to play: its recognized symbols among the first
    128, in order. *)
Definition keysOf (raw : string) : list string :=
  filter playable (take 128 (split_chars raw)).

(** How often idle was reported. *)
Definition idleCount (w : World) : nat :=
  length (filter (λ c, c = SetStatus StIdle) (ui w)).

(** The timers that carry a sequence on: the end of a tone and the gap. *)
Definition isChain (cb : callback) : bool :=
  match cb with CbToneEnd _ | CbNext => true | _ => false end.

(** The page on which the drain step plays the key [k]: [k] is shown,
    logged, highlighted and noted, and [rest] is what remains queued. *)
Definition announced (k : string) (rest : list string) (w : World) : World :=
  set_seqPlayed (seqPlayed w ++ [k])
    (logUi (AddActive k) (appendLog k (setCurrentKey k (set_seqBuffer rest w)))).

(** The page after [playOnce] and the timer of the highlight. *)
Definition played (k : string) (w : World) : World :=
  let w := setStatus StPlaying (snd (startToneForKey k w)) in
  let w := snd (setTimeout (CbToneEnd k) (autoDurationMs w) w) in
  snd (setTimeout (CbUnhighlight k) (autoDurationMs w + 10) w).

(** The sequence after [enqueueAndPlay]: either it is still playing, what
    was played and what is queued make up the keys [exp] and a timer that
    carries it on is pending; or it has played [exp], stopped, and
    reported idle once more than the [c0] times before. *)
Definition draining (exp : list string) (c0 : nat) (w : World) : Prop :=
  (isSeqPlaying w = true
   ∧ seqPlayed w ++ filter playable (seqBuffer w) = exp
   ∧ idleCount w = c0
   ∧ ∃ t, t ∈ timers w ∧ isChain (tm_cb t) = true)
  ∨ (isSeqPlaying w = false ∧ seqPlayed w = exp ∧ idleCount w = S c0).

(** What a pending timer still owes the sequence: a tone end is followed
    by a gap. *)
Definition weight (t : Timer) : nat :=
  match tm_cb t with CbToneEnd _ => 2 | CbNext => 1 | _ => 0 end.

(** A bound on the chain timers that can still fire. *)
Definition fuelOf (w : World) : nat :=
  3 * length (seqBuffer w) + sum_list_with weight (timers w).

(** The first pending timer that carries the sequence on. *)
Definition chainTimer (w : World) : option Timer :=
  head (filter (λ t, isChain (tm_cb t) = true) (timers w)).

(** The clock reaches the due time of the next chain timer, which fires. *)
Definition chainStep (w : World) : World :=
  match chainTimer w with
  | Some t => fire (tm_id t) (set_now (Z.max (now w) (tm_due t)) w)
  | None => w
  end.

Fixpoint drainLoop (fuel : nat) (w : World) : World :=
  match fuel with
  | O => w
  | S n => drainLoop n (chainStep w)
  end.

(** The frequencies of the oscillators created so far, oldest first. *)
Definition oscFrequencies (w : World) : list Z :=
  omap (λ n, match n with NOsc o => Some (osc_frequency o) | NGain _ => None end)
    (nodes w).

(** ** What sounds, and how it reaches the output *)

(** The frequency a node contributes to the output: that of an oscillator
    that was started and not stopped. *)
Definition soundOf (n : AudioNode) : option Z :=
  match n with
  | NOsc o => if osc_alive o then Some (osc_frequency o) else None
  | NGain _ => None
  end.

(** The frequencies that sound, oldest oscillator first. *)
Definition soundingFrequencies (w : World) : list Z := omap soundOf (nodes w).

(** The frequencies [startToneForKey] gives to the oscillators for a
    lookup result: [a], and [b] when it is truthy. *)
Definition specFrequencies (r : option ToneSpec) : list Z :=
  match r with
  | Some s =>
      match a s with
      | JNum fa =>
          match b s with
          | JNum fb => if truthy (b s) then [fa; fb] else [fa]
          | _ => [fa]
          end
      | _ => []
      end
  | None => []
  end.

(** The tone of the key the engine calls current, under the preset [p]. *)
Definition toneOf (p : RegionalPreset) (key : option string) : list Z :=
  match key with
  | Some k => specFrequencies (getFrequenciesForKey p k)
  | None => []
  end.

(** How the nodes are wired after any sequence of events: the master gain
    is the first node, carries the volume of the engine and feeds the
    destination; the tone gate feeds the master gain; the current key is
    one of the thirteen keys; and a cadence handle is only held while [/]
    is the current key, which a started engine always has. *)
Record Wired (w : World) : Prop := {
  wired_master : ∀ mg, masterGain (engine w) = Some mg →
    mg = 0%nat
    ∧ nodes w !! 0%nat =
        Some (NGain {| gain_value := masterVolume (engine w);
                       gain_out := Some Destination |});
  wired_refs : ∀ i,
    toneGain (engine w) = Some i ∨ oscA (engine w) = Some i
    ∨ oscB (engine w) = Some i → (0 < i)%nat;
  wired_gate : ∀ g, toneGain (engine w) = Some g →
    ∃ gn, nodes w !! g = Some (NGain gn) ∧ gain_out gn = Some (ToNode 0);
  wired_key : ∀ k, currentKey (engine w) = Some k → k ∈ validKeys;
  wired_started : isStarted (engine w) = true → currentKey (engine w) ≠ None;
  wired_cadence :
    cadenceTimeoutId (engine w) ≠ None → currentKey (engine w) = Some "/"
}.

(** What sounds is the tone of the current key under the current preset. *)
Definition soundsCurrent (w : World) : Prop :=
  soundingFrequencies w = toneOf (dialPreset (engine w)) (currentKey (engine w)).

(** What the handlers keep, together. *)
Definition Good (w : World) : Prop := Inv w ∧ Wired w ∧ soundsCurrent w.

(** The settings the user controls: volume, dial preset, mode, tone
    length and gap. *)
Definition settingsOf (w : World) : Q * RegionalPreset * Mode * Z * Z :=
  (masterVolume (engine w), dialPreset (engine w), mode w, autoDurationMs w, gapMs w).

(** The events that come from one of the five controls of the settings. *)
Definition isSettingEvent (e : event) : bool :=
  match e with
  | VolumeInput _ | DurationInput _ | GapInput _ | ModeChange _ | PresetChange _ => true
  | _ => false
  end.

(** The value the volume slider had when it last moved; the volume of a
    new engine before that. *)
Definition lastVolume (es : list event) : Q :=
  foldl (λ v e, match e with VolumeInput v' => v' | _ => v end)
    (masterVolume newToneEngine) es.

(** The delays that [window.setTimeout], which reads its delay as a 32-bit
    [long], takes as they are. *)
Definition isLong (n : Z) : Prop := - 2 ^ 31 ≤ n < 2 ^ 31.

(** What a control does to the settings; any other event leaves them. *)
Definition applySetting (e : event) (s : Q * RegionalPreset * Mode * Z * Z)
  : Q * RegionalPreset * Mode * Z * Z :=
  let '(v, p, m, d, g) := s in
  match e with
  | VolumeInput v' => (v', p, m, d, g)
  | PresetChange p' => (v, p', m, d, g)
  | ModeChange m' => (v, p, m', d, g)
  | DurationInput d' => (v, p, m, d', g)
  | GapInput g' => (v, p, m, d, g')
  | _ => s
  end.

(** The pending cadence toggles. *)
Definition cadenceTimers (w : World) : list Timer :=
  filter (λ t, is_cadence (tm_cb t) = true) (timers w).

(** The keyboard events that change nothing while the key [k] is held in
    hold mode: its own auto-repeat, and any key event whose target or
    focus is an editable element. *)
Definition ignoredWhileHeld (k : string) (e : event) : bool :=
  match e with
  | KeyDown editable k' => editable || bool_decide (k' = k)
  | KeyUp editable _ => editable
  | _ => false
  end.

(** The keys written to the input log by the DOM calls [calls]. *)
Definition loggedKeys (calls : list UiCall) : list string :=
  omap (λ c, match c with AppendLog k => Some k | _ => None end) calls.

(** All the keys of a list in one string. *)
Definition joinKeys (keys : list string) : string :=
  foldr String.append "" keys.

(** What a keyboard event does to the keys held down, as the physical
    keyboard has them outside editable elements: the keydown of a
    recognized key puts it in, its keyup takes it out. *)
Definition heldAfter (e : event) (held : gset string) : gset string :=
  match e with
  | KeyDown false k => if bool_decide (k ∈ validKeys) then {[k]} ∪ held else held
  | KeyUp false k => if bool_decide (k ∈ validKeys) then held ∖ {[k]} else held
  | _ => held
  end.

(** The events that interrupt a sequence: the two buttons of the
    sequence player, and the keydown of a recognized key outside editable
    elements. *)
Definition interruptsSequence (e : event) : bool :=
  match e with
  | PlaySeqClick _ | StopSeqClick => true
  | KeyDown false k => bool_decide (k ∈ validKeys)
  | _ => false
  end.

(** The sequence is on its way through the keys [exp]: while it plays,
    what was played and what is queued make up [exp] and a timer that
    carries it on is pending; once it has stopped, it has played [exp]. *)
Definition progressing (exp : list string) (w : World) : Prop :=
  (isSeqPlaying w = true
   ∧ seqPlayed w ++ filter playable (seqBuffer w) = exp
   ∧ ∃ t, t ∈ timers w ∧ isChain (tm_cb t) = true)
  ∨ (isSeqPlaying w = false ∧ seqPlayed w = exp).

(** * Properties *)

(** ** The frequency table *)

Example lookup_5 : getFrequenciesForKey us "5" =
  Some {| a := JNum 770; b := JNum 1336; isContinuous := false; cadence := None |}.
Proof. vm_compute. reflexivity. Qed.

Example lookup_a : getFrequenciesForKey us "a" = None.
Proof. vm_compute. reflexivity. Qed.

Example lookup_toString : getFrequenciesForKey us "toString" =
  Some {| a := JInherited "toString"; b := JInherited "toString";
          isContinuous := false; cadence := None |}.
Proof. vm_compute. reflexivity. Qed.

(** Membership in a list given in full. *)
Ltac in_list :=
  repeat first [ apply list_elem_of_here | apply list_elem_of_further ].

Lemma symbol_not_inherited key : isSymbol key → key ∉ objectPrototype.
Proof.
  unfold isSymbol, objectPrototype. intros Hlen Hin.
  repeat (apply elem_of_cons in Hin as [-> | Hin]; [discriminate Hlen |]).
  by apply elem_of_nil in Hin.
Qed.

Lemma validKeys_spec key :
  key ∈ validKeys ↔
  key ∈ ["0"; "1"; "2"; "3"; "4"; "5"; "6"; "7"; "8"; "9"; "#"; "*"; "/"].
Proof. unfold validKeys. by rewrite elem_of_list_to_set. Qed.

(** Outside the thirteen keys neither table has an own property. *)
Lemma tables_miss key :
  key ∉ validKeys → dtmfLow !! key = None ∧ dtmfHigh !! key = None.
Proof.
  rewrite validKeys_spec. intros Hout.
  assert (Hne : ∀ k, k ∈ ["1"; "2"; "3"; "4"; "5"; "6"; "7"; "8"; "9"; "*"; "0"; "#"]
                     → k ≠ key).
  { intros k Hk ->. apply Hout. revert Hk. rewrite !elem_of_cons. tauto. }
  unfold dtmfLow, dtmfHigh; simpl.
  split; (rewrite !lookup_insert_ne; [apply lookup_empty | ..]);
    apply Hne; in_list.
Qed.

Lemma lookup_unknown p key :
  isSymbol key → key ∉ validKeys → getFrequenciesForKey p key = None.
Proof.
  intros Hsym Hout. destruct (tables_miss key Hout) as [Hlow Hhigh].
  assert (key ≠ "*" ∧ key ≠ "/") as [H1 H2].
  { split; intros ->; apply Hout; apply validKeys_spec; in_list. }
  unfold getFrequenciesForKey, getProp.
  rewrite !decide_False by done. rewrite Hlow, Hhigh.
  rewrite bool_decide_eq_false_2 by by apply symbol_not_inherited.
  reflexivity.
Qed.

(** A recognized key always has a numeric primary frequency, and a
    secondary that is a number or the [null] of the Japanese dial tone. *)
Lemma lookup_valid p key :
  key ∈ validKeys →
  ∃ fa vb c ct, getFrequenciesForKey p key =
                  Some {| a := JNum fa; b := vb; isContinuous := c; cadence := ct |}
                ∧ (vb = JNull ∨ ∃ fb, vb = JNum fb ∧ fb ≠ 0).
Proof.
  rewrite validKeys_spec. intros Hin.
  repeat (apply elem_of_cons in Hin as [-> | Hin]);
    [ .. | by apply elem_of_nil in Hin ];
    destruct p; vm_compute; do 4 eexists; (split; [reflexivity |]);
    first [ by left | right; eexists; split; [reflexivity | done] ].
Qed.

(** C1, as the code has it: for each of the digits and [#] the lookup
    returns the pair of the standard keypad (low group 697/770/852/941 Hz,
    high group 1209/1336/1477 Hz), not continuous and without cadence; the
    eleven pairs are pairwise distinct; [#] lies in the column of [9]
    (1477 Hz) and [0] in the column of [8] (1336 Hz). *)
Theorem dtmf_lookup_standard (p : RegionalPreset) :
  Forall (λ key, ∃ low high,
            standardDtmf key = Some (low, high)
            ∧ low ∈ [697; 770; 852; 941] ∧ high ∈ keypadColumns
            ∧ getFrequenciesForKey p key =
                Some {| a := JNum low; b := JNum high;
                        isContinuous := false; cadence := None |}) dtmfKeys
  ∧ NoDup ((λ key, pair_of (getFrequenciesForKey p key)) <$> dtmfKeys)
  ∧ pair_of (getFrequenciesForKey p "#") = Some (JNum 941, JNum 1477)
  ∧ pair_of (getFrequenciesForKey p "9") = Some (JNum 852, JNum 1477)
  ∧ pair_of (getFrequenciesForKey p "0") = Some (JNum 941, JNum 1336)
  ∧ pair_of (getFrequenciesForKey p "8") = Some (JNum 852, JNum 1336).
Proof.
  split; [| split].
  - unfold dtmfKeys. repeat apply Forall_cons_2; [ .. | apply Forall_nil_2 ];
      destruct p; do 2 eexists;
      (split; [vm_compute; reflexivity |]);
      (split; [in_list |]); (split; [unfold keypadColumns; in_list |]);
      vm_compute; reflexivity.
  - destruct p; apply (bool_decide_unpack _); vm_compute; exact I.
  - destruct p; vm_compute; auto.
Qed.

(** C1, counterexample: [0] does not share the high frequency of the
    column of [9]; it sounds 1336 Hz where [9] sounds 1477 Hz. *)
Lemma dtmf_zero_not_in_column_of_nine :
  ∃ s0 s9, getFrequenciesForKey us "0" = Some s0
           ∧ getFrequenciesForKey us "9" = Some s9
           ∧ b s0 = JNum 1336 ∧ b s9 = JNum 1477 ∧ b s0 ≠ b s9.
Proof. do 2 eexists. vm_compute. repeat split; try reflexivity. discriminate. Qed.

(** C2: [*] is the dial tone, 350 Hz + 440 Hz under [us] and 400 Hz alone
    under [jp], continuous in both and different from one another; [/] is
    the fast busy tone 480 Hz + 620 Hz with cadence 250 ms / 250 ms under
    either preset. *)
Theorem dial_and_busy_lookup :
  getFrequenciesForKey us "*" =
    Some {| a := JNum 350; b := JNum 440; isContinuous := true; cadence := None |}
  ∧ getFrequenciesForKey jp "*" =
    Some {| a := JNum 400; b := JNull; isContinuous := true; cadence := None |}
  ∧ getFrequenciesForKey us "*" ≠ getFrequenciesForKey jp "*"
  ∧ ∀ p, getFrequenciesForKey p "/" =
      Some {| a := JNum 480; b := JNum 620; isContinuous := false;
              cadence := Some {| onMs := 250; offMs := 250 |} |}.
Proof.
  repeat split; try reflexivity; try discriminate.
Qed.

(** ** Volume *)

Lemma node_set_gain_twice v i (ns : list AudioNode) :
  alter (node_set_gain v) i (alter (node_set_gain v) i ns)
  = alter (node_set_gain v) i ns.
Proof.
  rewrite list_alter_alter_eq. apply list_alter_ext; [| done].
  intros [g | o] _; reflexivity.
Qed.

(** C8, as the code has it: [setVolume(v)] stores [v] unchanged, without
    clamping, as the master volume and, once the master gain node exists,
    as its gain; no other node (in particular no tone gate) and no other
    variable of the page changes, and a second call with the same value
    changes nothing more. *)
Theorem setVolume_stores (v : Q) (w : World) :
  masterVolume (engine (setVolume v w)) = v
  ∧ (∀ mg, masterGain (engine w) = Some mg →
       nodes (setVolume v w) = alter (node_set_gain v) mg (nodes w))
  ∧ (masterGain (engine w) = None → nodes (setVolume v w) = nodes w)
  ∧ (∀ i, masterGain (engine w) ≠ Some i →
       nodes (setVolume v w) !! i = nodes w !! i)
  ∧ setVolume v w =
      set_engine (set_audioContext (audioContext (engine (setVolume v w)))
                    (set_masterVolume v (engine w))) w
  ∧ setVolume v (setVolume v w) = setVolume v w.
Proof.
  destruct w as [[ctx mg tg oa ob ck st mv cid dp] md ad gp sq sb sp pk nw ni ts u pl].
  unfold setVolume, on_node, on_engine, nodes; simpl.
  destruct mg as [mg |], ctx as [[cst ns] |]; simpl;
    repeat split; try done; try (intros ? [= <-]; done).
  - intros i Hi. apply list_lookup_alter_ne. congruence.
  - by rewrite node_set_gain_twice.
Qed.

(** Witness for [setVolume_stores]: half volume on a page whose context
    exists. *)
Lemma setVolume_stores_witness :
  nodes (setVolume (1 # 2) (ensureContext (initWorld 120 40)))
  = [NGain {| gain_value := 1 # 2; gain_out := Some Destination |}].
Proof.
  destruct (setVolume_stores (1 # 2) (ensureContext (initWorld 120 40)))
    as (_ & H & _).
  exact (H 0%nat eq_refl).
Defined.

(** C8, counterexample: a volume of 2 is stored and applied as 2, which
    is neither in [0,1] nor the clamped value. *)
Lemma setVolume_does_not_clamp :
  let w := setVolume 2 (ensureContext (initWorld 120 40)) in
  masterVolume (engine w) = 2%Q
  ∧ nodes w = [NGain {| gain_value := 2; gain_out := Some Destination |}]
  ∧ ¬ (masterVolume (engine w) <= 1)%Q
  ∧ ¬ (masterVolume (engine w) == clamp01 2)%Q.
Proof.
  cbv zeta. split; [reflexivity |]. split; [reflexivity |].
  split; intros H; vm_compute in H; by try apply H.
Qed.

(** ** Stopping a tone *)

Lemma alter_keeps (P : AudioNode → Prop) f j (l : list AudioNode) i :
  (∀ n, P n → P (f n)) →
  (∀ n, l !! i = Some n → P n) →
  ∀ n, alter f j l !! i = Some n → P n.
Proof.
  intros Hf Hl n. rewrite list_lookup_alter. case_decide; subst.
  - destruct (l !! i) as [m |] eqn:E; intros [= <-]. by apply Hf, Hl.
  - apply Hl.
Qed.

Lemma alter_makes (P : AudioNode → Prop) f (l : list AudioNode) i :
  (∀ n, P (f n)) → ∀ n, alter f i l !! i = Some n → P n.
Proof.
  intros Hf n. rewrite list_lookup_alter_eq.
  destruct (l !! i); intros [= <-]. apply Hf.
Qed.

Lemma alter2_makes (P : AudioNode → Prop) f g (l : list AudioNode) i :
  (∀ n, P (f (g n))) → ∀ n, alter f i (alter g i l) !! i = Some n → P n.
Proof. intros Hf. rewrite list_alter_alter_eq. by apply alter_makes. Qed.

Lemma stop_then_disconnect_released n : released (node_disconnect (node_stop n)).
Proof. by destruct n as [g | [f [] [] o]]. Qed.

Lemma node_stop_released n : released n → released (node_stop n).
Proof. destruct n as [g | [f [] [] o]]; unfold released; simpl; intuition. Qed.

Lemma node_disconnect_released n : released n → released (node_disconnect n).
Proof. destruct n as [g | [f [] [] o]]; unfold released; simpl; intuition. Qed.

Lemma node_disconnect_unplugged n : unplugged (node_disconnect n).
Proof. by destruct n. Qed.

Lemma node_stop_dead n : dead n → dead (node_stop n).
Proof. by destruct n as [g | [f [] [] o]]. Qed.

Lemma node_disconnect_dead n : dead n → dead (node_disconnect n).
Proof. by destruct n as [g | [f [] [] o]]. Qed.

Lemma stop_then_disconnect_dead n : dead (node_disconnect (node_stop n)).
Proof. by destruct n as [g | [f [] [] o]]. Qed.

Create HintDb teardown.

#[local] Hint Resolve node_stop_released node_disconnect_released
  node_disconnect_unplugged stop_then_disconnect_released
  node_stop_dead node_disconnect_dead stop_then_disconnect_dead : teardown.

(** The pending timers of [w] other than [id] are those of
    [clearTimeout id w]. *)
Lemma cleared_not_pending id (ts : list Timer) :
  head (filter (λ t, tm_id t = id) (filter (λ t, tm_id t ≠ id) ts)) = None.
Proof.
  induction ts as [| t ts IH]; [done |].
  rewrite filter_cons. case_decide; [| done].
  rewrite filter_cons. by rewrite decide_False.
Qed.

Lemma pendingTimer_clearTimeout id w : pendingTimer id (clearTimeout id w) = None.
Proof. apply cleared_not_pending. Qed.

(** Follows a node through the [alter]s of a teardown. *)
Ltac through_alters :=
  repeat first
    [ apply alter2_makes; solve [auto with teardown]
    | apply alter_makes; solve [auto with teardown]
    | apply alter_keeps; [solve [auto with teardown] |] ].

(** Breaks a page into its variables, and the engine into its fields. *)
Ltac destruct_world w :=
  let e := fresh "e" in
  destruct w as [e ?md ?ad ?gp ?sq ?sb ?sp ?pk ?nw ?ni ?ts ?u ?pl];
  destruct e as [?ctx ?mg ?tg ?oa ?ob ?ck ?st ?mv ?cid ?dp].

(** Runs the assignments of the engine methods on a page given field by
    field, by value, leaving the list operations folded. *)
Ltac run_page :=
  cbv [ engine mode autoDurationMs gapMs seqTimer seqBuffer isSeqPlaying
        pressedKeys now nextTimerId timers ui seqPlayed
        audioContext masterGain toneGain oscA oscB currentKey isStarted
        masterVolume cadenceTimeoutId dialPreset ctx_state ctx_nodes
        set_engine set_mode set_autoDurationMs set_gapMs set_seqTimer
        set_seqBuffer set_isSeqPlaying set_pressedKeys set_now
        set_nextTimerId set_timers set_ui set_seqPlayed
        set_audioContext set_masterGain set_toneGain set_oscA set_oscB
        set_currentKey set_isStarted set_masterVolume set_cadenceTimeoutId
        set_dialPreset
        on_engine on_node createNode nodes setTimeout clearTimeout
        logUi setStatus setCurrentKey setCurrentKeyDash appendLog
        stopTone ensureContext toggle wireTone setVolume setDialPreset
        engine_only alter_at teardown_nodes
        a b isContinuous cadence onMs offMs truthy
        negb fst snd ].

Lemma stopTone_off w : isStarted (engine (stopTone w)) = false.
Proof.
  destruct_world w. destruct st; [| done].
  destruct cid, oa, ob, tg, ctx as [[cst ns] |]; run_page; reflexivity.
Qed.


(** ** The invariant of the page *)

Lemma Inv_init d g : Inv (initWorld d g).
Proof.
  constructor; simpl; try done.
  - intros t Ht. by apply elem_of_nil in Ht.
  - intros t Ht. by apply elem_of_nil in Ht.
  - constructor.
Qed.

Lemma Inv_same_core w w' : same_core w w' → Inv w → Inv w'.
Proof.
  intros (Hst & Hck & Hcid & Hoa & Hob & Htg & Hmg & Hctx & Hts & Hni & Hsq & Hlen & Hns) H.
  destruct H as [H1 H2 H3 H4 H5 H6 H7 H8 H9 H10].
  constructor; rewrite ?Hst, ?Hck, ?Hcid, ?Hoa, ?Hob, ?Htg, ?Hmg, ?Hts, ?Hni, ?Hsq;
    try assumption.
  - intros i n' Hi Halive.
    assert (is_Some (nodes w !! i)) as [n Hn].
    { apply lookup_lt_is_Some. rewrite <- Hlen. by apply lookup_lt_Some in Hi. }
    destruct (Hns i n Hn) as (n'' & Hi' & Ha & Ho & _).
    rewrite Hi in Hi'; injection Hi' as <-.
    rewrite Hst, Hoa, Hob, Htg, Ho. apply (H8 i n Hn). congruence.
  - rewrite Hctx. exact H9.
  - intros Hs. destruct (H10 Hs) as (Hc & g & gn & Hg & Hn & Ho).
    split; [by rewrite Hctx |].
    destruct (Hns g _ Hn) as (n' & Hn' & _ & Ho' & Hk).
    destruct (Hk gn eq_refl) as [gn' ->]. exists g, gn'. simpl in Ho'.
    repeat split; congruence.
Qed.

(** Closes [same_core] goals once the page is given field by field. *)
Ltac solve_same_core :=
  unfold same_core, nodes; simpl; repeat split; try done;
  let n := fresh "n" in intros ? n ?; exists n; eauto.

Lemma same_core_eq w w' :
  engine w' = engine w → timers w' = timers w →
  nextTimerId w' = nextTimerId w → seqTimer w' = seqTimer w → same_core w w'.
Proof.
  intros He Hts Hni Hsq. unfold same_core, nodes. rewrite He, Hts, Hni, Hsq.
  repeat split; try done. intros i n Hn. exists n. eauto.
Qed.

Lemma same_core_trans w1 w2 w3 : same_core w1 w2 → same_core w2 w3 → same_core w1 w3.
Proof.
  intros (A1 & A2 & A3 & A4 & A5 & A6 & A7 & A8 & A9 & A10 & A11 & A12 & A13)
         (B1 & B2 & B3 & B4 & B5 & B6 & B7 & B8 & B9 & B10 & B11 & B12 & B13).
  repeat split; try congruence; try tauto.
  intros i n Hn. destruct (A13 i n Hn) as (n2 & Hn2 & Ha & Ho & Hk).
  destruct (B13 i n2 Hn2) as (n3 & Hn3 & Ha' & Ho' & Hk').
  exists n3. repeat split; try congruence.
  intros gn ->. destruct (Hk gn eq_refl) as [gn2 ->]. eauto.
Qed.

(** Setting a gain neither starts, stops, rewires nor retypes a node. *)
Lemma same_core_set_gain v i w : same_core w (on_node (node_set_gain v) i w).
Proof.
  destruct_world w. destruct ctx as [[cst ns] |]; [| by apply same_core_eq].
  unfold same_core, on_node, on_engine, nodes; simpl.
  repeat split; try done.
  - by rewrite length_alter.
  - intros j n Hn. rewrite list_lookup_alter. case_decide; subst.
    + rewrite Hn; simpl. exists (node_set_gain v n).
      destruct n; simpl; repeat split; eauto.
    + exists n. eauto.
Qed.

Lemma Inv_logUi c w : Inv w → Inv (logUi c w).
Proof. by apply Inv_same_core, same_core_eq. Qed.

Lemma Inv_setVolume v w : Inv w → Inv (setVolume v w).
Proof.
  intros H. unfold setVolume.
  assert (H' : Inv (on_engine (set_masterVolume v) w)).
  { revert H. apply Inv_same_core. destruct_world w.
    destruct ctx; solve_same_core. }
  destruct (masterGain _); [| done].
  revert H'. apply Inv_same_core, same_core_set_gain.
Qed.

Lemma Inv_setDialPreset p w : Inv w → Inv (setDialPreset p w).
Proof.
  apply Inv_same_core. destruct_world w. destruct ctx; solve_same_core.
Qed.

(** A timer that is not a cadence toggle joins the pending ones. *)
Lemma Inv_setTimeout cb delay w :
  is_cadence cb = false → Inv w → Inv (snd (setTimeout cb delay w)).
Proof.
  intros Hcb [H1 H2 H3 H4 H5 H6 H7 H8 H9 H10].
  constructor; simpl; try assumption.
  - intros t [Ht | Ht%list_elem_of_singleton]%elem_of_app; [by apply H3 |].
    subst t; simpl. congruence.
  - intros id Hid. destruct (H4 id Hid) as (t & Ht & Hrest).
    exists t. split; [apply elem_of_app; by left | done].
  - intros t [Ht | Ht%list_elem_of_singleton]%elem_of_app.
    + specialize (H5 t Ht). lia.
    + subst t; simpl. lia.
  - rewrite fmap_app. apply NoDup_app. split; [done |]. split; [| apply NoDup_singleton].
    intros id [t [-> Ht]]%list_elem_of_fmap Hin. apply list_elem_of_singleton in Hin.
    specialize (H5 t Ht). simpl in Hin. lia.
  - intros id Hid. destruct (H7 id Hid) as [Hlt Hcbs]. split; [lia |].
    intros t [Ht | Ht%list_elem_of_singleton]%elem_of_app; [by apply Hcbs |].
    subst t; simpl. lia.
Qed.

(** The gap timer, recorded in [seqTimer]. *)
Lemma Inv_setTimeout_seq delay w :
  Inv w →
  Inv (set_seqTimer (Some (fst (setTimeout CbNext delay w)))
         (snd (setTimeout CbNext delay w))).
Proof.
  intros H. pose proof (Inv_setTimeout CbNext delay w eq_refl H) as
    [H1 H2 H3 H4 H5 H6 H7 H8 H9 H10].
  constructor; try assumption. simpl.
  intros id [= <-]. split; [lia |].
  intros t [Ht | Ht%list_elem_of_singleton]%elem_of_app.
  - pose proof (inv_fresh w H t Ht). lia.
  - by subst t.
Qed.

(** *** Timers *)

Lemma pendingTimer_Some id w t :
  pendingTimer id w = Some t → t ∈ timers w ∧ tm_id t = id.
Proof.
  unfold pendingTimer. intros Hh. apply head_Some in Hh as [l Hl].
  assert (Hin : t ∈ filter (λ t, tm_id t = id) (timers w)) by (rewrite Hl; left).
  apply list_elem_of_filter in Hin. tauto.
Qed.

Lemma NoDup_ids_unique (ts : list Timer) t t' :
  NoDup (tm_id <$> ts) → t ∈ ts → t' ∈ ts → tm_id t = tm_id t' → t = t'.
Proof.
  induction ts as [| x ts IH]; simpl; [by intros _ ?%elem_of_nil |].
  intros [Hx Hnd]%NoDup_cons [-> | Ht]%elem_of_cons [-> | Ht']%elem_of_cons Hid;
    try done; [| | by apply IH].
  - exfalso. apply Hx. rewrite Hid. by apply list_elem_of_fmap_2.
  - exfalso. apply Hx. rewrite <- Hid. by apply list_elem_of_fmap_2.
Qed.

Lemma in_pendingTimer id w t :
  NoDup (tm_id <$> timers w) → t ∈ timers w → tm_id t = id →
  pendingTimer id w = Some t.
Proof.
  intros Hnd Ht Hid. unfold pendingTimer.
  destruct (head _) as [t' |] eqn:Hh.
  - apply (pendingTimer_Some id w t') in Hh as [Ht' Hid'].
    f_equal. apply (NoDup_ids_unique (timers w)); congruence.
  - apply head_None in Hh.
    assert (Hin : t ∈ filter (λ t, tm_id t = id) (timers w))
      by by apply list_elem_of_filter.
    rewrite Hh in Hin. by apply elem_of_nil in Hin.
Qed.

(** In a page that satisfies the invariant, the pending timer recorded in
    [cadenceTimeoutId] is the one cadence toggle, and no other is. *)
Lemma pending_cadence id w t :
  Inv w → pendingTimer id w = Some t →
  is_cadence (tm_cb t) = true ↔ cadenceTimeoutId (engine w) = Some id.
Proof.
  intros H [Ht Hid]%pendingTimer_Some. split.
  - intros Hc. rewrite <- Hid. by apply (inv_cad_timer w H).
  - intros Hcid. destruct (inv_cad_pending w H id Hcid) as (t' & Ht' & Hid' & Hc).
    by rewrite (NoDup_ids_unique (timers w) t t' (inv_nodup w H) Ht Ht') by congruence.
Qed.

Lemma Inv_clearTimeout id w :
  Inv w → cadenceTimeoutId (engine w) ≠ Some id → Inv (clearTimeout id w).
Proof.
  intros [H1 H2 H3 H4 H5 H6 H7 H8 H9 H10] Hne.
  constructor; simpl; try assumption.
  - intros t [_ Ht]%list_elem_of_filter. by apply H3.
  - intros id' Hid'. destruct (H4 id' Hid') as (t & Ht & Hid & Hc).
    exists t. split; [| done]. apply list_elem_of_filter. split; [congruence | done].
  - intros t [_ Ht]%list_elem_of_filter. by apply H5.
  - apply (sublist_NoDup _ _ H6), fmap_sublist, sublist_filter.
  - intros id' Hid'. destruct (H7 id' Hid') as [Hlt Hcbs]. split; [done |].
    intros t [_ Ht]%list_elem_of_filter. by apply Hcbs.
Qed.

Lemma Inv_set_seqTimer_None w : Inv w → Inv (set_seqTimer None w).
Proof.
  intros [H1 H2 H3 H4 H5 H6 H7 H8 H9 H10]. constructor; try assumption. done.
Qed.

Lemma Inv_cancelSequencePlayback w : Inv w → Inv (cancelSequencePlayback w).
Proof.
  intros H. unfold cancelSequencePlayback.
  assert (H' : Inv match seqTimer w with
                   | Some id => set_seqTimer None (clearTimeout id w)
                   | None => w
                   end).
  { destruct (seqTimer w) as [id |] eqn:Hsq; [| done].
    apply Inv_set_seqTimer_None, Inv_clearTimeout; [done |].
    intros Hcid. destruct (inv_cad_pending w H id Hcid) as (t & Ht & Hid & Hc).
    destruct (inv_seqTimer w H id Hsq) as [_ Hcb].
    rewrite (Hcb t Ht Hid) in Hc. discriminate. }
  revert H'. by apply Inv_same_core, same_core_eq.
Qed.

(** *** Teardown *)

Lemma engine_only_refl w : engine_only w w.
Proof. by destruct w. Qed.

Lemma engine_only_trans w1 w2 w3 :
  engine_only w1 w2 → engine_only w2 w3 → engine_only w1 w3.
Proof.
  unfold engine_only. intros H12 H23. rewrite H23 at 1. rewrite H12 at 1.
  by destruct w1.
Qed.

Lemma stopTone_started w :
  isStarted (engine w) = true →
  nodes (stopTone w) = teardown_nodes (engine w) (nodes w)
  ∧ timers (stopTone w) =
      match cadenceTimeoutId (engine w) with
      | Some id => filter (λ t, tm_id t ≠ id) (timers w)
      | None => timers w
      end
  ∧ isStarted (engine (stopTone w)) = false
  ∧ currentKey (engine (stopTone w)) = None
  ∧ cadenceTimeoutId (engine (stopTone w)) = None
  ∧ oscA (engine (stopTone w)) = None
  ∧ oscB (engine (stopTone w)) = None
  ∧ toneGain (engine (stopTone w)) = None
  ∧ masterGain (engine (stopTone w)) = masterGain (engine w)
  ∧ (audioContext (engine (stopTone w)) = None ↔ audioContext (engine w) = None)
  ∧ nextTimerId (stopTone w) = nextTimerId w.
Proof.
  intros Hst. destruct_world w. simpl in Hst; subst st.
  destruct cid, oa, ob, tg, ctx as [[cst ns] |]; run_page; repeat split; done.
Qed.

Lemma stopTone_engine_only w : engine_only w (stopTone w).
Proof.
  destruct_world w. destruct st; [| done].
  destruct cid, oa, ob, tg, ctx as [[cst ns] |]; run_page; reflexivity.
Qed.

Lemma stopTone_keeps w :
  masterVolume (engine (stopTone w)) = masterVolume (engine w)
  ∧ dialPreset (engine (stopTone w)) = dialPreset (engine w).
Proof.
  destruct_world w. destruct st; [| done].
  destruct cid, oa, ob, tg, ctx as [[cst ns] |]; run_page; done.
Qed.

Lemma alter_at_length f r ns : length (alter_at f r ns) = length ns.
Proof. destruct r; simpl; [apply length_alter | done]. Qed.

Lemma teardown_length e ns : length (teardown_nodes e ns) = length ns.
Proof. unfold teardown_nodes. by rewrite !alter_at_length. Qed.

Lemma alter_at_keeps (P : AudioNode → Prop) f r (l : list AudioNode) i :
  (∀ n, P n → P (f n)) →
  (∀ n, l !! i = Some n → P n) →
  ∀ n, alter_at f r l !! i = Some n → P n.
Proof. destruct r; simpl; [apply alter_keeps | auto]. Qed.

(** After the teardown the oscillators of the engine are silent and
    disconnected. *)
Lemma teardown_releases e ns i n :
  oscA e = Some i ∨ oscB e = Some i →
  teardown_nodes e ns !! i = Some n → released n.
Proof.
  unfold teardown_nodes. intros [Hi | Hi]; rewrite ?Hi; revert n.
  - apply alter_at_keeps; [auto with teardown |].
    apply alter_at_keeps; [auto with teardown |].
    apply alter_at_keeps; [auto with teardown |].
    simpl. through_alters.
  - apply alter_at_keeps; [auto with teardown |].
    simpl. through_alters.
Qed.

(** A node that sounds after the teardown sounded before it. *)
Lemma teardown_no_new_sound e ns i n :
  teardown_nodes e ns !! i = Some n → node_alive n = true →
  ∃ n0, ns !! i = Some n0 ∧ node_alive n0 = true.
Proof.
  unfold teardown_nodes. revert n.
  set (P := λ n : AudioNode,
         node_alive n = true → ∃ n0, ns !! i = Some n0 ∧ node_alive n0 = true).
  assert (Hstop : ∀ n, P n → P (node_stop n)).
  { unfold P. intros [g | [f [] [] o]]; simpl; auto; discriminate. }
  assert (Hdis : ∀ n, P n → P (node_disconnect n)).
  { unfold P. intros [g | [f [] [] o]]; simpl; auto. }
  do 5 (apply (alter_at_keeps P); [done |]). unfold P. eauto.
Qed.

(** The gate of the engine is unplugged by the teardown. *)
Lemma teardown_unplugs e ns g n :
  toneGain e = Some g → teardown_nodes e ns !! g = Some n → unplugged n.
Proof.
  unfold teardown_nodes. intros ->. simpl. revert n. through_alters.
Qed.

(** The teardown leaves the nodes the engine holds no reference to. *)
Lemma teardown_other e ns j :
  (∀ i, toneGain e = Some i ∨ oscA e = Some i ∨ oscB e = Some i → i ≠ j) →
  teardown_nodes e ns !! j = ns !! j.
Proof.
  intros H. unfold teardown_nodes.
  destruct (toneGain e) as [g |], (oscA e) as [oa |], (oscB e) as [ob |];
    cbn [alter_at]; repeat (rewrite list_lookup_alter_ne by (apply H; auto));
    reflexivity.
Qed.

(** A call through a reference, seen from one index. *)
Lemma alter_at_lookup f r (ns : list AudioNode) i :
  alter_at f r ns !! i = if decide (r = Some i) then f <$> ns !! i else ns !! i.
Proof.
  destruct r as [j |]; cbn [alter_at]; [| by rewrite decide_False].
  rewrite list_lookup_alter. by repeat case_decide; simplify_eq.
Qed.

(** The teardown stops and disconnects the oscillators of the engine. *)
Lemma teardown_osc e ns i n :
  oscA e = Some i ∨ oscB e = Some i → ns !! i = Some n →
  teardown_nodes e ns !! i = Some (node_disconnect (node_stop n)).
Proof.
  intros Hi Hn. unfold teardown_nodes. rewrite !alter_at_lookup, Hn.
  destruct n as [gn | [f [] [] o]];
    repeat case_decide; try reflexivity; by destruct Hi.
Qed.

(** The teardown disconnects the gate of the engine and leaves its gain. *)
Lemma teardown_gate e ns g gn :
  toneGain e = Some g → ns !! g = Some (NGain gn) →
  teardown_nodes e ns !! g =
    Some (NGain {| gain_value := gain_value gn; gain_out := None |}).
Proof.
  intros Hg Hn. unfold teardown_nodes. rewrite !alter_at_lookup, Hn.
  rewrite (decide_True _ _ Hg). by repeat case_decide.
Qed.

(** The teardown leaves the state of the context. *)
Lemma stopTone_ctx_state w :
  ctx_state <$> audioContext (engine (stopTone w))
  = ctx_state <$> audioContext (engine w).
Proof.
  destruct_world w. destruct st; [| done].
  destruct cid, oa, ob, tg, ctx as [[cst ns] |]; run_page; reflexivity.
Qed.

Lemma released_teardown n : released (node_disconnect (node_stop n)).
Proof. by destruct n as [gn | [f [] [] o]]. Qed.

(** C4: [stopTone] on an engine that is not started changes nothing; on a
    started engine it cancels the pending cadence timer and no other
    timer, stops and disconnects the oscillators, disconnects the tone
    gate, leaves every other node of the context as it is, drops the
    three references and resets [currentKey] and [isStarted], and keeps
    the master gain, the volume and the dial preset; it touches nothing
    of the page but the engine and the timers; a second [stopTone] right
    after the first changes nothing. *)
Theorem stopTone_idempotent (w : World) :
  (isStarted (engine w) = false → stopTone w = w)
  ∧ (isStarted (engine w) = true →
       cadenceTimeoutId (engine (stopTone w)) = None
       ∧ (∀ id, cadenceTimeoutId (engine w) = Some id →
            pendingTimer id (stopTone w) = None
            ∧ timers (stopTone w) = filter (λ t, tm_id t ≠ id) (timers w))
       ∧ (cadenceTimeoutId (engine w) = None → timers (stopTone w) = timers w)
       ∧ nextTimerId (stopTone w) = nextTimerId w
       ∧ length (nodes (stopTone w)) = length (nodes w)
       ∧ (∀ i n, oscA (engine w) = Some i ∨ oscB (engine w) = Some i →
            nodes w !! i = Some n →
            nodes (stopTone w) !! i = Some (node_disconnect (node_stop n))
            ∧ released (node_disconnect (node_stop n)))
       ∧ (∀ g gn, toneGain (engine w) = Some g → nodes w !! g = Some (NGain gn) →
            nodes (stopTone w) !! g =
              Some (NGain {| gain_value := gain_value gn; gain_out := None |}))
       ∧ (∀ j, oscA (engine w) ≠ Some j → oscB (engine w) ≠ Some j →
            toneGain (engine w) ≠ Some j →
            nodes (stopTone w) !! j = nodes w !! j)
       ∧ (∀ i n, oscA (engine w) = Some i ∨ oscB (engine w) = Some i →
            nodes (stopTone w) !! i = Some n → released n)
       ∧ (∀ g n, toneGain (engine w) = Some g →
            nodes (stopTone w) !! g = Some n → unplugged n)
       ∧ oscA (engine (stopTone w)) = None
       ∧ oscB (engine (stopTone w)) = None
       ∧ toneGain (engine (stopTone w)) = None
       ∧ currentKey (engine (stopTone w)) = None
       ∧ masterGain (engine (stopTone w)) = masterGain (engine w)
       ∧ (audioContext (engine (stopTone w)) = None ↔ audioContext (engine w) = None))
  ∧ ctx_state <$> audioContext (engine (stopTone w))
    = ctx_state <$> audioContext (engine w)
  ∧ masterVolume (engine (stopTone w)) = masterVolume (engine w)
  ∧ dialPreset (engine (stopTone w)) = dialPreset (engine w)
  ∧ engine_only w (stopTone w)
  ∧ isStarted (engine (stopTone w)) = false
  ∧ stopTone (stopTone w) = stopTone w.
Proof.
  pose proof (stopTone_off w) as Hoff.
  destruct (stopTone_keeps w) as [Hmv Hdp].
  split; [| split; [| split; [apply stopTone_ctx_state |
    split; [done | split; [done | split; [| split; [done |]]]]]]].
  - intros Hst. unfold stopTone. by rewrite Hst.
  - intros Hst.
    destruct (stopTone_started w Hst)
      as (Hns & Hts & _ & Hck & Hcid & Hoa & Hob & Htg & Hmg & Hctx & Hni).
    split; [done |]. split.
    { intros id Hid. rewrite Hid in Hts. split; [| done].
      unfold pendingTimer. rewrite Hts. apply cleared_not_pending. }
    split; [intros Hid; by rewrite Hid in Hts |].
    split; [done |].
    split; [by rewrite Hns, teardown_length |].
    split.
    { intros i n Hi Hn. split; [| apply released_teardown].
      rewrite Hns. by apply teardown_osc. }
    split; [intros g gn Hg Hn; rewrite Hns; by apply teardown_gate |].
    split.
    { intros j Ha Hb Hg. rewrite Hns. apply teardown_other.
      intros i [? | [? | ?]] ->; congruence. }
    split; [intros i n Hi; rewrite Hns; by eapply teardown_releases |].
    split; [intros g n Hg; rewrite Hns; by eapply teardown_unplugs |].
    done.
  - apply stopTone_engine_only.
  - unfold stopTone at 1. by rewrite Hoff.
Qed.

(** Witness for [stopTone_idempotent]: the fast busy tone played by the
    sequence, stopped. Its cadence timer goes, the two timers of the
    sequence stay; its two oscillators are stopped and disconnected, its
    gate disconnected, the master gain untouched. *)
Lemma stopTone_idempotent_witness :
  let w := run [PlaySeqClick "/"] (initWorld 120 40) in
  isStarted (engine w) = true
  ∧ cadenceTimeoutId (engine w) = Some 1%nat
  ∧ pendingTimer 1 (stopTone w) = None
  ∧ timers (stopTone w) =
      [ {| tm_id := 2; tm_due := 120; tm_cb := CbToneEnd "/" |};
        {| tm_id := 3; tm_due := 130; tm_cb := CbUnhighlight "/" |} ]
  ∧ nodes (stopTone w) !! 0%nat = nodes w !! 0%nat
  ∧ nodes (stopTone w) !! 1%nat = Some (NGain {| gain_value := 1; gain_out := None |})
  ∧ nodes (stopTone w) !! 2%nat =
      Some (NOsc {| osc_frequency := 480; osc_started := true; osc_stopped := true;
                    osc_out := None |})
  ∧ nodes (stopTone w) !! 3%nat =
      Some (NOsc {| osc_frequency := 620; osc_started := true; osc_stopped := true;
                    osc_out := None |})
  ∧ currentKey (engine (stopTone w)) = None.
Proof.
  set (w := run [PlaySeqClick "/"] (initWorld 120 40)).
  assert (Hst : isStarted (engine w) = true) by reflexivity.
  assert (Hcid : cadenceTimeoutId (engine w) = Some 1%nat) by reflexivity.
  split; [exact Hst |]. split; [exact Hcid |].
  destruct (stopTone_idempotent w) as (_ & H & _).
  destruct (H Hst)
    as (_ & Hp & _ & _ & _ & Hosc & Hgate & Hother & _ & _ & _ & _ & _ & Hk & _).
  destruct (Hp 1%nat Hcid) as [Hp1 Hts].
  split; [exact Hp1 |].
  split; [rewrite Hts; reflexivity |].
  split; [apply Hother; discriminate |].
  split; [exact (Hgate 1%nat {| gain_value := 1; gain_out := Some (ToNode 0) |}
                  eq_refl eq_refl) |].
  split; [exact (proj1 (Hosc 2%nat _ (or_introl eq_refl) eq_refl)) |].
  split; [exact (proj1 (Hosc 3%nat _ (or_intror eq_refl) eq_refl)) |].
  exact Hk.
Defined.

Lemma Inv_stopTone w : Inv w → Inv (stopTone w).
Proof.
  intros H. destruct (isStarted (engine w)) eqn:Hst;
    [| unfold stopTone; by rewrite Hst].
  destruct (stopTone_started w Hst)
    as (Hns & Hts & Hs & Hck & Hcid & Hoa & Hob & Htg & Hmg & Hctx & Hni).
  pose proof (stopTone_engine_only w) as Hfr.
  assert (Hsq : seqTimer (stopTone w) = seqTimer w) by (by rewrite Hfr).
  assert (Hsub : ∀ t, t ∈ timers (stopTone w) → t ∈ timers w).
  { intros t. rewrite Hts. destruct (cadenceTimeoutId _); [| done].
    by intros [_ ?]%list_elem_of_filter. }
  destruct H as [H1 H2 H3 H4 H5 H6 H7 H8 H9 H10].
  constructor; rewrite ?Hs, ?Hck, ?Hcid, ?Hoa, ?Hob, ?Htg, ?Hmg, ?Hni, ?Hsq; try done.
  - intros t Ht Hc. exfalso. specialize (H3 t (Hsub t Ht) Hc).
    revert Ht. rewrite Hts, H3. intros [? _]%list_elem_of_filter. done.
  - intros t Ht. by apply H5, Hsub.
  - rewrite Hts. destruct (cadenceTimeoutId _); [| done].
    apply (sublist_NoDup _ _ H6), fmap_sublist, sublist_filter.
  - intros id Hid. destruct (H7 id Hid) as [Hlt Hcb]. split; [done |].
    intros t Ht. by apply Hcb, Hsub.
  - intros i n Hn Ha. exfalso. rewrite Hns in Hn.
    destruct (teardown_no_new_sound _ _ _ _ Hn Ha) as (n0 & Hn0 & Ha0).
    destruct (H8 i n0 Hn0 Ha0) as (_ & Hi & _).
    destruct (teardown_releases _ _ _ _ Hi Hn) as [Hd _]. congruence.
  - rewrite Hctx. exact H9.
Qed.

(** A page that satisfies the invariant and is not started is silent. *)
Lemma stopped_is_silent w :
  Inv w → isStarted (engine w) = false →
  currentKey (engine w) = None ∧ cadenceTimeoutId (engine w) = None
  ∧ (∀ t, t ∈ timers w → is_cadence (tm_cb t) = false)
  ∧ ∀ i n, nodes w !! i = Some n → node_alive n = false.
Proof.
  intros H Hst. pose proof (inv_key w H Hst) as Hck.
  pose proof (inv_cad w H Hck) as Hcid. repeat split; try done.
  - intros t Ht. destruct (is_cadence (tm_cb t)) eqn:Hc; [| done].
    pose proof (inv_cad_timer w H t Ht Hc). congruence.
  - intros i n Hn. destruct (node_alive n) eqn:Ha; [| done].
    destruct (inv_alive w H i n Hn Ha). congruence.
Qed.

(** *** Creating the context *)

Lemma ensureContext_spec w :
  engine_only w (ensureContext w)
  ∧ timers (ensureContext w) = timers w
  ∧ nextTimerId (ensureContext w) = nextTimerId w
  ∧ isStarted (engine (ensureContext w)) = isStarted (engine w)
  ∧ currentKey (engine (ensureContext w)) = currentKey (engine w)
  ∧ cadenceTimeoutId (engine (ensureContext w)) = cadenceTimeoutId (engine w)
  ∧ oscA (engine (ensureContext w)) = oscA (engine w)
  ∧ oscB (engine (ensureContext w)) = oscB (engine w)
  ∧ toneGain (engine (ensureContext w)) = toneGain (engine w)
  ∧ masterVolume (engine (ensureContext w)) = masterVolume (engine w)
  ∧ dialPreset (engine (ensureContext w)) = dialPreset (engine w)
  ∧ audioContext (engine (ensureContext w)) ≠ None
  ∧ (audioContext (engine w) = None →
       masterGain (engine (ensureContext w)) = Some 0%nat
       ∧ nodes (ensureContext w) =
           [NGain {| gain_value := masterVolume (engine w);
                     gain_out := Some Destination |}])
  ∧ (audioContext (engine w) ≠ None →
       masterGain (engine (ensureContext w)) = masterGain (engine w)
       ∧ nodes (ensureContext w) = nodes w).
Proof.
  destruct_world w. destruct ctx as [[[] ns] |]; run_page; repeat split; done.
Qed.

Lemma Inv_ensureContext w : Inv w → Inv (ensureContext w).
Proof.
  intros H.
  destruct (ensureContext_spec w)
    as (Hfr & Hts & Hni & Hs & Hck & Hcid & Hoa & Hob & Htg & _ & _ & Hctx & Hnew & Hold).
  assert (Hsq : seqTimer (ensureContext w) = seqTimer w) by (by rewrite Hfr).
  destruct (audioContext (engine w)) as [c |] eqn:Hc.
  - destruct Hold as [Hmg Hns]; [done |].
    revert H. apply Inv_same_core. unfold same_core.
    rewrite Hs, Hck, Hcid, Hoa, Hob, Htg, Hmg, Hts, Hni, Hsq, Hns, Hc.
    repeat split; try done. intros i n Hn. exists n. eauto.
  - destruct Hnew as [Hmg Hns]; [done |].
    assert (Hst : isStarted (engine w) = false).
    { destruct (isStarted (engine w)) eqn:E; [| done].
      destruct (inv_gate w H E) as [Hx _]. done. }
    destruct H as [H1 H2 H3 H4 H5 H6 H7 H8 H9 H10].
    constructor; rewrite ?Hs, ?Hck, ?Hcid, ?Hoa, ?Hob, ?Htg, ?Hmg, ?Hts, ?Hni, ?Hsq;
      try done.
    + intros i n. rewrite Hns. destruct i as [| i]; simpl; [| by rewrite lookup_nil].
      by intros [= <-].
    + rewrite Hst. done.
Qed.

(** *** Wiring a tone *)

Lemma alter_snoc0 (f : AudioNode → AudioNode) (l : list AudioNode) x r :
  alter f (length l) (l ++ x :: r) = l ++ f x :: r.
Proof. induction l; simpl; [done | by f_equal]. Qed.

Lemma alter_snoc1 (f : AudioNode → AudioNode) (l : list AudioNode) x y r :
  alter f (S (length l)) (l ++ x :: y :: r) = l ++ x :: f y :: r.
Proof. induction l; simpl; [done | by f_equal]. Qed.

Lemma alter_snoc2 (f : AudioNode → AudioNode) (l : list AudioNode) x y z r :
  alter f (S (S (length l))) (l ++ x :: y :: z :: r) = l ++ x :: y :: f z :: r.
Proof. induction l; simpl; [done | by f_equal]. Qed.

(** Brings the node list of a freshly wired tone to the form
    [old ++ new]. *)
Ltac norm_nodes :=
  repeat first
    [ rewrite alter_snoc0 | rewrite alter_snoc1 | rewrite alter_snoc2
    | rewrite <- app_assoc; simpl app
    | rewrite length_app; simpl length; rewrite ?Nat.add_1_r, ?Nat.add_succ_r, ?Nat.add_0_r ].

Lemma wireTone_normal key spec mg w fa :
  audioContext (engine w) ≠ None →
  a spec = JNum fa →
  (b spec = JNull ∨ ∃ fb, b spec = JNum fb ∧ fb ≠ 0) →
  let g := length (nodes w) in
  let w' := snd (wireTone key spec mg w) in
  fst (wireTone key spec mg w) = Normal
  ∧ engine_only w w'
  ∧ nodes w' = nodes w ++ toneNodes mg g fa (b spec)
  ∧ toneGain (engine w') = Some g
  ∧ oscA (engine w') = Some (S g)
  ∧ oscB (engine w') =
      match b spec with JNum _ => Some (S (S g)) | _ => oscB (engine w) end
  ∧ currentKey (engine w') = Some key
  ∧ isStarted (engine w') = true
  ∧ masterGain (engine w') = masterGain (engine w)
  ∧ masterVolume (engine w') = masterVolume (engine w)
  ∧ dialPreset (engine w') = dialPreset (engine w)
  ∧ audioContext (engine w') ≠ None
  ∧ cadenceTimeoutId (engine w') =
      match cadence spec with
      | Some _ => Some (nextTimerId w)
      | None => cadenceTimeoutId (engine w)
      end
  ∧ timers w' = timers w ++
      match cadence spec with Some c => [firstCadenceTimer c w] | None => [] end
  ∧ nextTimerId w' =
      match cadence spec with Some _ => S (nextTimerId w) | None => nextTimerId w end.
Proof.
  intros Hctx Ha Hb. destruct_world w.
  destruct ctx as [[cst ns] |]; [clear Hctx | done].
  destruct spec as [va vb cont cad]; simpl in Ha, Hb; subst va.
  unfold toneNodes, firstCadenceTimer.
  destruct Hb as [-> | (fb & -> & Hfb)].
  - destruct cad as [[on off] |]; run_page; norm_nodes; repeat split;
      by rewrite ?app_nil_r.
  - apply Z.eqb_neq in Hfb.
    destruct cad as [[on off] |]; run_page; rewrite Hfb; run_page;
      norm_nodes; repeat split; by rewrite ?app_nil_r.
Qed.

Lemma wireTone_threw key spec mg w :
  audioContext (engine w) ≠ None →
  (∀ fa, a spec ≠ JNum fa) →
  let g := length (nodes w) in
  let w' := snd (wireTone key spec mg w) in
  fst (wireTone key spec mg w) = Threw
  ∧ engine_only w w'
  ∧ nodes w' = nodes w ++
      [NGain {| gain_value := 1; gain_out := Some (ToNode mg) |}; newOscillator]
  ∧ toneGain (engine w') = Some g
  ∧ oscA (engine w') = Some (S g)
  ∧ oscB (engine w') = oscB (engine w)
  ∧ currentKey (engine w') = currentKey (engine w)
  ∧ isStarted (engine w') = isStarted (engine w)
  ∧ masterGain (engine w') = masterGain (engine w)
  ∧ masterVolume (engine w') = masterVolume (engine w)
  ∧ dialPreset (engine w') = dialPreset (engine w)
  ∧ audioContext (engine w') ≠ None
  ∧ cadenceTimeoutId (engine w') = cadenceTimeoutId (engine w)
  ∧ timers w' = timers w
  ∧ nextTimerId w' = nextTimerId w.
Proof.
  intros Hctx Ha. destruct_world w.
  destruct ctx as [[cst ns] |]; [clear Hctx | done].
  destruct spec as [va vb cont cad]; simpl in Ha.
  destruct va as [| | fa | name]; [| | by destruct (Ha fa) |];
    run_page; norm_nodes; repeat split; done.
Qed.

(** The shape of a lookup result: a key of the keypad has numeric
    frequencies; any other string that gets a result inherits it. *)
Lemma lookup_shape p key spec :
  getFrequenciesForKey p key = Some spec →
  (∃ fa, a spec = JNum fa ∧ (b spec = JNull ∨ ∃ fb, b spec = JNum fb ∧ fb ≠ 0))
  ∨ (∀ fa, a spec ≠ JNum fa).
Proof.
  intros Hl. destruct (decide (key ∈ validKeys)) as [Hin | Hout].
  - left. destruct (lookup_valid p key Hin) as (fa & vb & c & ct & Hs & Hb).
    rewrite Hs in Hl. injection Hl as <-. eauto.
  - right. intros fa Ha. destruct (tables_miss key Hout) as [Hlow Hhigh].
    assert (key ≠ "*" ∧ key ≠ "/") as [H1 H2].
    { split; intros ->; apply Hout; apply validKeys_spec; in_list. }
    revert Hl. unfold getFrequenciesForKey, getProp.
    rewrite !decide_False by done. rewrite Hlow, Hhigh.
    case_bool_decide; simpl; [| done]. intros [= <-]. done.
Qed.

Lemma Inv_wireTone key spec mg w p :
  getFrequenciesForKey p key = Some spec →
  Inv w → isStarted (engine w) = false →
  audioContext (engine w) ≠ None → masterGain (engine w) = Some mg →
  Inv (snd (wireTone key spec mg w)).
Proof.
  intros Hl H Hst Hctx Hmg.
  destruct (stopped_is_silent w H Hst) as (Hck & Hcid & Hnocad & Hdead).
  destruct (lookup_shape p key spec Hl) as [(fa & Ha & Hb) | Ha].
  - destruct (wireTone_normal key spec mg w fa Hctx Ha Hb)
      as (_ & Hfr & Hns & Htg & Hoa & Hob & Hck' & Hs' & Hmg' & _ & _ & Hctx' & Hcid' & Hts & Hni).
    assert (Hsq : seqTimer (snd (wireTone key spec mg w)) = seqTimer w)
      by (by rewrite Hfr).
    destruct H as [H1 H2 H3 H4 H5 H6 H7 H8 H9 H10].
    constructor; rewrite ?Hs', ?Hck', ?Hcid', ?Hoa, ?Htg, ?Hmg', ?Hni, ?Hsq, ?Hts;
      try done.
    + intros t [Ht | Ht]%elem_of_app; [by rewrite Hnocad |].
      destruct (cadence spec); [| by apply elem_of_nil in Ht].
      apply list_elem_of_singleton in Ht. by subst t.
    + intros id. destruct (cadence spec) as [c |]; [| by rewrite Hcid].
      intros [= <-]. exists (firstCadenceTimer c w).
      split; [apply elem_of_app; right; left | done].
    + intros t [Ht | Ht]%elem_of_app.
      * specialize (H5 t Ht). destruct (cadence spec); lia.
      * destruct (cadence spec); [| by apply elem_of_nil in Ht].
        apply list_elem_of_singleton in Ht. subst t; simpl. lia.
    + rewrite fmap_app. apply NoDup_app. split; [done |].
      destruct (cadence spec); simpl; (split; [| try apply NoDup_singleton; try constructor]);
        [| intros ? _ ?%elem_of_nil; done].
      intros id [t [-> Ht]]%list_elem_of_fmap Hin%list_elem_of_singleton.
      specialize (H5 t Ht). lia.
    + intros id Hid. destruct (H7 id Hid) as [Hlt Hcb]. split.
      { destruct (cadence spec); lia. }
      intros t [Ht | Ht]%elem_of_app; [by apply Hcb |].
      destruct (cadence spec); [| by apply elem_of_nil in Ht].
      apply list_elem_of_singleton in Ht. subst t; simpl. lia.
    + intros i n. rewrite Hns, Hs', Hoa, Hob, Htg.
      intros [Hi | [Hge Hi]]%lookup_app_Some Halive.
      { rewrite (Hdead i n Hi) in Halive. done. }
      remember (i - length (nodes w))%nat as k eqn:Hk.
      assert (i = (length (nodes w) + k)%nat) as -> by lia. clear Hk Hge.
      unfold toneNodes in Hi.
      destruct k as [| [| [| k]]]; simpl in Hi.
      * injection Hi as <-. done.
      * injection Hi as <-. rewrite Nat.add_1_r. eauto 10.
      * destruct (b spec); try done. injection Hi as <-.
        replace (length (nodes w) + 2)%nat with (S (S (length (nodes w)))) by lia.
        eauto 10.
      * destruct (b spec); done.
    + intros _. by rewrite Hmg.
    + intros _. split; [done |]. do 2 eexists. split; [done |].
      rewrite Hns. rewrite lookup_app_r by done. rewrite Nat.sub_diag.
      split; [reflexivity | done].
  - destruct (wireTone_threw key spec mg w Hctx Ha)
      as (_ & Hfr & Hns & Htg & Hoa & Hob & Hck' & Hs' & Hmg' & _ & _ & Hctx' & Hcid' & Hts & Hni).
    assert (Hsq : seqTimer (snd (wireTone key spec mg w)) = seqTimer w)
      by (by rewrite Hfr).
    destruct H as [H1 H2 H3 H4 H5 H6 H7 H8 H9 H10].
    constructor; rewrite ?Hs', ?Hck', ?Hcid', ?Hmg', ?Hni, ?Hsq, ?Hts; try done.
    + intros i n. rewrite Hns.
      intros [Hi | [Hge Hi]]%lookup_app_Some Halive.
      { rewrite (Hdead i n Hi) in Halive. done. }
      destruct (i - length (nodes w))%nat as [| [| k]]; simpl in Hi;
        [injection Hi as <- | injection Hi as <- |]; done.
    + intros _. by rewrite Hmg.
    + by rewrite Hst.
Qed.

Lemma Inv_startToneForKey key w : Inv w → Inv (snd (startToneForKey key w)).
Proof.
  intros H. unfold startToneForKey.
  destruct (getFrequenciesForKey _ key) as [spec |] eqn:Hl; [| done].
  pose proof (Inv_ensureContext w H) as H1.
  destruct (ensureContext_spec w) as (_ & _ & _ & _ & _ & _ & _ & _ & _ & _ & _ & Hctx & _).
  destruct (audioContext (engine (ensureContext w))) as [c |] eqn:Hc; [| done].
  destruct (masterGain (engine (ensureContext w))) as [mg |] eqn:Hmg; [| done].
  pose proof (Inv_stopTone _ H1) as H2.
  apply (Inv_wireTone key spec mg _ _ Hl H2 (stopTone_off _)).
  - destruct (isStarted (engine (ensureContext w))) eqn:Hst.
    + destruct (stopTone_started _ Hst) as (_ & _ & _ & _ & _ & _ & _ & _ & _ & Hx & _).
      rewrite Hx, Hc. done.
    + unfold stopTone. rewrite Hst; simpl. by rewrite Hc.
  - destruct (isStarted (engine (ensureContext w))) eqn:Hst.
    + destruct (stopTone_started _ Hst) as (_ & _ & _ & _ & _ & _ & _ & _ & Hx & _).
      by rewrite Hx.
    + unfold stopTone. by rewrite Hst.
Qed.

(** *** A cadence timer fires *)

Lemma toggle_spec on off isOn w g :
  audioContext (engine w) ≠ None → toneGain (engine w) = Some g →
  let w' := toggle on off isOn w in
  engine_only w w'
  ∧ nodes w' = alter (node_set_gain (if isOn then 1%Q else 0%Q)) g (nodes w)
  ∧ timers w' = timers w ++ [nextCadenceTimer on off isOn w]
  ∧ nextTimerId w' = S (nextTimerId w)
  ∧ cadenceTimeoutId (engine w') = Some (nextTimerId w)
  ∧ isStarted (engine w') = isStarted (engine w)
  ∧ currentKey (engine w') = currentKey (engine w)
  ∧ oscA (engine w') = oscA (engine w)
  ∧ oscB (engine w') = oscB (engine w)
  ∧ toneGain (engine w') = Some g
  ∧ masterGain (engine w') = masterGain (engine w)
  ∧ masterVolume (engine w') = masterVolume (engine w)
  ∧ dialPreset (engine w') = dialPreset (engine w)
  ∧ audioContext (engine w') ≠ None.
Proof.
  intros Hctx Htg. destruct_world w. simpl in Htg; subst tg.
  destruct ctx as [[cst ns] |]; [clear Hctx | done].
  unfold nextCadenceTimer. run_page. repeat split; done.
Qed.

(** [toggle] as it runs from its own timer [id], which has just left the
    pending list. *)
Lemma Inv_toggle_fired id t w :
  Inv w → pendingTimer id w = Some t → is_cadence (tm_cb t) = true →
  ∀ on off isOn, Inv (toggle on off isOn (clearTimeout id w)).
Proof.
  intros H Hp Hc on off isOn.
  pose proof (proj1 (pending_cadence id w t H Hp) Hc) as Hcid.
  assert (Hck : currentKey (engine w) ≠ None).
  { intros Hx. rewrite (inv_cad w H Hx) in Hcid. done. }
  assert (Hst : isStarted (engine w) = true).
  { destruct (isStarted (engine w)) eqn:E; [done |]. by destruct Hck; apply (inv_key w H). }
  destruct (inv_gate w H Hst) as (Hctx & g & gn & Htg & Hg & Hout).
  destruct (toggle_spec on off isOn (clearTimeout id w) g Hctx Htg)
    as (Hfr & Hns & Hts & Hni & Hcid' & Hs' & Hck' & Hoa & Hob & Htg' & Hmg & _ & _ & Hctx').
  assert (Hsq : seqTimer (toggle on off isOn (clearTimeout id w)) = seqTimer w)
    by (by rewrite Hfr).
  change (nodes (clearTimeout id w)) with (nodes w) in Hns.
  change (nextTimerId (clearTimeout id w)) with (nextTimerId w) in *.
  change (timers (clearTimeout id w))
    with (filter (λ t, tm_id t ≠ id) (timers w)) in Hts.
  change (engine (clearTimeout id w)) with (engine w) in *.
  destruct H as [H1 H2 H3 H4 H5 H6 H7 H8 H9 H10].
  constructor;
    rewrite ?Hs', ?Hck', ?Hcid', ?Hoa, ?Hob, ?Htg', ?Hmg, ?Hni, ?Hsq, ?Hts, ?Hns;
    try done.
  - intros t0 [Ht0 | Ht0%list_elem_of_singleton]%elem_of_app Hc0; [| by subst t0].
    apply list_elem_of_filter in Ht0 as [Hne Ht0]. specialize (H3 t0 Ht0 Hc0). congruence.
  - intros id' [= <-]. eexists. split; [apply elem_of_app; right; left |]. done.
  - intros t0 [Ht0 | Ht0%list_elem_of_singleton]%elem_of_app.
    + apply list_elem_of_filter in Ht0 as [_ Ht0]. specialize (H5 t0 Ht0). lia.
    + subst t0; simpl. lia.
  - rewrite fmap_app. apply NoDup_app. split; [| split; [| apply NoDup_singleton]].
    + apply (sublist_NoDup _ _ H6), fmap_sublist, sublist_filter.
    + intros id' [t0 [-> Ht0]]%list_elem_of_fmap Hin%list_elem_of_singleton.
      apply list_elem_of_filter in Ht0 as [_ Ht0]. specialize (H5 t0 Ht0).
      simpl in Hin. lia.
  - intros id' Hid'. destruct (H7 id' Hid') as [Hlt Hcb]. split; [lia |].
    intros t0 [Ht0 | Ht0%list_elem_of_singleton]%elem_of_app.
    + apply list_elem_of_filter in Ht0 as [_ Ht0]. by apply Hcb.
    + subst t0; simpl. lia.
  - intros i n. rewrite Hns, Hs', Hoa, Hob, Htg'. intros Hn Ha.
    rewrite list_lookup_alter in Hn. case_decide; [subst i |].
    + rewrite Hg in Hn. simpl in Hn. by injection Hn as <-.
    + rewrite <- Htg. by apply H8.
  - intros _. by apply H9.
  - intros _. split; [done |]. exists g. eexists. split; [done |].
    rewrite list_lookup_alter_eq, Hg. split; [reflexivity | done].
Qed.

(** *** Every handler keeps the invariant *)

#[local] Arguments setTimeout : simpl never.
#[local] Arguments clearTimeout : simpl never.
#[local] Arguments startToneForKey : simpl never.
#[local] Arguments stopTone : simpl never.
#[local] Arguments toggle : simpl never.
#[local] Arguments logUi : simpl never.
#[local] Arguments setStatus : simpl never.
#[local] Arguments setCurrentKey : simpl never.
#[local] Arguments setCurrentKeyDash : simpl never.
#[local] Arguments appendLog : simpl never.
#[local] Arguments cancelSequencePlayback : simpl never.
#[local] Arguments triggerKeyDown : simpl never.
#[local] Arguments triggerKeyUp : simpl never.
#[local] Arguments fire : simpl never.
#[local] Arguments startSequencePlaybackFromText : simpl never.
#[local] Arguments setVolume : simpl never.
#[local] Arguments setDialPreset : simpl never.

Lemma Inv_frame w w' :
  engine w' = engine w → timers w' = timers w →
  nextTimerId w' = nextTimerId w → seqTimer w' = seqTimer w → Inv w → Inv w'.
Proof. intros ? ? ? ?. by apply Inv_same_core, same_core_eq. Qed.

Lemma Inv_set_mode v w : Inv w → Inv (set_mode v w).
Proof. by apply Inv_frame. Qed.

Lemma Inv_set_autoDurationMs v w : Inv w → Inv (set_autoDurationMs v w).
Proof. by apply Inv_frame. Qed.

Lemma Inv_set_gapMs v w : Inv w → Inv (set_gapMs v w).
Proof. by apply Inv_frame. Qed.

Lemma Inv_set_seqBuffer v w : Inv w → Inv (set_seqBuffer v w).
Proof. by apply Inv_frame. Qed.

Lemma Inv_set_isSeqPlaying v w : Inv w → Inv (set_isSeqPlaying v w).
Proof. by apply Inv_frame. Qed.

Lemma Inv_set_pressedKeys v w : Inv w → Inv (set_pressedKeys v w).
Proof. by apply Inv_frame. Qed.

Lemma Inv_set_now v w : Inv w → Inv (set_now v w).
Proof. by apply Inv_frame. Qed.

Lemma Inv_set_ui v w : Inv w → Inv (set_ui v w).
Proof. by apply Inv_frame. Qed.

Lemma Inv_set_seqPlayed v w : Inv w → Inv (set_seqPlayed v w).
Proof. by apply Inv_frame. Qed.

Lemma Inv_setStatus v w : Inv w → Inv (setStatus v w).
Proof. by apply Inv_frame. Qed.

Lemma Inv_setCurrentKey v w : Inv w → Inv (setCurrentKey v w).
Proof. by apply Inv_frame. Qed.

Lemma Inv_appendLog v w : Inv w → Inv (appendLog v w).
Proof. by apply Inv_frame. Qed.

Lemma Inv_setCurrentKeyDash w : Inv w → Inv (setCurrentKeyDash w).
Proof. by apply Inv_frame. Qed.

(** Assignments to variables the invariant does not read. *)
Ltac inv_frame :=
  repeat lazymatch goal with
  | |- Inv (set_mode _ _) => apply Inv_set_mode
  | |- Inv (set_autoDurationMs _ _) => apply Inv_set_autoDurationMs
  | |- Inv (set_gapMs _ _) => apply Inv_set_gapMs
  | |- Inv (set_seqBuffer _ _) => apply Inv_set_seqBuffer
  | |- Inv (set_isSeqPlaying _ _) => apply Inv_set_isSeqPlaying
  | |- Inv (set_pressedKeys _ _) => apply Inv_set_pressedKeys
  | |- Inv (set_now _ _) => apply Inv_set_now
  | |- Inv (set_ui _ _) => apply Inv_set_ui
  | |- Inv (set_seqPlayed _ _) => apply Inv_set_seqPlayed
  | |- Inv (setStatus _ _) => apply Inv_setStatus
  | |- Inv (setCurrentKey _ _) => apply Inv_setCurrentKey
  | |- Inv (appendLog _ _) => apply Inv_appendLog
  | |- Inv (setCurrentKeyDash _) => apply Inv_setCurrentKeyDash
  | |- Inv (logUi _ _) => apply Inv_logUi
  end.

Lemma Inv_scheduleNextFrom buf w : Inv w → Inv (scheduleNextFrom buf w).
Proof.
  revert w. induction buf as [| k rest IH]; intros w H; cbn [scheduleNextFrom].
  - destruct (isSeqPlaying w); cbn [negb]; [| done]. by inv_frame.
  - destruct (isSeqPlaying w); cbn [negb]; [| done].
    assert (Hrest : Inv (set_seqBuffer rest w)) by by inv_frame.
    destruct (decide (k = "")); [by apply IH |].
    destruct (bool_decide _); cbn [negb]; [| by apply IH].
    lazymatch goal with |- context [startToneForKey k ?w0] => set (wa := w0) end.
    assert (Hwa : Inv wa) by (subst wa; by inv_frame).
    pose proof (Inv_startToneForKey k wa Hwa) as Hw1.
    destruct (startToneForKey k wa) as [c w1].
    cbn [snd] in Hw1. destruct c; [| done].
    lazymatch goal with |- context [setTimeout (CbToneEnd k) _ ?w0] =>
      set (wb := w0) end.
    assert (Hwb : Inv wb) by (subst wb; by inv_frame).
    pose proof (Inv_setTimeout (CbToneEnd k) (autoDurationMs wb) wb eq_refl Hwb) as Hw3.
    destruct (setTimeout (CbToneEnd k) (autoDurationMs wb) wb) as [id w2].
    cbn [snd] in Hw3. by apply Inv_setTimeout.
Qed.

Lemma Inv_startSequencePlaybackFromText raw w :
  Inv w → Inv (startSequencePlaybackFromText raw w).
Proof.
  intros H. unfold startSequencePlaybackFromText.
  case_decide; [by inv_frame |].
  apply Inv_scheduleNextFrom. inv_frame.
  apply Inv_cancelSequencePlayback. by inv_frame.
Qed.

Lemma Inv_triggerKeyDown k w : Inv w → Inv (triggerKeyDown k w).
Proof.
  intros H. unfold triggerKeyDown.
  lazymatch goal with |- context [startToneForKey k ?w0] => set (wa := w0) end.
  assert (Hwa : Inv wa) by (subst wa; by inv_frame).
  pose proof (Inv_startToneForKey k wa Hwa) as Hw1.
  destruct (mode wa); [done |].
  destruct (startToneForKey k wa) as [c w1].
  simpl in Hw1. destruct c; [| done].
  apply Inv_setTimeout; [done |]. by inv_frame.
Qed.

Lemma Inv_triggerKeyUp k w : Inv w → Inv (triggerKeyUp k w).
Proof.
  intros H. unfold triggerKeyUp.
  assert (H1 : Inv (logUi (RemoveActive k) w)) by by inv_frame.
  destruct (mode _); [| done]. case_decide; [| done].
  inv_frame. by apply Inv_stopTone.
Qed.

Lemma Inv_fire id w : Inv w → Inv (fire id w).
Proof.
  intros H. unfold fire.
  destruct (pendingTimer id w) as [t |] eqn:Hp; [| done].
  case_decide; [| done].
  destruct (is_cadence (tm_cb t)) eqn:Hc.
  - pose proof (Inv_toggle_fired id t w H Hp Hc) as Ht.
    destruct (tm_cb t); try done. apply Ht.
  - assert (H1 : Inv (clearTimeout id w)).
    { apply Inv_clearTimeout; [done |]. intros Hcid.
      apply (pending_cadence id w t H Hp) in Hcid. congruence. }
    destruct (tm_cb t) as [| localK | | k | localKey]; try done;
      cbn [runCallback].
    + lazymatch goal with |- context [setTimeout CbNext _ ?w1] => set (w0 := w1) end.
      assert (H2 : Inv w0).
      { subst w0. case_decide; [| done]. inv_frame. by apply Inv_stopTone. }
      pose proof (Inv_setTimeout_seq (gapMs w0) w0 H2) as H3.
      by destruct (setTimeout CbNext (gapMs w0) w0).
    + by apply Inv_scheduleNextFrom.
    + by inv_frame.
    + case_decide; [| done]. inv_frame. by apply Inv_stopTone.
Qed.

Lemma Inv_step e w : Inv w → Inv (step e w).
Proof.
  intros H. destruct e; simpl.
  - by inv_frame.
  - by apply Inv_fire.
  - by apply Inv_startSequencePlaybackFromText.
  - inv_frame. by apply Inv_cancelSequencePlayback.
  - case_decide; [done |]. by apply Inv_triggerKeyDown.
  - by apply Inv_triggerKeyUp.
  - destruct editable; [done |]. destruct (bool_decide (k ∈ validKeys)); simpl; [| done].
    assert (H1 : Inv (if isSeqPlaying w then cancelSequencePlayback w else w)).
    { destruct (isSeqPlaying w); [by apply Inv_cancelSequencePlayback | done]. }
    destruct (_ && _); [done |]. apply Inv_triggerKeyDown. by inv_frame.
  - destruct editable; [done |]. destruct (bool_decide (k ∈ validKeys)); simpl; [| done].
    apply Inv_triggerKeyUp. by inv_frame.
  - by apply Inv_setVolume.
  - destruct (mode _); by inv_frame.
  - by inv_frame.
  - by inv_frame.
  - assert (H1 : Inv (setDialPreset p w)) by by apply Inv_setDialPreset.
    destruct (_ && _); [| done]. by apply Inv_startToneForKey.
  - destruct (audioContext (engine w)) as [c |] eqn:Hc; [| done].
    revert H. apply Inv_same_core. destruct_world w. simpl in Hc; subst ctx.
    destruct c as [cst ns]. solve_same_core.
Qed.

(** The invariant holds after any sequence of events on a fresh page. *)
Lemma Inv_run es w : Inv w → Inv (run es w).
Proof.
  revert w. induction es as [| e es IH]; intros w H; [done |].
  simpl. by apply IH, Inv_step.
Qed.

(** ** Starting a tone *)

(** On a page that satisfies the invariant the guard after
    [ensureContext] never fires: a recognized lookup result is always
    followed by the teardown and the wiring. *)
Lemma startToneForKey_unfold key spec w :
  Inv w → getFrequenciesForKey (dialPreset (engine w)) key = Some spec →
  ∃ mg, startToneForKey key w = wireTone key spec mg (stopTone (ensureContext w))
        ∧ masterGain (engine (stopTone (ensureContext w))) = Some mg
        ∧ audioContext (engine (stopTone (ensureContext w))) ≠ None.
Proof.
  intros H Hl. unfold startToneForKey. rewrite Hl.
  pose proof (Inv_ensureContext w H) as H1.
  destruct (ensureContext_spec w) as (_ & _ & _ & _ & _ & _ & _ & _ & _ & _ & _ & Hctx & _).
  pose proof (inv_master _ H1 Hctx) as Hmg.
  destruct (audioContext (engine (ensureContext w))) as [c |] eqn:Hc; [| done].
  destruct (masterGain (engine (ensureContext w))) as [mg |] eqn:Hm; [| done].
  exists mg. split; [done |].
  destruct (isStarted (engine (ensureContext w))) eqn:Hst.
  - destruct (stopTone_started _ Hst) as (_ & _ & _ & _ & _ & _ & _ & _ & Hx & Hy & _).
    rewrite Hx, Hy, Hc. done.
  - unfold stopTone. rewrite Hst; simpl. by rewrite Hc.
Qed.

(** C3: after any events on a fresh page, an engine that is not started
    has no current key, and an engine without current key has no pending
    cadence handle; every sounding oscillator is one of the (at most two)
    oscillators of the engine's current tone, wired to its gate; and
    [startToneForKey], for a key that has a tone, first brings the page to
    a state where no oscillator sounds ([stopTone] after [ensureContext])
    and only then adds the nodes of the new tone behind the old ones. *)
Theorem engine_invariant (d g : Z) (es : list event) :
  let w := run es (initWorld d g) in
  (isStarted (engine w) = false → currentKey (engine w) = None)
  ∧ (currentKey (engine w) = None → cadenceTimeoutId (engine w) = None)
  ∧ sounding_is_current w
  ∧ ∀ key spec,
      getFrequenciesForKey (dialPreset (engine w)) key = Some spec →
      let w0 := stopTone (ensureContext w) in
      (∀ i n, nodes w0 !! i = Some n → node_alive n = false)
      ∧ (∃ new, nodes (snd (startToneForKey key w)) = nodes w0 ++ new)
      ∧ sounding_is_current (snd (startToneForKey key w)).
Proof.
  intros w. assert (H : Inv w) by apply Inv_run, Inv_init.
  split; [apply H |]. split; [apply H |]. split; [apply H |].
  intros key spec Hl w0.
  assert (H0 : Inv w0) by apply Inv_stopTone, Inv_ensureContext, H.
  split; [apply (stopped_is_silent w0 H0 (stopTone_off _)) |].
  split; [| apply (Inv_startToneForKey key w H)].
  destruct (startToneForKey_unfold key spec w H Hl) as (mg & -> & Hmg & Hctx).
  destruct (lookup_shape _ key spec Hl) as [(fa & Ha & Hb) | Ha].
  - destruct (wireTone_normal key spec mg w0 fa Hctx Ha Hb) as (_ & _ & Hns & _).
    eauto.
  - destruct (wireTone_threw key spec mg w0 Hctx Ha) as (_ & _ & Hns & _).
    eauto.
Qed.

(** Witness for [engine_invariant]: a fast busy tone interrupted by the
    key [5]. *)
Lemma engine_invariant_witness :
  let w := run [PointerDown "/"; Advance 300; Fire 1] (initWorld 120 40) in
  getFrequenciesForKey (dialPreset (engine w)) "5" =
    Some {| a := JNum 770; b := JNum 1336; isContinuous := false; cadence := None |}
  ∧ ∀ i n, nodes (stopTone (ensureContext w)) !! i = Some n → node_alive n = false.
Proof.
  split; [reflexivity |].
  destruct (engine_invariant 120 40 [PointerDown "/"; Advance 300; Fire 1])
    as (_ & _ & _ & H).
  exact (proj1 (H "5" _ eq_refl)).
Defined.

(** For a key symbol, one character, outside the thirteen recognized ones
    the lookup returns [null], and [startToneForKey] returns normally with
    the page, the engine and any sounding tone included, exactly as it
    was. *)
Lemma unknown_key_ignored (p : RegionalPreset) (key : string) (w : World) :
  isSymbol key → key ∉ validKeys →
  getFrequenciesForKey p key = None ∧ startToneForKey key w = (Normal, w).
Proof.
  intros Hsym Hout. split; [by apply lookup_unknown |].
  unfold startToneForKey. by rewrite lookup_unknown.
Qed.

(** The letter [a] while the key [5] sounds. *)
Lemma unknown_key_ignored_witness :
  let w := run [PointerDown "5"] (initWorld 120 40) in
  getFrequenciesForKey us "a" = None ∧ startToneForKey "a" w = (Normal, w).
Proof.
  apply unknown_key_ignored; [reflexivity |].
  apply (bool_decide_unpack _). vm_compute. exact I.
Defined.

(** C9: the code at the name [toString], which is outside the recognized
    set, while the key [5] sounds. The two tables inherit a member of
    that name from [Object.prototype], so the test [!low || !high] lets
    it through and the lookup returns a specification instead of [null];
    [startToneForKey], far from returning at once, tears down the tone of
    [5], creates a gate and an oscillator and raises the TypeError of
    [frequency.value]: the page is left silent, with two more nodes. *)
Theorem toString_is_not_ignored :
  let w := run [PointerDown "5"] (initWorld 120 40) in
  let w' := snd (startToneForKey "toString" w) in
  ("toString" ∉ validKeys)
  ∧ getFrequenciesForKey (dialPreset (engine w)) "toString" =
      Some {| a := JInherited "toString"; b := JInherited "toString";
              isContinuous := false; cadence := None |}
  ∧ fst (startToneForKey "toString" w) = Threw
  ∧ (currentKey (engine w) = Some "5" ∧ soundingFrequencies w = [770; 1336])
  ∧ (currentKey (engine w') = None ∧ soundingFrequencies w' = [])
  ∧ length (nodes w') = (length (nodes w) + 2)%nat
  ∧ w' ≠ w.
Proof.
  split; [apply (bool_decide_unpack _); vm_compute; exact I |].
  split; [vm_compute; reflexivity |].
  split; [vm_compute; reflexivity |].
  split; [split; vm_compute; reflexivity |].
  split; [split; vm_compute; reflexivity |].
  split; [vm_compute; reflexivity |].
  intros Heq. apply (f_equal (λ w, currentKey (engine w))) in Heq.
  vm_compute in Heq. discriminate Heq.
Qed.

(** ** The cadence *)


(** The only tone with a cadence is the fast busy tone of [/]. *)
Lemma cadenced_is_busy p key spec c :
  getFrequenciesForKey p key = Some spec → cadence spec = Some c →
  key = "/" ∧ a spec = JNum 480 ∧ b spec = JNum 620 ∧ c = {| onMs := 250; offMs := 250 |}.
Proof.
  unfold getFrequenciesForKey. intros Hl Hc.
  destruct (decide (key = "*")); [destruct (decide (p = jp)); by simplify_eq/= |].
  destruct (decide (key = "/")); [by simplify_eq/= |].
  destruct (_ || _); by simplify_eq/=.
Qed.




(** *** The only way out of the cycle *)













Lemma cancelSequencePlayback_engine w : engine (cancelSequencePlayback w) = engine w.
Proof. unfold cancelSequencePlayback. by destruct (seqTimer w). Qed.




(** ** The engine leaves the sequence player alone *)

Lemma toggle_engine_only on off isOn w : engine_only w (toggle on off isOn w).
Proof.
  destruct_world w. destruct tg, ctx as [[cst ns] |]; run_page; reflexivity.
Qed.

Lemma wireTone_engine_only key spec mg w :
  engine_only w (snd (wireTone key spec mg w)).
Proof.
  destruct_world w. destruct spec as [va vb cont cad].
  destruct ctx as [[cst ns] |], va, vb, cad as [[on off] |];
    run_page; try reflexivity;
    destruct (_ =? _); run_page; reflexivity.
Qed.

Lemma startToneForKey_engine_only key w :
  engine_only w (snd (startToneForKey key w)).
Proof.
  unfold startToneForKey.
  destruct (getFrequenciesForKey _ key) as [spec |]; [| apply engine_only_refl].
  pose proof (ensureContext_spec w) as [H1 _].
  destruct (audioContext _); [| done]. destruct (masterGain _); [| done].
  eapply engine_only_trans; [exact H1 |].
  eapply engine_only_trans; [apply stopTone_engine_only |].
  apply wireTone_engine_only.
Qed.

(** ** Cancelling a sequence *)

Lemma seqView_engine_only w w' : engine_only w w' → seqView w' = seqView w.
Proof. intros ->. reflexivity. Qed.

Lemma ui_engine_only w w' : engine_only w w' → ui w' = ui w.
Proof. intros ->. reflexivity. Qed.

Lemma seqView_stopTone w : seqView (stopTone w) = seqView w.
Proof. apply seqView_engine_only, stopTone_engine_only. Qed.

Lemma seqView_startToneForKey k w : seqView (snd (startToneForKey k w)) = seqView w.
Proof. apply seqView_engine_only, startToneForKey_engine_only. Qed.

Lemma seqView_cancel w :
  seqView (cancelSequencePlayback w) = (false, seqPlayed w, seqBuffer w).
Proof. unfold cancelSequencePlayback. by destruct (seqTimer w). Qed.

Lemma seqView_triggerKeyDown k w : seqView (triggerKeyDown k w) = seqView w.
Proof.
  unfold triggerKeyDown.
  lazymatch goal with |- context [startToneForKey k ?w0] => set (wa := w0) end.
  pose proof (seqView_startToneForKey k wa) as Hs.
  destruct (mode wa); [done |].
  destruct (startToneForKey k wa) as [c w1]. by destruct c.
Qed.

Lemma seqView_triggerKeyUp k w : seqView (triggerKeyUp k w) = seqView w.
Proof.
  unfold triggerKeyUp. destruct (mode _); [| done]. case_decide; [| done].
  apply (seqView_stopTone (logUi (RemoveActive k) w)).
Qed.

(** A drain step on a player that is not playing does nothing. *)
Lemma scheduleNextFrom_idle buf w :
  isSeqPlaying w = false → scheduleNextFrom buf w = w.
Proof. intros Hp. destruct buf; cbn [scheduleNextFrom]; by rewrite Hp. Qed.

Lemma seqView_fire_idle id w :
  isSeqPlaying w = false → seqView (fire id w) = seqView w.
Proof.
  intros Hidle. unfold fire. destruct (pendingTimer id w) as [t |]; [| done].
  case_decide; [| done].
  destruct (tm_cb t) as [isOn on off | localK | | k | localKey]; cbn [runCallback].
  - apply (seqView_engine_only (clearTimeout id w)), toggle_engine_only.
  - case_decide; [| done]. apply (seqView_stopTone (clearTimeout id w)).
  - unfold scheduleNextFromBuffer. by rewrite scheduleNextFrom_idle.
  - done.
  - case_decide; [| done]. apply (seqView_stopTone (clearTimeout id w)).
Qed.

Lemma seqView_setVolume v w : seqView (setVolume v w) = seqView w.
Proof. destruct_world w. destruct mg, ctx as [[cst ns] |]; reflexivity. Qed.

(** Without a click on the play button a cancelled player stays
    cancelled: no key leaves the queue and none is played. *)
Lemma seqView_step_idle e w :
  isPlayClick e = false → isSeqPlaying w = false →
  seqView (step e w) = seqView w.
Proof.
  intros He Hidle. destruct e; try discriminate He; cbn [step].
  - done.
  - by apply seqView_fire_idle.
  - change (seqView (cancelSequencePlayback w) = seqView w).
    rewrite (seqView_cancel w). unfold seqView. by rewrite Hidle.
  - case_decide; [done | apply seqView_triggerKeyDown].
  - apply seqView_triggerKeyUp.
  - destruct editable; [done |]. destruct (bool_decide _); cbn [negb]; [| done].
    rewrite Hidle. destruct (_ && _); [done |].
    by rewrite seqView_triggerKeyDown.
  - destruct editable; [done |]. destruct (bool_decide _); cbn [negb]; [| done].
    by rewrite seqView_triggerKeyUp.
  - apply seqView_setVolume.
  - by destruct (mode _).
  - done.
  - done.
  - destruct (_ && _); [| done].
    by rewrite seqView_startToneForKey.
  - by destruct (audioContext _).
Qed.

Lemma seqView_run_idle es w :
  forallb (λ e, negb (isPlayClick e)) es = true → isSeqPlaying w = false →
  seqView (run es w) = seqView w.
Proof.
  revert w. induction es as [| e es IH]; intros w Hes Hidle; [done |].
  cbn [forallb] in Hes. apply andb_prop in Hes as [He Hes].
  apply negb_true_iff in He.
  pose proof (seqView_step_idle e w He Hidle) as Hs.
  cbn [run foldl]. unfold run in IH. rewrite IH; [done | done |].
  unfold seqView in Hs. congruence.
Qed.

Lemma keyStarts_engine_only w w' : engine_only w w' → keyStarts w' = keyStarts w.
Proof. intros ->. reflexivity. Qed.

Lemma keyStarts_logUi c w :
  isKeyStarted c = false → keyStarts (logUi c w) = keyStarts w.
Proof.
  intros Hc. unfold keyStarts, logUi. cbn [ui set_ui].
  rewrite filter_app, filter_cons, decide_False by congruence.
  by rewrite filter_nil, app_nil_r.
Qed.






(** ** Playing a sequence *)

Lemma stopTone_nextTimerId w : nextTimerId (stopTone w) = nextTimerId w.
Proof.
  destruct (isStarted (engine w)) eqn:Hst.
  - by destruct (stopTone_started w Hst) as (_ & _ & _ & _ & _ & _ & _ & _ & _ & _ & ?).
  - unfold stopTone. by rewrite Hst.
Qed.

(** A due gap timer runs the drain step on the page without that timer. *)
Lemma fire_next id t w :
  pendingTimer id w = Some t → tm_cb t = CbNext → tm_due t ≤ now w →
  fire id w = scheduleNextFromBuffer (clearTimeout id w).
Proof. intros Hp Hcb Hdue. unfold fire. by rewrite Hp, Hcb, decide_True. Qed.

(** A due tone-end timer stops the tone if it is still the current one,
    and arms the gap timer, which it records in [seqTimer]. *)
Lemma fire_toneEnd id t k w :
  Inv w → pendingTimer id w = Some t → tm_cb t = CbToneEnd k → tm_due t ≤ now w →
  let w' := fire id w in
  let gap := {| tm_id := nextTimerId w; tm_due := now w + Z.max 0 (gapMs w);
                tm_cb := CbNext |} in
  seqTimer w' = Some (nextTimerId w)
  ∧ pendingTimer (nextTimerId w) w' = Some gap
  ∧ timers w' = timers (afterTone k (clearTimeout id w)) ++ [gap]
  ∧ seqView w' = seqView w
  ∧ now w' = now w
  ∧ keyStarts w' = keyStarts w
  ∧ filter (λ c, c = SetStatus StIdle) (ui w') = filter (λ c, c = SetStatus StIdle) (ui w).
Proof.
  intros H Hp Hcb Hdue w' gap.
  pose proof (Inv_fire id w H) as H'. fold w' in H'.
  assert (Hw' : w' = set_seqTimer (Some (nextTimerId (afterTone k (clearTimeout id w))))
                       (snd (setTimeout CbNext (gapMs (afterTone k (clearTimeout id w)))
                               (afterTone k (clearTimeout id w))))).
  { unfold w', fire. rewrite Hp, Hcb, decide_True by done. reflexivity. }
  assert (Hfr : engine_only (clearTimeout id w) (afterTone k (clearTimeout id w))
                ∨ afterTone k (clearTimeout id w)
                  = setCurrentKeyDash (stopTone (clearTimeout id w))).
  { unfold afterTone. case_decide; [by right | left; apply engine_only_refl]. }
  assert (Hni : nextTimerId (afterTone k (clearTimeout id w)) = nextTimerId w).
  { unfold afterTone. case_decide; [| done].
    apply (stopTone_nextTimerId (clearTimeout id w)). }
  assert (Hview : seqView (afterTone k (clearTimeout id w)) = seqView w
                  ∧ now (afterTone k (clearTimeout id w)) = now w
                  ∧ gapMs (afterTone k (clearTimeout id w)) = gapMs w
                  ∧ keyStarts (afterTone k (clearTimeout id w)) = keyStarts w
                  ∧ filter (λ c, c = SetStatus StIdle) (ui (afterTone k (clearTimeout id w)))
                    = filter (λ c, c = SetStatus StIdle) (ui w)).
  { unfold afterTone. case_decide; [| done].
    pose proof (stopTone_engine_only (clearTimeout id w)) as Hs.
    unfold setCurrentKeyDash. rewrite keyStarts_logUi by done.
    rewrite (keyStarts_engine_only _ _ Hs).
    unfold logUi. cbn [ui set_ui].
    rewrite filter_app, filter_cons, decide_False by done.
    rewrite filter_nil, app_nil_r.
    rewrite Hs. done. }
  destruct Hview as (Hv & Hnow & Hgap & Hks & Hidle).
  assert (Hts : timers w' = timers (afterTone k (clearTimeout id w)) ++ [gap]).
  { rewrite Hw'. unfold gap, setTimeout.
    cbn [timers set_timers set_seqTimer set_nextTimerId snd].
    by rewrite Hni, Hnow, Hgap. }
  repeat split; try done.
  - rewrite Hw'. cbn [seqTimer set_seqTimer]. by rewrite Hni.
  - apply in_pendingTimer; [apply H' | | done].
    rewrite Hts. apply elem_of_app. right. left.
  - rewrite Hw'. exact Hv.
  - rewrite Hw'. exact Hnow.
  - rewrite Hw'. exact Hks.
  - rewrite Hw'. exact Hidle.
Qed.

(** C10: with an empty input the function only replaces the queue by the
    empty queue: no timer is cancelled and the playing flag keeps its
    value. During a sequence the queued keys are thereby dropped while the
    scheduled callbacks still run: a pending gap timer fires, finds the
    queue empty and reports idle; a pending tone-end timer fires, arms the
    gap timer, and that one then reports idle; no further key is played. *)
Theorem empty_input_drops_queue (d g : Z) (es : list event) :
  let w := run es (initWorld d g) in
  let w1 := startSequencePlaybackFromText "" w in
  w1 = set_seqBuffer [] w
  ∧ (∀ id t,
       pendingTimer id w = Some t → tm_cb t = CbNext → tm_due t ≤ now w →
       isSeqPlaying w = true →
       pendingTimer id w1 = Some t
       ∧ fire id w1 = setStatus StIdle (set_isSeqPlaying false (clearTimeout id w1))
       ∧ isSeqPlaying (fire id w1) = false
       ∧ seqPlayed (fire id w1) = seqPlayed w
       ∧ ui (fire id w1) = ui w ++ [SetStatus StIdle])
  ∧ (∀ id t k late,
       pendingTimer id w = Some t → tm_cb t = CbToneEnd k → tm_due t ≤ now w →
       isSeqPlaying w = true → 0 ≤ late →
       let w2 := fire id w1 in
       let id' := nextTimerId w in
       let w3 := fire id' (set_now (now w + Z.max 0 (gapMs w) + late) w2) in
       pendingTimer id w1 = Some t
       ∧ isSeqPlaying w2 = true ∧ seqBuffer w2 = [] ∧ seqTimer w2 = Some id'
       ∧ pendingTimer id' w2 =
           Some {| tm_id := id'; tm_due := now w + Z.max 0 (gapMs w); tm_cb := CbNext |}
       ∧ isSeqPlaying w3 = false
       ∧ seqPlayed w3 = seqPlayed w
       ∧ keyStarts w3 = keyStarts w
       ∧ ui w3 = ui w2 ++ [SetStatus StIdle]).
Proof.
  intros w w1. assert (H : Inv w) by apply Inv_run, Inv_init.
  assert (Hw1 : w1 = set_seqBuffer [] w) by reflexivity.
  assert (H1 : Inv w1) by (rewrite Hw1; by apply Inv_set_seqBuffer).
  split; [done |]. split.
  - intros id t Hp Hcb Hdue Hplay.
    assert (Hp1 : pendingTimer id w1 = Some t) by done.
    assert (Hf : fire id w1 = setStatus StIdle (set_isSeqPlaying false (clearTimeout id w1))).
    { rewrite (fire_next id t w1 Hp1 Hcb Hdue). unfold scheduleNextFromBuffer.
      change (seqBuffer (clearTimeout id w1)) with (@nil string).
      cbn [scheduleNextFrom].
      change (isSeqPlaying (clearTimeout id w1)) with (isSeqPlaying w).
      by rewrite Hplay. }
    rewrite Hf. done.
  - intros id t k late Hp Hcb Hdue Hplay Hlate w2 id' w3.
    assert (Hp1 : pendingTimer id w1 = Some t) by done.
    destruct (fire_toneEnd id t k w1 H1 Hp1 Hcb Hdue)
      as (Hsq & Hp2 & _ & Hv & Hnow & Hks & _).
    fold w2 in Hsq, Hp2, Hv, Hnow, Hks.
    change (nextTimerId w1) with id' in Hsq, Hp2.
    change (now w1) with (now w) in Hp2, Hnow.
    change (gapMs w1) with (gapMs w) in Hp2.
    assert (Hplay2 : isSeqPlaying w2 = true ∧ seqBuffer w2 = [] ∧ seqPlayed w2 = seqPlayed w).
    { unfold seqView in Hv. injection Hv as E1 E2 E3.
      split; [rewrite E1; exact Hplay |]. split; [rewrite E3 | rewrite E2]; reflexivity. }
    destruct Hplay2 as (Hplay2 & Hbuf2 & Hpl2).
    set (w2' := set_now (now w + Z.max 0 (gapMs w) + late) w2).
    assert (Hf : w3 = setStatus StIdle (set_isSeqPlaying false (clearTimeout id' w2'))).
    { unfold w3. fold w2'.
      rewrite (fire_next id' _ w2' Hp2 eq_refl) by (cbn; lia).
      unfold scheduleNextFromBuffer.
      change (seqBuffer (clearTimeout id' w2')) with (seqBuffer w2). rewrite Hbuf2.
      cbn [scheduleNextFrom].
      change (isSeqPlaying (clearTimeout id' w2')) with (isSeqPlaying w2).
      by rewrite Hplay2. }
    do 5 (split; [done |]).
    rewrite Hf. split; [done |]. split; [exact Hpl2 |]. split; [| done].
    unfold setStatus. rewrite keyStarts_logUi by done. exact Hks.
Qed.

(** Witness for [empty_input_drops_queue]: the sequence 123 is in its
    first gap when the play button is clicked on an empty field, and in
    its first tone when it is. *)
Lemma empty_input_drops_queue_witness :
  seqPlayed
    (fire 3 (startSequencePlaybackFromText ""
       (run [PlaySeqClick "123"; Advance 120; Fire 1; Advance 160] (initWorld 120 40))))
  = ["1"]
  ∧ isSeqPlaying
      (fire 3 (set_now 160 (fire 1 (startSequencePlaybackFromText ""
         (run [PlaySeqClick "123"; Advance 120] (initWorld 120 40))))))
    = false.
Proof.
  split.
  - destruct (empty_input_drops_queue 120 40
                [PlaySeqClick "123"; Advance 120; Fire 1; Advance 160]) as (_ & H & _).
    destruct (H 3%nat {| tm_id := 3; tm_due := 160; tm_cb := CbNext |}
                eq_refl eq_refl) as (_ & _ & _ & Hp & _); [done | done |].
    exact Hp.
  - destruct (empty_input_drops_queue 120 40 [PlaySeqClick "123"; Advance 120])
      as (_ & _ & H).
    destruct (H 1%nat {| tm_id := 1; tm_due := 120; tm_cb := CbToneEnd "1" |} "1" 0
                eq_refl eq_refl) as (_ & _ & _ & _ & _ & Hp & _); [done | done | done |].
    exact Hp.
Defined.

(** *** Draining the queue *)

Lemma startToneForKey_valid k w :
  Inv w → k ∈ validKeys →
  fst (startToneForKey k w) = Normal
  ∧ currentKey (engine (snd (startToneForKey k w))) = Some k
  ∧ isStarted (engine (snd (startToneForKey k w))) = true.
Proof.
  intros H Hk.
  destruct (lookup_valid (dialPreset (engine w)) k Hk) as (fa & vb & c & ct & Hl & Hb).
  destruct (startToneForKey_unfold k _ w H Hl) as (mg & -> & _ & Hctx).
  by destruct (wireTone_normal k
                 {| a := JNum fa; b := vb; isContinuous := c; cadence := ct |}
                 mg _ fa Hctx eq_refl Hb) as (Hn & _ & _ & _ & _ & _ & Hck & Hst & _).
Qed.

(** The drain step, case by case: either no playable symbol is left, the
    queue is emptied and idle is reported; or the unplayable symbols in
    front are dropped and the first playable one is played, all within
    the same call. *)
Lemma scheduleNextFrom_spec buf w :
  Inv w → isSeqPlaying w = true → (buf = [] → seqBuffer w = []) →
  (filter playable buf = []
   ∧ scheduleNextFrom buf w
     = setStatus StIdle (set_isSeqPlaying false (set_seqBuffer [] w)))
  ∨ (∃ skipped k rest,
       buf = skipped ++ k :: rest ∧ filter playable skipped = [] ∧ playable k
       ∧ scheduleNextFrom buf w = played k (announced k rest w)).
Proof.
  revert w. induction buf as [| k rest IH]; intros w H Hplay Hbuf.
  - left. split; [done |]. cbn [scheduleNextFrom]. rewrite Hplay. cbn [negb].
    specialize (Hbuf eq_refl). destruct w. simpl in Hbuf. by subst.
  - cbn [scheduleNextFrom]. rewrite Hplay. cbn [negb].
    assert (Hrec : ¬ playable k →
      (filter playable (k :: rest) = []
       ∧ scheduleNextFrom rest (set_seqBuffer rest w)
         = setStatus StIdle (set_isSeqPlaying false (set_seqBuffer [] w)))
      ∨ (∃ skipped k0 rest0,
           k :: rest = skipped ++ k0 :: rest0 ∧ filter playable skipped = []
           ∧ playable k0
           ∧ scheduleNextFrom rest (set_seqBuffer rest w)
             = played k0 (announced k0 rest0 w))).
    { intros Hk.
      destruct (IH (set_seqBuffer rest w)) as [[Hf Hs] | (sk & k0 & r0 & Hb & Hf & Hk0 & Hs)];
        [by apply Inv_set_seqBuffer | exact Hplay | by intros -> | |].
      - left. rewrite filter_cons, decide_False by done. split; [done | exact Hs].
      - right. exists (k :: sk), k0, r0. rewrite filter_cons, decide_False by done.
        split; [by rewrite Hb |]. split; [done |]. split; [done | exact Hs]. }
    destruct (decide (k = "")) as [-> | Hne]; [apply Hrec; by intros [? _] |].
    destruct (bool_decide (k ∈ validKeys)) eqn:Hv; cbn [negb].
    2: { apply Hrec. intros [_ Hin]. by apply bool_decide_eq_false in Hv. }
    apply bool_decide_eq_true in Hv.
    right. exists [], k, rest. split; [done |]. split; [done |]. split; [done |].
    lazymatch goal with |- context [startToneForKey k ?w0] => set (wa := w0) end.
    assert (Hwa : wa = announced k rest w) by reflexivity.
    clearbody wa. subst wa.
    assert (Ha : Inv (announced k rest w)) by (unfold announced; by inv_frame).
    pose proof (proj1 (startToneForKey_valid k _ Ha Hv)) as Hn.
    unfold played. destruct (startToneForKey k (announced k rest w)) as [c w1].
    cbn [fst snd] in *. subst c.
    by destruct (setTimeout (CbToneEnd k) _ _).
Qed.

Lemma idleCount_logUi c w :
  c ≠ SetStatus StIdle → idleCount (logUi c w) = idleCount w.
Proof.
  intros Hc. unfold idleCount, logUi. cbn [ui set_ui].
  rewrite filter_app, filter_cons, decide_False by done.
  by rewrite filter_nil, app_nil_r.
Qed.

Lemma idleCount_engine_only w w' : engine_only w w' → idleCount w' = idleCount w.
Proof. intros ->. reflexivity. Qed.

Lemma stopTone_timers_keep w t :
  Inv w → t ∈ timers w → is_cadence (tm_cb t) = false → t ∈ timers (stopTone w).
Proof.
  intros H Ht Hc. destruct (isStarted (engine w)) eqn:Hst;
    [| unfold stopTone; by rewrite Hst].
  destruct (stopTone_started w Hst) as (_ & -> & _).
  destruct (cadenceTimeoutId (engine w)) as [id |] eqn:Hcid; [| done].
  apply list_elem_of_filter. split; [| done]. intros Hid.
  destruct (inv_cad_pending w H id Hcid) as (t' & Ht' & Hid' & Hc').
  rewrite (NoDup_ids_unique (timers w) t t' (inv_nodup w H) Ht Ht') in Hc by congruence.
  congruence.
Qed.

Lemma weight_filter_cadence id (ts : list Timer) :
  (∀ t, t ∈ ts → tm_id t = id → is_cadence (tm_cb t) = true) →
  sum_list_with weight (filter (λ t, tm_id t ≠ id) ts) = sum_list_with weight ts.
Proof.
  induction ts as [| t ts IH]; intros Hc; [done |].
  rewrite filter_cons. case_decide as Hid.
  - cbn. rewrite IH; [done |]. intros t' Ht'. apply Hc. by right.
  - cbn. rewrite IH by (intros t' Ht'; apply Hc; by right).
    specialize (Hc t (list_elem_of_here _ _) Hid).
    unfold weight. by destruct (tm_cb t).
Qed.

Lemma weight_stopTone w :
  Inv w → sum_list_with weight (timers (stopTone w)) = sum_list_with weight (timers w).
Proof.
  intros H. destruct (isStarted (engine w)) eqn:Hst;
    [| unfold stopTone; by rewrite Hst].
  destruct (stopTone_started w Hst) as (_ & -> & _).
  destruct (cadenceTimeoutId (engine w)) as [id |] eqn:Hcid; [| done].
  apply weight_filter_cadence. intros t Ht Hid.
  destruct (inv_cad_pending w H id Hcid) as (t' & Ht' & Hid' & Hc').
  by rewrite (NoDup_ids_unique (timers w) t t' (inv_nodup w H) Ht Ht') by congruence.
Qed.

Lemma filter_id_absent id (ts : list Timer) :
  id ∉ tm_id <$> ts → filter (λ t, tm_id t ≠ id) ts = ts.
Proof.
  induction ts as [| x ts IH]; [done |].
  rewrite fmap_cons, not_elem_of_cons. intros [Hx Hts].
  rewrite filter_cons, decide_True by done. by rewrite IH.
Qed.

Lemma weight_clearTimeout id t w :
  Inv w → pendingTimer id w = Some t →
  (sum_list_with weight (timers (clearTimeout id w)) + weight t)%nat
  = sum_list_with weight (timers w).
Proof.
  intros H [Ht Hid]%pendingTimer_Some.
  pose proof (inv_nodup w H) as Hnd. unfold clearTimeout. cbn [timers set_timers].
  revert Ht Hnd. generalize (timers w). intros ts.
  induction ts as [| x ts IH]; [by intros ?%elem_of_nil |].
  intros [-> | Ht]%elem_of_cons [Hx Hnd]%NoDup_cons.
  - rewrite filter_cons, decide_False by (intros ?; done).
    rewrite filter_id_absent by (by rewrite <- Hid). cbn. lia.
  - rewrite filter_cons, decide_True.
    + cbn. rewrite <- (IH Ht Hnd). lia.
    + intros Hxid. apply Hx. rewrite Hxid, <- Hid. by apply list_elem_of_fmap_2.
Qed.

Lemma ensureContext_timers w : timers (ensureContext w) = timers w.
Proof. by destruct (ensureContext_spec w) as (_ & ? & _). Qed.

(** Starting a tone adds and removes cadence timers only. *)
Lemma startToneForKey_timers k w :
  Inv w →
  sum_list_with weight (timers (snd (startToneForKey k w)))
  = sum_list_with weight (timers w)
  ∧ ∀ t, t ∈ timers w → is_cadence (tm_cb t) = false →
      t ∈ timers (snd (startToneForKey k w)).
Proof.
  intros H.
  destruct (getFrequenciesForKey (dialPreset (engine w)) k) as [spec |] eqn:Hl.
  2: { unfold startToneForKey. by rewrite Hl. }
  destruct (startToneForKey_unfold k spec w H Hl) as (mg & -> & _ & Hctx).
  pose proof (Inv_ensureContext w H) as H1.
  pose proof (weight_stopTone _ H1) as Hw.
  pose proof (stopTone_timers_keep (ensureContext w)) as Hk.
  rewrite ensureContext_timers in Hw, Hk.
  assert (Ht : ∃ new, timers (snd (wireTone k spec mg (stopTone (ensureContext w))))
                      = timers (stopTone (ensureContext w)) ++ new
                      ∧ sum_list_with weight new = 0%nat).
  { destruct (lookup_shape _ k spec Hl) as [(fa & Ha & Hb) | Ha].
    - destruct (wireTone_normal k spec mg _ fa Hctx Ha Hb)
        as (_ & _ & _ & _ & _ & _ & _ & _ & _ & _ & _ & _ & _ & Hts & _).
      eexists. split; [exact Hts |]. by destruct (cadence spec).
    - destruct (wireTone_threw k spec mg _ Hctx Ha)
        as (_ & _ & _ & _ & _ & _ & _ & _ & _ & _ & _ & _ & _ & Hts & _).
      exists []. by rewrite app_nil_r. }
  destruct Ht as (new & -> & Hnew). split.
  - rewrite sum_list_with_app, Hnew, Hw. lia.
  - intros t Ht Hc. apply elem_of_app. left. by apply Hk.
Qed.

Lemma played_spec k rest w :
  Inv w →
  let w' := played k (announced k rest w) in
  seqView w' = (isSeqPlaying w, seqPlayed w ++ [k], rest)
  ∧ idleCount w' = idleCount w
  ∧ sum_list_with weight (timers w') = (sum_list_with weight (timers w) + 2)%nat
  ∧ (∃ t, t ∈ timers w' ∧ isChain (tm_cb t) = true)
  ∧ now w' = now w
  ∧ (k ∈ validKeys →
     currentKey (engine w') = Some k ∧ isStarted (engine w') = true).
Proof.
  intros H w'. set (wa := announced k rest w).
  assert (Ha : Inv wa) by (unfold wa, announced; by inv_frame).
  pose proof (startToneForKey_engine_only k wa) as Hfr.
  destruct (startToneForKey_timers k wa Ha) as [Hwt _].
  change (timers wa) with (timers w) in Hwt.
  set (w1 := snd (startToneForKey k wa)) in *.
  assert (Hts : timers w' = (timers w1 ++
            [{| tm_id := nextTimerId w1; tm_due := now w1 + Z.max 0 (autoDurationMs w1);
                tm_cb := CbToneEnd k |}]) ++
            [{| tm_id := S (nextTimerId w1);
                tm_due := now w1 + Z.max 0 (autoDurationMs w1 + 10);
                tm_cb := CbUnhighlight k |}]) by reflexivity.
  split; [| split; [| split; [| split; [| split]]]].
  - change (seqView w1 = (isSeqPlaying w, seqPlayed w ++ [k], rest)).
    by rewrite (seqView_engine_only _ _ Hfr).
  - change (idleCount (setStatus StPlaying w1) = idleCount w).
    unfold setStatus. rewrite idleCount_logUi by done.
    rewrite (idleCount_engine_only _ _ Hfr).
    change (idleCount (logUi (AddActive k) (appendLog k (setCurrentKey k w))) = idleCount w).
    unfold appendLog, setCurrentKey. by rewrite !idleCount_logUi.
  - rewrite Hts, !sum_list_with_app, Hwt. cbn. lia.
  - eexists. split; [rewrite Hts; apply elem_of_app; left; apply elem_of_app; right; left |].
    done.
  - change (now w1 = now w). by rewrite Hfr.
  - intros Hk. exact (proj2 (startToneForKey_valid k wa Ha Hk)).
Qed.

(** A timer that does not carry the sequence fires: the sequence is where
    it was, and the timers that carry it are still pending. *)
Lemma fire_other id t w :
  Inv w → pendingTimer id w = Some t → isChain (tm_cb t) = false →
  seqView (fire id w) = seqView w
  ∧ idleCount (fire id w) = idleCount w
  ∧ ∀ t', t' ∈ timers w → isChain (tm_cb t') = true → t' ∈ timers (fire id w).
Proof.
  intros H Hp Hc. destruct (pendingTimer_Some _ _ _ Hp) as [Ht Hid].
  assert (Hkeep : ∀ t', t' ∈ timers w → isChain (tm_cb t') = true →
                        t' ∈ timers (clearTimeout id w)).
  { intros t' Ht' Hc'. apply list_elem_of_filter. split; [| done]. intros Hid'.
    rewrite (NoDup_ids_unique (timers w) t' t (inv_nodup w H) Ht' Ht) in Hc' by congruence.
    congruence. }
  unfold fire. rewrite Hp. case_decide; [| done].
  destruct (is_cadence (tm_cb t)) eqn:Hcad.
  - pose proof (Inv_toggle_fired id t w H Hp Hcad) as _.
    destruct (tm_cb t) as [isOn on off | | | |] eqn:Hcb; try done. cbn [runCallback].
    pose proof (toggle_engine_only on off isOn (clearTimeout id w)) as Hfr.
    split; [by rewrite (seqView_engine_only _ _ Hfr) |].
    split; [by rewrite (idleCount_engine_only _ _ Hfr) |].
    intros t' Ht' Hc'. specialize (Hkeep t' Ht' Hc').
    revert Hkeep. generalize (clearTimeout id w). intros w0 Hin.
    destruct_world w0. revert Hin.
    destruct tg, ctx as [[cst ns] |]; run_page; try done;
      intros Hin; apply elem_of_app; by left.
  - assert (H1 : Inv (clearTimeout id w)).
    { apply Inv_clearTimeout; [done |]. intros Hcid.
      apply (pending_cadence id w t H Hp) in Hcid. congruence. }
    pose proof (stopTone_engine_only (clearTimeout id w)) as Hfr.
    assert (Hstop : ∀ t', t' ∈ timers w → isChain (tm_cb t') = true →
                          t' ∈ timers (stopTone (clearTimeout id w))).
    { intros t' Ht' Hc'. apply stopTone_timers_keep; [done | by apply Hkeep |].
      by destruct (tm_cb t'). }
    destruct (tm_cb t) as [| | | k | localKey] eqn:Hcb; try done; cbn [runCallback].
    + split; [done |]. split; [by rewrite idleCount_logUi | done].
    + case_decide; [| done].
      split; [exact (seqView_engine_only _ _ Hfr) |]. split; [| exact Hstop].
      unfold setStatus, setCurrentKeyDash. rewrite !idleCount_logUi by done.
      by rewrite (idleCount_engine_only _ _ Hfr).
Qed.

Lemma Inv_clearTimeout_chain id t w :
  Inv w → pendingTimer id w = Some t → isChain (tm_cb t) = true →
  Inv (clearTimeout id w).
Proof.
  intros H Hp Hc. apply Inv_clearTimeout; [done |]. intros Hcid.
  apply (pending_cadence id w t H Hp) in Hcid. by destruct (tm_cb t).
Qed.

(** The end of a tone costs the sequence one unit of fuel. *)
Lemma fire_toneEnd_weight id t k w :
  Inv w → pendingTimer id w = Some t → tm_cb t = CbToneEnd k → tm_due t ≤ now w →
  (sum_list_with weight (timers (fire id w)) + 1)%nat = sum_list_with weight (timers w).
Proof.
  intros H Hp Hcb Hdue.
  destruct (fire_toneEnd id t k w H Hp Hcb Hdue) as (_ & _ & -> & _).
  pose proof (weight_clearTimeout id t w H Hp) as Hw.
  assert (H1 : Inv (clearTimeout id w)).
  { apply (Inv_clearTimeout_chain id t); [done | done | by rewrite Hcb]. }
  assert (Ha : sum_list_with weight (timers (afterTone k (clearTimeout id w)))
               = sum_list_with weight (timers (clearTimeout id w))).
  { unfold afterTone. case_decide; [| done]. apply (weight_stopTone _ H1). }
  rewrite sum_list_with_app, Ha. unfold weight at 2 in Hw. rewrite Hcb in Hw.
  cbn. lia.
Qed.

(** A drain step of a playing sequence: it reports idle when nothing
    playable is queued; otherwise it plays the next playable key, the
    symbols before it dropped. *)
Lemma scheduleNextFromBuffer_spec w :
  Inv w → isSeqPlaying w = true →
  let w' := scheduleNextFromBuffer w in
  (filter playable (seqBuffer w) = []
   ∧ seqView w' = (false, seqPlayed w, [])
   ∧ idleCount w' = S (idleCount w)
   ∧ timers w' = timers w)
  ∨ (∃ skipped k rest,
       seqBuffer w = skipped ++ k :: rest ∧ filter playable skipped = []
       ∧ playable k
       ∧ seqView w' = (true, seqPlayed w ++ [k], rest)
       ∧ idleCount w' = idleCount w
       ∧ sum_list_with weight (timers w')
         = (sum_list_with weight (timers w) + 2)%nat
       ∧ (∃ t', t' ∈ timers w' ∧ isChain (tm_cb t') = true)
       ∧ currentKey (engine w') = Some k ∧ isStarted (engine w') = true).
Proof.
  intros H Hplay w'. unfold w', scheduleNextFromBuffer.
  destruct (scheduleNextFrom_spec (seqBuffer w) w H Hplay)
    as [[Hf ->] | (sk & k & rest & Hb & Hf & Hk & ->)]; [done | |].
  - left. split; [done |]. split; [done |]. split; [| done].
    unfold setStatus, idleCount, logUi. cbn [ui set_ui].
    rewrite filter_app, length_app.
    change (ui (set_isSeqPlaying false (set_seqBuffer [] w))) with (ui w).
    rewrite filter_cons, decide_True by done. cbn. lia.
  - right. exists sk, k, rest.
    destruct (played_spec k rest w H) as (Hv & Hi & Hwt & Hc & _ & Hcur).
    split; [done |]. split; [done |]. split; [done |].
    split; [rewrite Hv; by rewrite <- Hplay |].
    split; [done |]. split; [done |]. split; [done |]. apply Hcur, Hk.
Qed.

(** A playing sequence that takes a drain step is draining. *)
Lemma draining_scheduleNextFromBuffer w :
  Inv w → isSeqPlaying w = true →
  draining (seqPlayed w ++ filter playable (seqBuffer w)) (idleCount w)
    (scheduleNextFromBuffer w).
Proof.
  intros H Hplay.
  destruct (scheduleNextFromBuffer_spec w H Hplay)
    as [(Hf & Hv & Hi & _) | (sk & k & rest & Hb & Hf & Hk & Hv & Hi & _ & Hch & _)];
    unfold seqView in Hv; injection Hv as Hv1 Hv2 Hv3.
  - right. by rewrite Hv1, Hv2, Hi, Hf, app_nil_r.
  - left. rewrite Hv1, Hv2, Hv3, Hi. repeat split; try done.
    rewrite Hb, filter_app, Hf, filter_cons, decide_True by done.
    by rewrite <- app_assoc.
Qed.

(** What a due gap timer does to the sequence: nothing when the player
    was cancelled, a drain step otherwise; either way it is used up. *)
Lemma fire_next_spec id t w :
  Inv w → pendingTimer id w = Some t → tm_cb t = CbNext → tm_due t ≤ now w →
  (sum_list_with weight (timers (clearTimeout id w)) + 1)%nat
  = sum_list_with weight (timers w)
  ∧ Inv (clearTimeout id w)
  ∧ (isSeqPlaying w = false → fire id w = clearTimeout id w)
  ∧ (isSeqPlaying w = true →
     fire id w = scheduleNextFromBuffer (clearTimeout id w)).
Proof.
  intros H Hp Hcb Hdue.
  pose proof (weight_clearTimeout id t w H Hp) as Hw.
  unfold weight at 2 in Hw. rewrite Hcb in Hw.
  assert (H1 : Inv (clearTimeout id w)).
  { apply (Inv_clearTimeout_chain id t); [done | done | by rewrite Hcb]. }
  rewrite (fire_next id t w Hp Hcb Hdue).
  split; [done |]. split; [done |]. split; [| done].
  intros Hplay. unfold scheduleNextFromBuffer. by apply scheduleNextFrom_idle.
Qed.

(** Timer events keep the sequence draining. *)
Lemma draining_fire exp c0 id w :
  Inv w → draining exp c0 w → draining exp c0 (fire id w).
Proof.
  intros H Hd.
  destruct (pendingTimer id w) as [t |] eqn:Hp; [| unfold fire; by rewrite Hp].
  destruct (decide (tm_due t ≤ now w)) as [Hdue | Hdue];
    [| unfold fire; by rewrite Hp, decide_False].
  destruct (isChain (tm_cb t)) eqn:Hc.
  - destruct (tm_cb t) as [| k | | |] eqn:Hcb; try done.
    + destruct (fire_toneEnd id t k w H Hp Hcb Hdue) as (_ & Hg & _ & Hv & _ & _ & Hi).
      assert (Hi' : idleCount (fire id w) = idleCount w) by (unfold idleCount; by rewrite Hi).
      unfold seqView in Hv. injection Hv as Hv1 Hv2 Hv3.
      destruct Hd as [(Hplay & Hexp & Hc0 & _) | (Hplay & Hexp & Hc0)]; [left | right].
      * rewrite Hv1, Hv2, Hv3, Hi'. repeat split; try done.
        apply pendingTimer_Some in Hg as [Hg _]. eexists. split; [exact Hg | done].
      * by rewrite Hv1, Hv2, Hi'.
    + destruct (fire_next_spec id t w H Hp Hcb Hdue) as (_ & H1 & Hidle & Hgo).
      destruct (isSeqPlaying w) eqn:Hplay.
      * rewrite Hgo by done.
        destruct Hd as [(_ & Hexp & Hc0 & _) | (? & _)]; [| congruence].
        rewrite <- Hexp, <- Hc0. by apply (draining_scheduleNextFromBuffer _ H1).
      * rewrite Hidle by done.
        destruct Hd as [(? & _) | Hd]; [congruence | by right].
  - destruct (fire_other id t w H Hp Hc) as (Hv & Hi & Hkeep).
    unfold seqView in Hv. injection Hv as Hv1 Hv2 Hv3.
    destruct Hd as [(Hplay & Hexp & Hc0 & t' & Ht' & Hc') | (Hplay & Hexp & Hc0)];
      [left | right].
    + rewrite Hv1, Hv2, Hv3, Hi. repeat split; try done.
      exists t'. split; [by apply Hkeep | done].
    + by rewrite Hv1, Hv2, Hi.
Qed.

Lemma draining_step exp c0 e w :
  isTimerEvent e = true → Inv w → draining exp c0 w → draining exp c0 (step e w).
Proof.
  intros He H Hd. destruct e; try discriminate He; cbn [step].
  - exact Hd.
  - by apply draining_fire.
Qed.

Lemma draining_run exp c0 es w :
  forallb isTimerEvent es = true → Inv w → draining exp c0 w →
  draining exp c0 (run es w).
Proof.
  revert w. induction es as [| e es IH]; intros w Hes H Hd; [done |].
  cbn [forallb] in Hes. apply andb_prop in Hes as [He Hes].
  cbn [run foldl]. apply IH; [done | by apply Inv_step | by apply draining_step].
Qed.

(** *** The queue runs out *)

Lemma chainTimer_Some w t :
  chainTimer w = Some t → t ∈ timers w ∧ isChain (tm_cb t) = true.
Proof.
  unfold chainTimer. intros Hh. apply head_Some in Hh as [l Hl].
  assert (Hin : t ∈ filter (λ t, isChain (tm_cb t) = true) (timers w))
    by (rewrite Hl; left).
  apply list_elem_of_filter in Hin. tauto.
Qed.

Lemma chainTimer_None w t :
  chainTimer w = None → t ∈ timers w → isChain (tm_cb t) = false.
Proof.
  unfold chainTimer. intros Hh%head_None Ht.
  destruct (isChain (tm_cb t)) eqn:Hc; [| done].
  assert (Hin : t ∈ filter (λ t, isChain (tm_cb t) = true) (timers w))
    by by apply list_elem_of_filter.
  rewrite Hh in Hin. by apply elem_of_nil in Hin.
Qed.

Lemma Inv_chainStep w : Inv w → Inv (chainStep w).
Proof.
  intros H. unfold chainStep. destruct (chainTimer w); [| done].
  by apply Inv_fire, Inv_set_now.
Qed.

Lemma draining_chainStep exp c0 w :
  Inv w → draining exp c0 w → draining exp c0 (chainStep w).
Proof.
  intros H Hd. unfold chainStep. destruct (chainTimer w); [| done].
  apply draining_fire; [by apply Inv_set_now | exact Hd].
Qed.

Lemma idle_chainStep w : isSeqPlaying w = false → isSeqPlaying (chainStep w) = false.
Proof.
  intros Hidle. unfold chainStep. destruct (chainTimer w) as [t |]; [| done].
  set (w0 := set_now (Z.max (now w) (tm_due t)) w).
  pose proof (seqView_fire_idle (tm_id t) w0 Hidle) as Hv.
  unfold seqView in Hv. injection Hv as Hv _ _. by rewrite Hv.
Qed.

(** Each chain timer that fires while the sequence plays uses up fuel. *)
Lemma fuel_chainStep w :
  Inv w → isSeqPlaying w = true → (∃ t, t ∈ timers w ∧ isChain (tm_cb t) = true) →
  (fuelOf (chainStep w) < fuelOf w)%nat.
Proof.
  intros H Hplay (t0 & Ht0 & Hc0). unfold chainStep.
  destruct (chainTimer w) as [t |] eqn:Hch.
  2: { rewrite (chainTimer_None w t0 Hch Ht0) in Hc0. done. }
  destruct (chainTimer_Some w t Hch) as [Ht Hc].
  set (w0 := set_now (Z.max (now w) (tm_due t)) w).
  assert (H0 : Inv w0) by by apply Inv_set_now.
  assert (Hp : pendingTimer (tm_id t) w0 = Some t).
  { apply in_pendingTimer; [apply H0 | exact Ht | done]. }
  assert (Hdue : tm_due t ≤ now w0) by (cbn; lia).
  unfold fuelOf.
  destruct (tm_cb t) as [| k | | |] eqn:Hcb; try done.
  - pose proof (fire_toneEnd_weight _ t k w0 H0 Hp Hcb Hdue) as Hw.
    destruct (fire_toneEnd _ t k w0 H0 Hp Hcb Hdue) as (_ & _ & _ & Hv & _).
    unfold seqView in Hv. injection Hv as _ _ Hv.
    change (timers w0) with (timers w) in Hw.
    change (seqBuffer w0) with (seqBuffer w) in Hv. rewrite Hv. lia.
  - destruct (fire_next_spec _ t w0 H0 Hp Hcb Hdue) as (Hw & H1 & _ & Hgo).
    rewrite Hgo by done.
    change (timers w0) with (timers w) in Hw.
    destruct (scheduleNextFromBuffer_spec _ H1 Hplay)
      as [(Hf & Hv & _ & Hts) | (sk & k & rest & Hb & _ & _ & Hv & _ & Hwt & _)];
      unfold seqView in Hv; injection Hv as _ _ Hv; rewrite Hv.
    + rewrite Hts. cbn [length]. lia.
    + change (seqBuffer (clearTimeout (tm_id t) w0)) with (seqBuffer w) in Hb.
      rewrite Hwt, Hb, length_app. cbn [length]. lia.
Qed.

(** A sequence that has stopped stays as it is while its last timers
    run out. *)
Lemma drainLoop_done exp c0 n w :
  Inv w → draining exp c0 w → isSeqPlaying w = false →
  isSeqPlaying (drainLoop n w) = false
  ∧ seqPlayed (drainLoop n w) = exp
  ∧ idleCount (drainLoop n w) = S c0.
Proof.
  revert w. induction n as [| n IH]; intros w H Hd Hidle; cbn [drainLoop].
  - destruct Hd as [(? & _) | (_ & ? & ?)]; [congruence | done].
  - apply IH; [by apply Inv_chainStep | by apply draining_chainStep |
               by apply idle_chainStep].
Qed.

(** With enough fuel the drain loop plays every key and reports idle. *)
Lemma drainLoop_finishes exp c0 n w :
  Inv w → draining exp c0 w → (fuelOf w ≤ n)%nat →
  isSeqPlaying (drainLoop n w) = false
  ∧ seqPlayed (drainLoop n w) = exp
  ∧ idleCount (drainLoop n w) = S c0.
Proof.
  revert w. induction n as [| n IH]; intros w H Hd Hfuel.
  - destruct (isSeqPlaying w) eqn:Hplay; [| by apply drainLoop_done].
    exfalso. destruct Hd as [(_ & _ & _ & t & Ht & Hc) | (? & _)]; [| congruence].
    pose proof (sum_list_with_in t weight (timers w) Ht) as Hle.
    unfold fuelOf in Hfuel. unfold weight at 1 in Hle.
    destruct (tm_cb t); try done; lia.
  - destruct (isSeqPlaying w) eqn:Hplay; [| by apply drainLoop_done].
    cbn [drainLoop].
    apply IH; [by apply Inv_chainStep | by apply draining_chainStep |].
    destruct Hd as [(_ & _ & _ & Hch) | (? & _)]; [| congruence].
    pose proof (fuel_chainStep w H Hplay Hch). lia.
Qed.

(** *** [enqueueAndPlay] *)

Lemma split_chars_substring n s :
  split_chars (String.substring 0 n s) = take n (split_chars s).
Proof.
  unfold split_chars. revert s. induction n as [| n IH]; intros [| c s]; cbn; try done.
  f_equal. apply IH.
Qed.

Lemma split_chars_symbols s : Forall isSymbol (split_chars s).
Proof.
  unfold split_chars. induction s as [| c s IH]; cbn; [constructor |].
  by constructor.
Qed.

Lemma split_chars_nonempty s : s ≠ "" → take 128 (split_chars s) ≠ [].
Proof. by destruct s. Qed.

(** The keys of the example text. *)
Example keysOf_12a3 : keysOf "12a3" = ["1"; "2"; "3"].
Proof. vm_compute. reflexivity. Qed.

(** C6, as the code has it, for a non-empty text: the queue becomes the
    first 128 symbols of the text, one symbol each; the timer recorded in
    [seqTimer] is cancelled, the playing flag is set and the drain begins
    within the call. From then on, whatever timers fire, the keys played
    followed by the playable keys still queued are the recognized keys of
    the text in input order, idle has not been reported and a timer that
    carries the sequence on is pending, until all keys are played, the
    flag is cleared and idle is reported once. Firing the timers that
    carry the sequence reaches that end. A symbol that is not playable is
    dropped within the drain step that meets it. With 12a3, a duration of
    120 ms and a gap of 40 ms the event loop plays 1, 2, 3 and reports
    idle once. *)
Theorem enqueueAndPlay_drains (d g : Z) (es : list event) (raw : string) :
  raw ≠ "" →
  let w := run es (initWorld d g) in
  let w1 := startSequencePlaybackFromText raw w in
  let queue := take 128 (split_chars raw) in
  let w0 := set_isSeqPlaying true (cancelSequencePlayback (set_seqBuffer queue w)) in
  (length queue ≤ 128)%nat
  ∧ Forall isSymbol queue
  ∧ queue = split_chars (String.substring 0 128 raw)
  ∧ w1 = scheduleNextFromBuffer w0
  ∧ seqBuffer w0 = queue ∧ isSeqPlaying w0 = true ∧ seqTimer w0 = None
  ∧ (∀ id, seqTimer w = Some id → pendingTimer id w0 = None)
  ∧ (∀ es', forallb isTimerEvent es' = true →
       draining (seqPlayed w ++ keysOf raw) (idleCount w) (run es' w1))
  ∧ (∀ n, (fuelOf w1 ≤ n)%nat →
       isSeqPlaying (drainLoop n w1) = false
       ∧ seqPlayed (drainLoop n w1) = seqPlayed w ++ keysOf raw
       ∧ idleCount (drainLoop n w1) = S (idleCount w))
  ∧ (∀ w' k rest,
       isSeqPlaying w' = true → seqBuffer w' = k :: rest → ¬ playable k →
       scheduleNextFromBuffer w' = scheduleNextFromBuffer (set_seqBuffer rest w'))
  ∧ (∀ es' k rest,
       let w' := run es' w1 in
       isSeqPlaying w' = true → seqBuffer w' = k :: rest → playable k →
       seqPlayed (scheduleNextFromBuffer w') = seqPlayed w' ++ [k]
       ∧ seqBuffer (scheduleNextFromBuffer w') = rest
       ∧ currentKey (engine (scheduleNextFromBuffer w')) = Some k
       ∧ isStarted (engine (scheduleNextFromBuffer w')) = true)
  ∧ (let w2 := eventLoop 9 (startSequencePlaybackFromText "12a3" (initWorld 120 40)) in
     seqPlayed w2 = ["1"; "2"; "3"]
     ∧ oscFrequencies w2 = [697; 1209; 697; 1336; 697; 1477]
     ∧ keyStarts w2 =
         [ SetCurrentKey (Some "1"); AppendLog "1"; AddActive "1";
           SetCurrentKey (Some "2"); AppendLog "2"; AddActive "2";
           SetCurrentKey (Some "3"); AppendLog "3"; AddActive "3" ]
     ∧ idleCount w2 = 1%nat
     ∧ isSeqPlaying w2 = false ∧ timers w2 = [] ∧ now w2 = 480).
Proof.
  intros Hraw w w1 queue w0.
  assert (H : Inv w) by apply Inv_run, Inv_init.
  assert (Hq : queue = split_chars (String.substring 0 128 raw))
    by (unfold queue; by rewrite split_chars_substring).
  assert (Hw1 : w1 = scheduleNextFromBuffer w0).
  { unfold w1, startSequencePlaybackFromText. cbn [seqBuffer set_seqBuffer].
    rewrite <- Hq. rewrite decide_False; [done |].
    pose proof (split_chars_nonempty raw Hraw). fold queue in H0. by destruct queue. }
  assert (H0 : Inv w0).
  { unfold w0. apply Inv_set_isSeqPlaying, Inv_cancelSequencePlayback.
    by apply Inv_set_seqBuffer. }
  assert (Hplay0 : isSeqPlaying w0 = true) by reflexivity.
  assert (Hpl0 : seqPlayed w0 = seqPlayed w).
  { unfold w0, cancelSequencePlayback. by destruct (seqTimer _). }
  assert (Hbuf0 : seqBuffer w0 = queue).
  { unfold w0, cancelSequencePlayback. by destruct (seqTimer _). }
  assert (Hi0 : idleCount w0 = idleCount w).
  { unfold w0, cancelSequencePlayback. by destruct (seqTimer _). }
  assert (Hd : draining (seqPlayed w ++ keysOf raw) (idleCount w) w1).
  { rewrite Hw1. unfold keysOf. fold queue. rewrite <- Hpl0, <- Hbuf0, <- Hi0.
    by apply draining_scheduleNextFromBuffer. }
  assert (H1 : Inv w1) by (rewrite Hw1; by apply Inv_scheduleNextFrom).
  split; [unfold queue; rewrite length_take; lia |].
  split; [unfold queue; apply Forall_take, split_chars_symbols |].
  split; [done |]. split; [done |]. split; [done |]. split; [done |].
  split; [unfold w0, cancelSequencePlayback;
          by destruct (seqTimer (set_seqBuffer queue w)) eqn:E |].
  split.
  { intros id Hid. unfold w0, cancelSequencePlayback.
    change (seqTimer (set_seqBuffer queue w)) with (seqTimer w). rewrite Hid.
    apply cleared_not_pending. }
  split; [intros es' Hes; by apply draining_run |].
  split; [intros n Hn; by apply drainLoop_finishes |].
  split.
  { intros w' k rest Hp Hb Hk. unfold scheduleNextFromBuffer. rewrite Hb.
    cbn [scheduleNextFrom seqBuffer set_seqBuffer]. rewrite Hp. cbn [negb].
    destruct (decide (k = "")); [done |].
    destruct (bool_decide (k ∈ validKeys)) eqn:Hv; [| done].
    apply bool_decide_eq_true in Hv. by destruct Hk. }
  split.
  { intros es' k rest w' Hp Hb Hk.
    assert (H' : Inv w') by by apply Inv_run.
    destruct (scheduleNextFromBuffer_spec w' H' Hp)
      as [(Hf & _) | (sk & k0 & rest0 & Hb0 & Hf & _ & Hv & _ & _ & _ & Hcur)].
    - rewrite Hb, filter_cons, decide_True in Hf by done. done.
    - rewrite Hb in Hb0. destruct sk as [| x sk].
      + injection Hb0 as <- <-. unfold seqView in Hv. injection Hv as _ Hv2 Hv3.
        by rewrite Hv2, Hv3.
      + injection Hb0 as <- _. rewrite filter_cons, decide_True in Hf by done. done. }
  vm_compute. repeat split.
Qed.

(** Witness for [enqueueAndPlay_drains]: the text 12a3 on a fresh page. *)
Lemma enqueueAndPlay_drains_witness :
  "12a3" ≠ ""
  ∧ seqPlayed (drainLoop 20 (startSequencePlaybackFromText "12a3" (initWorld 120 40)))
    = ["1"; "2"; "3"]
  ∧ idleCount (drainLoop 20 (startSequencePlaybackFromText "12a3" (initWorld 120 40)))
    = 1%nat.
Proof.
  assert (Hne : "12a3" ≠ "") by discriminate.
  split; [exact Hne |].
  destruct (enqueueAndPlay_drains 120 40 [] "12a3" Hne)
    as (_ & _ & _ & _ & _ & _ & _ & _ & _ & Hn & _).
  assert (Hfuel : (fuelOf (startSequencePlaybackFromText "12a3"
                             (run [] (initWorld 120 40))) ≤ 20)%nat).
  { vm_compute. lia. }
  destruct (Hn 20%nat Hfuel) as (_ & Hp & Hi). split; [exact Hp | exact Hi].
Defined.

(** C6, counterexample: with an empty text nothing but the queue changes.
    During the first gap of the sequence 12 the gap timer stays pending
    and recorded; on a fresh page the playing flag is not set and idle is
    not reported. *)
Lemma enqueue_empty_discards_no_timer :
  let w := run [PlaySeqClick "12"; Advance 120; Fire 1] (initWorld 120 40) in
  let w1 := startSequencePlaybackFromText "" w in
  seqTimer w = Some 3%nat
  ∧ pendingTimer 3 w = Some {| tm_id := 3; tm_due := 160; tm_cb := CbNext |}
  ∧ pendingTimer 3 w1 = Some {| tm_id := 3; tm_due := 160; tm_cb := CbNext |}
  ∧ seqTimer w1 = Some 3%nat
  ∧ isSeqPlaying (startSequencePlaybackFromText "" (initWorld 120 40)) = false
  ∧ ui (startSequencePlaybackFromText "" (initWorld 120 40)) = [].
Proof. vm_compute. repeat split. Qed.

(** * Further properties of the page *)

(** ** The wiring of the audio graph *)

Lemma Wired_fields w w' :
  masterGain (engine w') = masterGain (engine w) →
  toneGain (engine w') = toneGain (engine w) →
  oscA (engine w') = oscA (engine w) →
  oscB (engine w') = oscB (engine w) →
  currentKey (engine w') = currentKey (engine w) →
  isStarted (engine w') = isStarted (engine w) →
  masterVolume (engine w') = masterVolume (engine w) →
  cadenceTimeoutId (engine w') = cadenceTimeoutId (engine w) →
  nodes w' = nodes w →
  Wired w → Wired w'.
Proof.
  intros E1 E2 E3 E4 E5 E6 E7 E8 E9 [H1 H2 H3 H4 H5 H6].
  constructor; rewrite ?E1, ?E2, ?E3, ?E4, ?E5, ?E6, ?E7, ?E8, ?E9; assumption.
Qed.

Lemma Wired_engine w w' : engine w' = engine w → Wired w → Wired w'.
Proof.
  intros He. apply Wired_fields; unfold nodes; by rewrite He.
Qed.

Lemma soundsCurrent_engine w w' :
  engine w' = engine w → soundsCurrent w → soundsCurrent w'.
Proof.
  unfold soundsCurrent, soundingFrequencies, nodes. by intros ->.
Qed.

Lemma Good_engine w w' : Inv w' → engine w' = engine w → Good w → Good w'.
Proof.
  intros H' He (_ & W & S). split; [done |].
  split; [by apply (Wired_engine w) | by apply (soundsCurrent_engine w)].
Qed.

Lemma Good_init d g : Good (initWorld d g).
Proof.
  split; [apply Inv_init |]. split; [| done].
  constructor; try done. intros i [? | [? | ?]]; done.
Qed.

Lemma soundOf_dead (ns : list AudioNode) :
  (∀ i n, ns !! i = Some n → node_alive n = false) → omap soundOf ns = [].
Proof.
  induction ns as [| n ns IH]; intros H; [done |].
  assert (Hn : soundOf n = None).
  { specialize (H 0%nat n eq_refl). destruct n as [gn | o]; [done |].
    cbn in H |- *. by rewrite H. }
  change (omap soundOf (n :: ns))
    with (match soundOf n with Some y => y :: omap soundOf ns | None => omap soundOf ns end).
  rewrite Hn. apply IH. intros i n' Hi. exact (H (S i) n' Hi).
Qed.

Lemma soundOf_set_gain v n : soundOf (node_set_gain v n) = soundOf n.
Proof. by destruct n. Qed.

Lemma sounding_alter (f : AudioNode → AudioNode) i (ns : list AudioNode) :
  (∀ n, soundOf (f n) = soundOf n) → omap soundOf (alter f i ns) = omap soundOf ns.
Proof.
  intros Hf. revert i. induction ns as [| n ns IH]; intros [| i]; try done.
  - change (omap soundOf (f n :: ns) = omap soundOf (n :: ns)).
    change (match soundOf (f n) with Some y => y :: omap soundOf ns | None => omap soundOf ns end
            = match soundOf n with Some y => y :: omap soundOf ns | None => omap soundOf ns end).
    by rewrite Hf.
  - change (match soundOf n with
            | Some y => y :: omap soundOf (alter f i ns)
            | None => omap soundOf (alter f i ns)
            end
            = match soundOf n with Some y => y :: omap soundOf ns | None => omap soundOf ns end).
    by rewrite IH.
Qed.

(** A page that is not started sounds nothing. *)
Lemma silent_sounding w :
  Inv w → isStarted (engine w) = false → soundingFrequencies w = [].
Proof.
  intros H Hst. apply soundOf_dead.
  by destruct (stopped_is_silent w H Hst) as (_ & _ & _ & ?).
Qed.

Lemma Wired_stopTone w : Inv w → Wired w → Wired (stopTone w).
Proof.
  intros H W. destruct (isStarted (engine w)) eqn:Hst;
    [| unfold stopTone; by rewrite Hst].
  destruct (stopTone_started w Hst)
    as (Hns & _ & Hs & Hck & Hcid & Hoa & Hob & Htg & Hmg & _).
  destruct (stopTone_keeps w) as [Hmv _].
  destruct W as [W1 W2 W3 W4 W5 W6].
  constructor; rewrite ?Hs, ?Hck, ?Hcid, ?Hoa, ?Hob, ?Htg, ?Hmg, ?Hmv; try done.
  - intros mg Hm. destruct (W1 mg Hm) as [-> Hn]. split; [done |].
    rewrite Hns, teardown_other; [done |].
    intros i Hi. specialize (W2 i Hi). lia.
  - intros i [? | [? | ?]]; done.
Qed.

Lemma soundsCurrent_stopTone w : Inv w → soundsCurrent (stopTone w).
Proof.
  intros H. unfold soundsCurrent.
  pose proof (Inv_stopTone w H) as H'.
  rewrite (silent_sounding _ H' (stopTone_off w)).
  by rewrite (inv_key _ H' (stopTone_off w)).
Qed.

Lemma Wired_ensureContext w : Wired w → Wired (ensureContext w).
Proof.
  intros W.
  destruct (ensureContext_spec w)
    as (_ & _ & _ & Hs & Hck & Hcid & Hoa & Hob & Htg & Hmv & _ & _ & Hnew & Hold).
  destruct (audioContext (engine w)) as [c |] eqn:Hc.
  - destruct Hold as [Hmg Hns]; [done |]. revert W. by apply Wired_fields.
  - destruct Hnew as [Hmg Hns]; [done |].
    assert (Hnil : nodes w = []) by (unfold nodes; by rewrite Hc).
    destruct W as [W1 W2 W3 W4 W5 W6].
    constructor; rewrite ?Hs, ?Hck, ?Hcid, ?Hoa, ?Hob, ?Htg, ?Hmv; try done.
    + rewrite Hmg, Hns. intros mg [= <-]. done.
    + intros g Hg. destruct (W3 g Hg) as (gn & Hn & _).
      rewrite Hnil, lookup_nil in Hn. done.
Qed.

Lemma soundsCurrent_ensureContext w : soundsCurrent w → soundsCurrent (ensureContext w).
Proof.
  unfold soundsCurrent, soundingFrequencies.
  destruct (ensureContext_spec w)
    as (_ & _ & _ & _ & Hck & _ & _ & _ & _ & _ & Hdp & _ & Hnew & Hold).
  rewrite Hck, Hdp. intros <-.
  destruct (audioContext (engine w)) as [c |] eqn:Hc.
  - destruct Hold as [_ ->]; done.
  - destruct Hnew as [_ ->]; [done |]. unfold nodes. by rewrite Hc.
Qed.

(** A lookup result with a numeric frequency belongs to one of the
    thirteen keys. *)
Lemma lookup_numeric_valid p key spec fa :
  getFrequenciesForKey p key = Some spec → a spec = JNum fa → key ∈ validKeys.
Proof.
  intros Hl Ha. destruct (decide (key ∈ validKeys)) as [| Hout]; [done |].
  exfalso. destruct (tables_miss key Hout) as [Hlow Hhigh].
  assert (key ≠ "*" ∧ key ≠ "/") as [H1 H2].
  { split; intros ->; apply Hout; apply validKeys_spec; in_list. }
  revert Hl. unfold getFrequenciesForKey, getProp.
  rewrite !decide_False by done. rewrite Hlow, Hhigh.
  case_bool_decide; cbn; [| done]. intros [= <-]. done.
Qed.

Lemma Wired_wireTone key spec mg w :
  getFrequenciesForKey (dialPreset (engine w)) key = Some spec →
  Inv w → Wired w → isStarted (engine w) = false →
  audioContext (engine w) ≠ None → masterGain (engine w) = Some mg →
  Wired (snd (wireTone key spec mg w))
  ∧ soundsCurrent (snd (wireTone key spec mg w)).
Proof.
  intros Hl H W Hst Hctx Hmg.
  destruct (stopped_is_silent w H Hst) as (Hck & Hcid & _ & _).
  pose proof (silent_sounding w H Hst) as Hsil.
  destruct (wired_master w W mg Hmg) as [-> Hm0].
  assert (Hlen : (0 < length (nodes w))%nat) by (by apply lookup_lt_Some in Hm0).
  destruct W as [W1 W2 W3 W4 W5 W6].
  destruct (lookup_shape _ key spec Hl) as [(fa & Ha & Hb) | Ha].
  - destruct (wireTone_normal key spec 0%nat w fa Hctx Ha Hb)
      as (_ & _ & Hns & Htg & Hoa & Hob & Hck' & _ & Hmg' & Hmv & Hdp & _ & Hcid' & _).
    split.
    + constructor; rewrite ?Hck', ?Hmg', ?Hmv, ?Htg, ?Hoa, ?Hcid'.
      * intros mg' Hm'. rewrite Hmg in Hm'. injection Hm' as <-. split; [done |].
        by rewrite Hns, lookup_app_l.
      * intros i [Hi | [Hi | Hi]]; [injection Hi as <-; lia | injection Hi as <-; lia |].
        rewrite Hob in Hi. destruct (b spec); try (apply W2; by auto).
        injection Hi as <-. lia.
      * intros g [= <-]. eexists. rewrite Hns, lookup_app_r by done.
        rewrite Nat.sub_diag. split; [reflexivity | done].
      * intros k [= <-]. by apply (lookup_numeric_valid _ _ _ _ Hl Ha).
      * done.
      * intros Hne. destruct (cadence spec) as [c |] eqn:Hc; [| by rewrite Hcid in Hne].
        by destruct (cadenced_is_busy _ _ _ _ Hl Hc) as [-> _].
    + unfold soundsCurrent, soundingFrequencies. rewrite Hns, Hck', Hdp.
      rewrite omap_app. fold (soundingFrequencies w). rewrite Hsil.
      cbn [toneOf]. rewrite Hl. unfold specFrequencies, toneNodes. rewrite Ha.
      destruct Hb as [-> | (fb & -> & Hfb)]; [done |].
      apply Z.eqb_neq in Hfb. cbn. by rewrite Hfb.
  - destruct (wireTone_threw key spec 0%nat w Hctx Ha)
      as (_ & _ & Hns & Htg & Hoa & Hob & Hck' & Hs' & Hmg' & Hmv & Hdp & _ & Hcid' & _).
    split.
    + constructor; rewrite ?Hs', ?Hck', ?Hmg', ?Hmv, ?Htg, ?Hoa, ?Hob, ?Hcid'; try done.
      * intros mg' Hm'. rewrite Hmg in Hm'. injection Hm' as <-. split; [done |].
        by rewrite Hns, lookup_app_l.
      * intros i [Hi | [Hi | Hi]]; [injection Hi as <-; lia | injection Hi as <-; lia |].
        apply W2. auto.
      * intros g [= <-]. eexists. rewrite Hns, lookup_app_r by done.
        rewrite Nat.sub_diag. split; [reflexivity | done].
    + unfold soundsCurrent, soundingFrequencies. rewrite Hns, Hck', Hdp, Hck.
      rewrite omap_app. fold (soundingFrequencies w). by rewrite Hsil.
Qed.

(** Starting a tone re-establishes what sounds: it needs the sound of the
    page it starts from only when the key has no tone. *)
Lemma Good_startToneForKey key w :
  Inv w → Wired w →
  soundsCurrent w ∨ getFrequenciesForKey (dialPreset (engine w)) key ≠ None →
  Good (snd (startToneForKey key w)).
Proof.
  intros H W S. split; [by apply Inv_startToneForKey |].
  destruct (getFrequenciesForKey (dialPreset (engine w)) key) as [spec |] eqn:Hl.
  2: { unfold startToneForKey. rewrite Hl. cbn [snd]. by destruct S. }
  destruct (startToneForKey_unfold key spec w H Hl) as (mg & -> & Hmg & Hctx).
  apply (Wired_wireTone key spec mg); try done.
  - destruct (stopTone_keeps (ensureContext w)) as [_ ->].
    destruct (ensureContext_spec w)
      as (_ & _ & _ & _ & _ & _ & _ & _ & _ & _ & Hdp & _).
    by rewrite Hdp.
  - apply Inv_stopTone, Inv_ensureContext, H.
  - apply Wired_stopTone; [by apply Inv_ensureContext | by apply Wired_ensureContext].
  - apply stopTone_off.
Qed.

Lemma Wired_toggle on off isOn w g :
  Wired w → soundsCurrent w → cadenceTimeoutId (engine w) ≠ None →
  audioContext (engine w) ≠ None → toneGain (engine w) = Some g →
  Wired (toggle on off isOn w) ∧ soundsCurrent (toggle on off isOn w).
Proof.
  intros W S Hcad Hctx Htg.
  destruct (toggle_spec on off isOn w g Hctx Htg)
    as (_ & Hns & _ & _ & Hcid' & Hs' & Hck' & Hoa & Hob & Htg' & Hmg & Hmv & Hdp & _).
  assert (Hg : (0 < g)%nat) by (apply (wired_refs w W); auto).
  split.
  - destruct W as [W1 W2 W3 W4 W6 W5].
    constructor; rewrite ?Hs', ?Hck', ?Hmg, ?Hmv, ?Htg', ?Hoa, ?Hob, ?Hcid', ?Hns.
    + intros mg Hm. destruct (W1 mg Hm) as [-> Hn]. split; [done |].
      rewrite list_lookup_alter_ne by lia. exact Hn.
    + rewrite <- Htg. exact W2.
    + intros g' [= <-]. destruct (W3 g Htg) as (gn & Hn & Ho).
      rewrite list_lookup_alter_eq, Hn. eexists. split; [reflexivity | exact Ho].
    + exact W4.
    + exact W6.
    + intros _. by apply W5.
  - unfold soundsCurrent, soundingFrequencies. rewrite Hns, Hck', Hdp.
    rewrite sounding_alter by apply soundOf_set_gain. exact S.
Qed.

Lemma setVolume_spec v w :
  masterVolume (engine (setVolume v w)) = v
  ∧ nodes (setVolume v w) = alter_at (node_set_gain v) (masterGain (engine w)) (nodes w)
  ∧ masterGain (engine (setVolume v w)) = masterGain (engine w)
  ∧ toneGain (engine (setVolume v w)) = toneGain (engine w)
  ∧ oscA (engine (setVolume v w)) = oscA (engine w)
  ∧ oscB (engine (setVolume v w)) = oscB (engine w)
  ∧ currentKey (engine (setVolume v w)) = currentKey (engine w)
  ∧ cadenceTimeoutId (engine (setVolume v w)) = cadenceTimeoutId (engine w)
  ∧ dialPreset (engine (setVolume v w)) = dialPreset (engine w)
  ∧ isStarted (engine (setVolume v w)) = isStarted (engine w)
  ∧ engine_only w (setVolume v w).
Proof.
  destruct_world w. destruct mg, ctx as [[cst ns] |]; run_page; repeat split; done.
Qed.

Lemma Good_setVolume v w : Good w → Good (setVolume v w).
Proof.
  intros (H & W & S). split; [by apply Inv_setVolume |].
  destruct (setVolume_spec v w)
    as (Hmv & Hns & Hmg & Htg & Hoa & Hob & Hck & Hcid & Hdp & Hs & _).
  split.
  - destruct W as [W1 W2 W3 W4 W5 W6].
    constructor; rewrite ?Hs, ?Hck, ?Hmg, ?Hmv, ?Htg, ?Hoa, ?Hob, ?Hcid, ?Hns; try done.
    + intros mg Hm. destruct (W1 mg Hm) as [-> Hn]. split; [done |].
      rewrite Hm. cbn [alter_at]. by rewrite list_lookup_alter_eq, Hn.
    + intros g Hg. destruct (W3 g Hg) as (gn & Hn & Ho). exists gn. split; [| done].
      destruct (masterGain (engine w)) as [mg |] eqn:Hm; [| done].
      destruct (W1 mg eq_refl) as [-> _]. cbn [alter_at].
      rewrite list_lookup_alter_ne; [done |].
      assert (0 < g)%nat by (apply W2; auto). lia.
  - unfold soundsCurrent, soundingFrequencies. rewrite Hns, Hck, Hdp.
    destruct (masterGain (engine w)); cbn [alter_at]; [| exact S].
    rewrite sounding_alter by apply soundOf_set_gain. exact S.
Qed.

(** *** Every handler keeps the wiring *)

Lemma Good_stopTone w : Good w → Good (stopTone w).
Proof.
  intros (H & W & _). split; [by apply Inv_stopTone |].
  split; [by apply Wired_stopTone | by apply soundsCurrent_stopTone].
Qed.

Lemma Good_triggerKeyDown k w : Good w → Good (triggerKeyDown k w).
Proof.
  intros G. pose proof G as (H & _).
  pose proof (Inv_triggerKeyDown k w H) as H'.
  revert H'. unfold triggerKeyDown.
  lazymatch goal with |- context [startToneForKey k ?w0] => set (wa := w0) end.
  assert (Ga : Good wa).
  { apply (Good_engine w); [subst wa; by inv_frame | done | done]. }
  destruct Ga as (Ha & Wa & Sa).
  pose proof (Good_startToneForKey k wa Ha Wa (or_introl Sa)) as G1.
  destruct (mode wa); [done |].
  destruct (startToneForKey k wa) as [c w1]. cbn [snd] in G1. destruct c; [| done].
  intros H'. by apply (Good_engine w1).
Qed.

Lemma Good_triggerKeyUp k w : Good w → Good (triggerKeyUp k w).
Proof.
  intros G. pose proof G as (H & _).
  pose proof (Inv_triggerKeyUp k w H) as H'.
  revert H'. unfold triggerKeyUp.
  assert (G1 : Good (logUi (RemoveActive k) w)).
  { apply (Good_engine w); [by inv_frame | done | done]. }
  destruct (mode _); [| done]. case_decide; [| done].
  intros H'. apply (Good_engine (stopTone (logUi (RemoveActive k) w))); [done | done |].
  by apply Good_stopTone.
Qed.

Lemma Good_scheduleNextFrom buf w : Good w → Good (scheduleNextFrom buf w).
Proof.
  revert w. induction buf as [| k rest IH]; intros w G; cbn [scheduleNextFrom].
  - destruct (isSeqPlaying w); cbn [negb]; [| done].
    pose proof G as (H & _). apply (Good_engine w); [by inv_frame | done | done].
  - destruct (isSeqPlaying w); cbn [negb]; [| done].
    pose proof G as (H & _).
    assert (Grest : Good (set_seqBuffer rest w)).
    { apply (Good_engine w); [by inv_frame | done | done]. }
    destruct (decide (k = "")); [by apply IH |].
    destruct (bool_decide _); cbn [negb]; [| by apply IH].
    lazymatch goal with |- context [startToneForKey k ?w0] => set (wa := w0) end.
    assert (Ga : Good wa).
    { apply (Good_engine w); [subst wa; by inv_frame | done | done]. }
    destruct Ga as (Ha & Wa & Sa).
    pose proof (Good_startToneForKey k wa Ha Wa (or_introl Sa)) as G1.
    destruct (startToneForKey k wa) as [c w1].
    cbn [snd] in G1. destruct c; [| done].
    lazymatch goal with |- context [setTimeout (CbToneEnd k) _ ?w0] =>
      set (wb := w0) end.
    assert (Hwb : Inv wb) by (subst wb; inv_frame; apply G1).
    pose proof (Inv_setTimeout (CbToneEnd k) (autoDurationMs wb) wb eq_refl Hwb) as Hw3.
    destruct (setTimeout (CbToneEnd k) (autoDurationMs wb) wb) as [id w2] eqn:E.
    cbn [snd] in Hw3.
    assert (He : engine w2 = engine w1).
    { change w2 with (snd (id, w2)). by rewrite <- E. }
    apply (Good_engine w1); [by apply Inv_setTimeout | | done].
    by rewrite <- He.
Qed.

Lemma Good_cancelSequencePlayback w : Good w → Good (cancelSequencePlayback w).
Proof.
  intros G. pose proof G as (H & _).
  apply (Good_engine w); [by apply Inv_cancelSequencePlayback | | done].
  apply cancelSequencePlayback_engine.
Qed.

Lemma Good_startSequencePlaybackFromText raw w :
  Good w → Good (startSequencePlaybackFromText raw w).
Proof.
  intros G. pose proof G as (H & _). unfold startSequencePlaybackFromText.
  case_decide.
  - apply (Good_engine w); [by inv_frame | done | done].
  - apply Good_scheduleNextFrom.
    lazymatch goal with |- Good (set_isSeqPlaying true (cancelSequencePlayback ?w0)) =>
      set (wa := w0) end.
    assert (Ga : Good wa) by (apply (Good_engine w); [subst wa; by inv_frame | done | done]).
    pose proof (Good_cancelSequencePlayback wa Ga) as Gc.
    apply (Good_engine (cancelSequencePlayback wa)); [inv_frame; apply Gc | done | done].
Qed.

Lemma Good_fire id w : Good w → Good (fire id w).
Proof.
  intros G. pose proof G as (H & W & S).
  pose proof (Inv_fire id w H) as H'. revert H'. unfold fire.
  destruct (pendingTimer id w) as [t |] eqn:Hp; [| done].
  case_decide; [| done].
  destruct (is_cadence (tm_cb t)) eqn:Hc.
  - pose proof (proj1 (pending_cadence id w t H Hp) Hc) as Hcid.
    assert (Hst : isStarted (engine w) = true).
    { destruct (isStarted (engine w)) eqn:E; [done |].
      rewrite (inv_cad w H (inv_key w H E)) in Hcid. done. }
    destruct (inv_gate w H Hst) as (Hctx & g & gn & Htg & _).
    destruct (tm_cb t) as [isOn on off | | | |]; try done. cbn [runCallback].
    intros H'. split; [done |].
    apply (Wired_toggle on off isOn (clearTimeout id w) g); try done.
    + by apply (Wired_engine w).
    + change (engine (clearTimeout id w)) with (engine w). by rewrite Hcid.
  - assert (H1 : Inv (clearTimeout id w)).
    { apply Inv_clearTimeout; [done |]. intros Hcid.
      apply (pending_cadence id w t H Hp) in Hcid. congruence. }
    assert (G1 : Good (clearTimeout id w)) by by apply (Good_engine w).
    pose proof (Good_stopTone _ G1) as G2.
    destruct (tm_cb t) as [| localK | | k | localKey]; try done; cbn [runCallback].
    + set (w0 := if decide (currentKey (engine (clearTimeout id w)) = Some localK)
                 then setCurrentKeyDash (stopTone (clearTimeout id w))
                 else clearTimeout id w).
      assert (G0 : Wired w0 ∧ soundsCurrent w0).
      { subst w0. case_decide; [| apply G1].
        split; [apply (Wired_engine (stopTone (clearTimeout id w)))
               | apply (soundsCurrent_engine (stopTone (clearTimeout id w)))];
          solve [reflexivity | apply G2]. }
      destruct G0 as [W0 S0]. intros H'. split; [done |].
      split; [by apply (Wired_engine w0) | by apply (soundsCurrent_engine w0)].
    + intros _. by apply Good_scheduleNextFrom.
    + intros H'. by apply (Good_engine (clearTimeout id w)).
    + case_decide; [| done]. intros H'.
      by apply (Good_engine (stopTone (clearTimeout id w))).
Qed.

(** Only the dial tone depends on the preset. *)
Lemma lookup_preset_irrelevant p p' key :
  key ≠ "*" → getFrequenciesForKey p key = getFrequenciesForKey p' key.
Proof.
  intros Hne. unfold getFrequenciesForKey.
  destruct (decide (key = "*")); [done | reflexivity].
Qed.

Lemma Good_step e w : Good w → Good (step e w).
Proof.
  intros G. pose proof G as (H & W & S).
  pose proof (Inv_step e w H) as H'. revert H'.
  destruct e; cbn [step]; intros H'.
  - by apply (Good_engine w).
  - by apply Good_fire.
  - by apply Good_startSequencePlaybackFromText.
  - apply (Good_engine (cancelSequencePlayback w)); [done | done |].
    by apply Good_cancelSequencePlayback.
  - case_decide; [done |]. by apply Good_triggerKeyDown.
  - by apply Good_triggerKeyUp.
  - destruct editable; [done |]. destruct (bool_decide (k ∈ validKeys)); cbn [negb]; [| done].
    assert (G1 : Good (if isSeqPlaying w then cancelSequencePlayback w else w)).
    { destruct (isSeqPlaying w); [by apply Good_cancelSequencePlayback | done]. }
    destruct (_ && _); [done |]. apply Good_triggerKeyDown.
    apply (Good_engine (if isSeqPlaying w then cancelSequencePlayback w else w));
      [inv_frame; apply G1 | done | done].
  - destruct editable; [done |]. destruct (bool_decide (k ∈ validKeys)); cbn [negb]; [| done].
    apply Good_triggerKeyUp.
    apply (Good_engine w); [by inv_frame | done | done].
  - by apply Good_setVolume.
  - revert H'. cbv zeta. change (mode (set_autoDurationMs d w)) with (mode w).
    destruct (mode w); intros H'; by apply (Good_engine w).
  - by apply (Good_engine w).
  - by apply (Good_engine w).
  - set (w1 := setDialPreset p w) in *.
    assert (H1 : Inv w1) by by apply Inv_setDialPreset.
    assert (W1 : Wired w1) by (revert W; by apply Wired_fields).
    destruct (bool_decide (currentKey (engine w1) = Some "*") && isStarted (engine w1))
      eqn:Hcond.
    + apply Good_startToneForKey; [done | done |]. right.
      unfold getFrequenciesForKey. rewrite decide_True by done.
      by destruct (decide _).
    + split; [done |]. split; [done |].
      unfold soundsCurrent.
      change (soundingFrequencies w1) with (soundingFrequencies w).
      change (currentKey (engine w1)) with (currentKey (engine w)) in *.
      change (isStarted (engine w1)) with (isStarted (engine w)) in *.
      change (dialPreset (engine w1)) with p.
      rewrite S. destruct (currentKey (engine w)) as [k |] eqn:Hck; [| done].
      cbn [toneOf]. f_equal. apply lookup_preset_irrelevant. intros ->.
      rewrite bool_decide_eq_true_2 in Hcond by done. cbn in Hcond.
      rewrite (inv_key w H Hcond) in Hck. done.
  - destruct (audioContext (engine w)) as [c |] eqn:Hc; [| done].
    split; [done |].
    assert (Hns : nodes (on_engine (set_audioContext
                    (Some {| ctx_state := suspended; ctx_nodes := ctx_nodes c |})) w)
                  = nodes w).
    { unfold nodes. by rewrite Hc. }
    split; [revert W; by apply Wired_fields |].
    unfold soundsCurrent, soundingFrequencies. rewrite Hns. exact S.
Qed.

Lemma Good_run es w : Good w → Good (run es w).
Proof.
  revert w. induction es as [| e es IH]; intros w G; [done |].
  cbn [run foldl]. by apply IH, Good_step.
Qed.

(** ** The settings *)

Lemma settings_engine_only w w' :
  engine_only w w' →
  masterVolume (engine w') = masterVolume (engine w) →
  dialPreset (engine w') = dialPreset (engine w) →
  settingsOf w' = settingsOf w.
Proof.
  intros Hfr Hmv Hdp. unfold settingsOf. rewrite Hmv, Hdp. by rewrite Hfr.
Qed.

Lemma settings_stopTone w : settingsOf (stopTone w) = settingsOf w.
Proof.
  apply settings_engine_only; [apply stopTone_engine_only | apply stopTone_keeps ..].
Qed.

Lemma settings_ensureContext w : settingsOf (ensureContext w) = settingsOf w.
Proof.
  destruct (ensureContext_spec w)
    as (Hfr & _ & _ & _ & _ & _ & _ & _ & _ & Hmv & Hdp & _).
  by apply settings_engine_only.
Qed.

Lemma wireTone_keeps key spec mg w :
  masterVolume (engine (snd (wireTone key spec mg w))) = masterVolume (engine w)
  ∧ dialPreset (engine (snd (wireTone key spec mg w))) = dialPreset (engine w).
Proof.
  destruct_world w. destruct spec as [va vb cont cad].
  destruct ctx as [[cst ns] |], va, vb, cad as [[on off] |];
    run_page; try done;
    destruct (_ =? _); run_page; done.
Qed.

Lemma toggle_keeps on off isOn w :
  masterVolume (engine (toggle on off isOn w)) = masterVolume (engine w)
  ∧ dialPreset (engine (toggle on off isOn w)) = dialPreset (engine w).
Proof.
  destruct_world w. destruct tg, ctx as [[cst ns] |]; run_page; done.
Qed.

Lemma settings_startToneForKey key w :
  settingsOf (snd (startToneForKey key w)) = settingsOf w.
Proof.
  unfold startToneForKey.
  destruct (getFrequenciesForKey _ key) as [spec |]; [| done].
  destruct (audioContext _); [| apply settings_ensureContext].
  destruct (masterGain _) as [mg |]; [| apply settings_ensureContext].
  rewrite <- (settings_ensureContext w), <- (settings_stopTone (ensureContext w)).
  apply settings_engine_only; [apply wireTone_engine_only | apply wireTone_keeps ..].
Qed.

Lemma settings_toggle on off isOn w : settingsOf (toggle on off isOn w) = settingsOf w.
Proof.
  apply settings_engine_only; [apply toggle_engine_only | apply toggle_keeps ..].
Qed.

Lemma settings_triggerKeyDown k w : settingsOf (triggerKeyDown k w) = settingsOf w.
Proof.
  unfold triggerKeyDown.
  lazymatch goal with |- context [startToneForKey k ?w0] => set (wa := w0) end.
  pose proof (settings_startToneForKey k wa) as Hs.
  change (settingsOf wa) with (settingsOf w) in Hs.
  change (mode wa) with (mode w).
  destruct (mode w); [done |].
  destruct (startToneForKey k wa) as [c w1]. by destruct c.
Qed.

Lemma settings_triggerKeyUp k w : settingsOf (triggerKeyUp k w) = settingsOf w.
Proof.
  unfold triggerKeyUp. destruct (mode _); [| done]. case_decide; [| done].
  apply (settings_stopTone (logUi (RemoveActive k) w)).
Qed.

Lemma settings_scheduleNextFrom buf w :
  settingsOf (scheduleNextFrom buf w) = settingsOf w.
Proof.
  revert w. induction buf as [| k rest IH]; intros w; cbn [scheduleNextFrom].
  - by destruct (isSeqPlaying w).
  - destruct (isSeqPlaying w); cbn [negb]; [| done].
    destruct (decide (k = "")); [by rewrite IH |].
    destruct (bool_decide _); cbn [negb]; [| by rewrite IH].
    lazymatch goal with |- context [startToneForKey k ?w0] => set (wa := w0) end.
    pose proof (settings_startToneForKey k wa) as Hs.
    change (settingsOf wa) with (settingsOf w) in Hs.
    destruct (startToneForKey k wa) as [c w1]. by destruct c.
Qed.

Lemma settings_cancelSequencePlayback w :
  settingsOf (cancelSequencePlayback w) = settingsOf w.
Proof. unfold cancelSequencePlayback. by destruct (seqTimer w). Qed.

Lemma settings_startSequencePlaybackFromText raw w :
  settingsOf (startSequencePlaybackFromText raw w) = settingsOf w.
Proof.
  unfold startSequencePlaybackFromText. case_decide; [done |].
  unfold scheduleNextFromBuffer. rewrite settings_scheduleNextFrom.
  lazymatch goal with |- context [cancelSequencePlayback ?w0] =>
    apply (settings_cancelSequencePlayback w0) end.
Qed.

Lemma settings_fire id w : settingsOf (fire id w) = settingsOf w.
Proof.
  unfold fire. destruct (pendingTimer id w) as [t |]; [| done].
  case_decide; [| done].
  destruct (tm_cb t) as [isOn on off | localK | | k | localKey]; cbn [runCallback].
  - apply (settings_toggle on off isOn (clearTimeout id w)).
  - case_decide; [| done]. apply (settings_stopTone (clearTimeout id w)).
  - unfold scheduleNextFromBuffer. by rewrite settings_scheduleNextFrom.
  - done.
  - case_decide; [| done]. apply (settings_stopTone (clearTimeout id w)).
Qed.

Lemma settings_step e w : settingsOf (step e w) = applySetting e (settingsOf w).
Proof.
  destruct e; cbn [step applySetting]; unfold settingsOf at 2.
  - done.
  - apply settings_fire.
  - apply settings_startSequencePlaybackFromText.
  - apply (settings_cancelSequencePlayback w).
  - case_decide; [done | apply settings_triggerKeyDown].
  - apply settings_triggerKeyUp.
  - destruct editable; [done |]. destruct (bool_decide _); cbn [negb]; [| done].
    assert (Hc : settingsOf (if isSeqPlaying w then cancelSequencePlayback w else w)
                 = settingsOf w).
    { destruct (isSeqPlaying w); [apply settings_cancelSequencePlayback | done]. }
    destruct (_ && _); [done |]. by rewrite settings_triggerKeyDown.
  - destruct editable; [done |]. destruct (bool_decide _); cbn [negb]; [| done].
    by rewrite settings_triggerKeyUp.
  - destruct (setVolume_spec v w) as (Hmv & _ & _ & _ & _ & _ & _ & _ & Hdp & _ & Hfr).
    unfold settingsOf. rewrite Hmv, Hdp. by rewrite Hfr.
  - cbv zeta. change (mode (set_autoDurationMs d w)) with (mode w).
    transitivity (settingsOf (set_autoDurationMs d w)); [by destruct (mode w) | done].
  - done.
  - done.
  - cbv zeta. destruct (_ && _); [| done].
    by rewrite settings_startToneForKey.
  - destruct (audioContext (engine w)); done.
Qed.

Lemma settings_run es w :
  settingsOf (run es w) = foldl (λ s e, applySetting e s) (settingsOf w) es.
Proof.
  revert w. induction es as [| e es IH]; intros w; [done |].
  cbn [run foldl]. unfold run in IH. by rewrite IH, settings_step.
Qed.

Lemma masterVolume_step e w :
  masterVolume (engine (step e w))
  = match e with VolumeInput v => v | _ => masterVolume (engine w) end.
Proof.
  change (masterVolume (engine (step e w))) with (settingsOf (step e w)).1.1.1.1.
  rewrite settings_step. by destruct e.
Qed.

Lemma masterVolume_run es w :
  masterVolume (engine (run es w))
  = foldl (λ v e, match e with VolumeInput v' => v' | _ => v end)
      (masterVolume (engine w)) es.
Proof.
  revert w. induction es as [| e es IH]; intros w; [done |].
  cbn [run foldl]. unfold run in IH. by rewrite IH, masterVolume_step.
Qed.

(** X1: the five settings (volume, dial preset, mode, tone length, gap)
    change by their own controls only: after any events they are what the
    controls among those events made them, each control setting its own
    value; timers, key presses, clicks and sequences leave all five as
    they are. *)
Theorem settings_follow_controls (es : list event) (w : World) :
  settingsOf (run es w) = foldl (λ s e, applySetting e s) (settingsOf w) es
  ∧ (forallb (λ e, negb (isSettingEvent e)) es = true →
     settingsOf (run es w) = settingsOf w).
Proof.
  split; [apply settings_run |].
  rewrite settings_run. generalize (settingsOf w).
  induction es as [| e es IH]; intros s Hes; [done |].
  cbn [forallb] in Hes. apply andb_prop in Hes as [He Hes].
  cbn [foldl]. rewrite IH by done.
  destruct s as [[[[v p] m] d] g]. by destruct e.
Qed.

(** Witness for [settings_follow_controls]: a sequence, a key and timers
    on a page set to 50 % volume. *)
Lemma settings_follow_controls_witness :
  settingsOf (run [PlaySeqClick "12"; Advance 120; Fire 1; KeyDown false "5"]
                (step (VolumeInput (1 # 2)) (initWorld 120 40)))
  = ((1 # 2)%Q, us, hold, 120, 40).
Proof.
  exact (proj2 (settings_follow_controls
                  [PlaySeqClick "12"; Advance 120; Fire 1; KeyDown false "5"]
                  (step (VolumeInput (1 # 2)) (initWorld 120 40))) eq_refl).
Defined.

(** X2: after any events on a fresh page the volume of the engine is the
    last value of the volume slider (0.3 before the slider moves); the
    master gain, once created, is a gain node of that value connected to
    the destination, whether the slider moved before or after the context
    was created; and every sounding oscillator reaches the destination
    through the tone gate and the master gain. *)
Theorem master_gain_follows_slider (d g : Z) (es : list event) :
  let w := run es (initWorld d g) in
  masterVolume (engine w) = lastVolume es
  ∧ (∀ mg, masterGain (engine w) = Some mg →
       nodes w !! mg = Some (NGain {| gain_value := lastVolume es;
                                      gain_out := Some Destination |}))
  ∧ (∀ i n, nodes w !! i = Some n → node_alive n = true →
       ∃ gate gn mg,
         node_out n = Some (ToNode gate)
         ∧ toneGain (engine w) = Some gate
         ∧ nodes w !! gate = Some (NGain gn)
         ∧ gain_out gn = Some (ToNode mg)
         ∧ masterGain (engine w) = Some mg).
Proof.
  intros w.
  destruct (Good_run es (initWorld d g) (Good_init d g)) as (H & W & _). fold w in H, W.
  assert (Hmv : masterVolume (engine w) = lastVolume es) by apply masterVolume_run.
  split; [done |]. split.
  - intros mg Hmg. destruct (wired_master w W mg Hmg) as [-> Hn]. by rewrite <- Hmv.
  - intros i n Hn Ha.
    destruct (inv_alive w H i n Hn Ha) as (Hst & _ & gate & Htg & Hout).
    destruct (wired_gate w W gate Htg) as (gn & Hg & Ho).
    destruct (inv_gate w H Hst) as (Hctx & _).
    pose proof (inv_master w H Hctx) as Hmg.
    destruct (masterGain (engine w)) as [mg |] eqn:Hm; [| done].
    destruct (wired_master w W mg Hm) as [-> _].
    by exists gate, gn, 0%nat.
Qed.

(** X3: after any events on a fresh page, the frequencies that sound are
    exactly those the table gives for the current key under the current
    dial preset, and none when there is no current key; the current key is
    always one of the thirteen keys and is set exactly while the engine is
    started. *)
Theorem sounding_is_tone_of_current_key (d g : Z) (es : list event) :
  let w := run es (initWorld d g) in
  soundingFrequencies w = toneOf (dialPreset (engine w)) (currentKey (engine w))
  ∧ (∀ k, currentKey (engine w) = Some k →
       k ∈ validKeys ∧ isStarted (engine w) = true)
  ∧ (currentKey (engine w) = None →
       isStarted (engine w) = false ∧ soundingFrequencies w = []).
Proof.
  intros w.
  destruct (Good_run es (initWorld d g) (Good_init d g)) as (H & W & S). fold w in H, W, S.
  split; [exact S |]. split.
  - intros k Hk. split; [by apply (wired_key w W) |].
    destruct (isStarted (engine w)) eqn:Hst; [done |].
    rewrite (inv_key w H Hst) in Hk. done.
  - intros Hk. rewrite S, Hk. split; [| done].
    destruct (isStarted (engine w)) eqn:Hst; [| done].
    by destruct (wired_started w W Hst).
Qed.

(** At most one timer of a list without repeated ids has a given id. *)
Lemma one_timer_per_id (P : Timer → Prop) `{∀ t, Decision (P t)} id (ts : list Timer) :
  NoDup (tm_id <$> ts) → (∀ t, t ∈ ts → P t → tm_id t = id) →
  (length (filter P ts) ≤ 1)%nat.
Proof.
  induction ts as [| t ts IH]; intros Hnd Hid; [cbn; lia |].
  apply NoDup_cons in Hnd as [Ht Hnd].
  assert (IH' := IH Hnd (λ t' Ht', Hid t' (list_elem_of_further _ _ _ Ht'))).
  rewrite filter_cons. case_decide as HP; [| done].
  assert (Hnil : filter P ts = []).
  { destruct (filter P ts) as [| t' rest] eqn:Hf; [done |]. exfalso.
    assert (Hin : t' ∈ filter P ts) by (rewrite Hf; left).
    apply list_elem_of_filter in Hin as [HP' Hin].
    apply Ht. rewrite (Hid t (list_elem_of_here _ _) HP).
    rewrite <- (Hid t' (list_elem_of_further _ _ _ Hin) HP').
    by apply list_elem_of_fmap_2. }
  rewrite Hnil. cbn. lia.
Qed.

(** X4: after any events on a fresh page at most one cadence toggle is
    pending, it is the one the engine holds the handle of, and it is only
    pending while [/] is the current key of a started engine, the two
    oscillators of the fast busy tone sounding 480 Hz and 620 Hz. *)
Theorem cadence_only_while_busy (d g : Z) (es : list event) :
  let w := run es (initWorld d g) in
  (length (cadenceTimers w) ≤ 1)%nat
  ∧ (∀ t, t ∈ cadenceTimers w →
       cadenceTimeoutId (engine w) = Some (tm_id t)
       ∧ currentKey (engine w) = Some "/"
       ∧ isStarted (engine w) = true
       ∧ soundingFrequencies w = [480; 620])
  ∧ (currentKey (engine w) ≠ Some "/" → cadenceTimers w = []).
Proof.
  intros w.
  destruct (Good_run es (initWorld d g) (Good_init d g)) as (H & W & S). fold w in H, W, S.
  assert (Hall : ∀ t, t ∈ cadenceTimers w →
            cadenceTimeoutId (engine w) = Some (tm_id t)
            ∧ currentKey (engine w) = Some "/"
            ∧ isStarted (engine w) = true
            ∧ soundingFrequencies w = [480; 620]).
  { intros t [Hc Ht]%list_elem_of_filter.
    pose proof (inv_cad_timer w H t Ht Hc) as Hcid.
    assert (Hck : currentKey (engine w) = Some "/").
    { apply (wired_cadence w W). by rewrite Hcid. }
    split; [done |]. split; [done |]. split.
    - destruct (isStarted (engine w)) eqn:Hst; [done |].
      rewrite (inv_key w H Hst) in Hck. done.
    - rewrite S, Hck. reflexivity. }
  split; [| split; [exact Hall |]].
  - destruct (cadenceTimeoutId (engine w)) as [id |] eqn:Hcid.
    + apply (one_timer_per_id _ id); [apply H |].
      intros t Ht Hc. pose proof (inv_cad_timer w H t Ht Hc). congruence.
    + apply (one_timer_per_id _ 0%nat); [apply H |].
      intros t Ht Hc. pose proof (inv_cad_timer w H t Ht Hc). congruence.
  - intros Hne. destruct (cadenceTimers w) as [| t ts] eqn:Hf; [done |].
    destruct (Hall t) as (_ & Hck & _); [left | done].
Qed.

(** ** Keys and pointers *)

Lemma settings_step_other e w :
  isSettingEvent e = false →
  mode (step e w) = mode w
  ∧ dialPreset (engine (step e w)) = dialPreset (engine w)
  ∧ autoDurationMs (step e w) = autoDurationMs w
  ∧ gapMs (step e w) = gapMs w.
Proof.
  intros He. pose proof (settings_step e w) as Hs.
  assert (Ha : applySetting e (settingsOf w) = settingsOf w) by by destruct e.
  rewrite Ha in Hs. unfold settingsOf in Hs. by injection Hs.
Qed.

(** A press of a recognized key makes it the current key of a started
    engine, in either mode. *)
Lemma triggerKeyDown_valid k w :
  Inv w → k ∈ validKeys →
  currentKey (engine (triggerKeyDown k w)) = Some k
  ∧ isStarted (engine (triggerKeyDown k w)) = true
  ∧ pressedKeys (triggerKeyDown k w) = pressedKeys w
  ∧ seqView (triggerKeyDown k w) = seqView w.
Proof.
  intros H Hk. split; [| split; [| split; [| apply seqView_triggerKeyDown]]];
    unfold triggerKeyDown;
    (lazymatch goal with |- context [startToneForKey k ?w0] => set (wa := w0) end);
    (assert (Ha : Inv wa) by (subst wa; by inv_frame));
    destruct (startToneForKey_valid k wa Ha Hk) as (Hn & Hck & Hst);
    pose proof (startToneForKey_engine_only k wa) as Hfr;
    (destruct (mode wa);
      [| destruct (startToneForKey k wa) as [c w1]; cbn [fst snd] in *; subst c ]);
    try done; by rewrite Hfr.
Qed.

(** A release in auto mode, or of a key that is not the current one, only
    removes the highlight. *)
Lemma triggerKeyUp_other k w :
  mode w = auto ∨ currentKey (engine w) ≠ Some k →
  triggerKeyUp k w = logUi (RemoveActive k) w.
Proof.
  intros Hc. unfold triggerKeyUp.
  change (mode (logUi (RemoveActive k) w)) with (mode w).
  change (engine (logUi (RemoveActive k) w)) with (engine w).
  destruct (mode w); [| done]. destruct Hc as [? | Hne]; [done |].
  by rewrite decide_False.
Qed.

(** The release of the current key in hold mode stops the tone. *)
Lemma triggerKeyUp_current k w :
  Good w → mode w = hold → currentKey (engine w) = Some k →
  let w' := triggerKeyUp k w in
  isStarted (engine w') = false
  ∧ currentKey (engine w') = None
  ∧ soundingFrequencies w' = []
  ∧ ui w' = ui w ++ [RemoveActive k; SetCurrentKey None; SetStatus StIdle].
Proof.
  intros G Hm Hck w'.
  assert (Hw' : w' = setStatus StIdle (setCurrentKeyDash (stopTone (logUi (RemoveActive k) w)))).
  { unfold w', triggerKeyUp.
    change (mode (logUi (RemoveActive k) w)) with (mode w).
    change (engine (logUi (RemoveActive k) w)) with (engine w).
    by rewrite Hm, decide_True. }
  set (w1 := logUi (RemoveActive k) w) in *.
  assert (H1 : Inv w1) by (unfold w1; inv_frame; apply G).
  pose proof (Inv_stopTone w1 H1) as H2.
  pose proof (stopTone_off w1) as Hoff.
  rewrite Hw'. split; [exact Hoff |]. split; [exact (inv_key _ H2 Hoff) |].
  split; [exact (silent_sounding _ H2 Hoff) |].
  unfold setStatus, setCurrentKeyDash, logUi. cbn [ui set_ui].
  rewrite (ui_engine_only _ _ (stopTone_engine_only w1)).
  unfold w1, logUi. cbn [ui set_ui]. by rewrite <- !app_assoc.
Qed.

Lemma cancelSequencePlayback_page w :
  pressedKeys (cancelSequencePlayback w) = pressedKeys w
  ∧ mode (cancelSequencePlayback w) = mode w
  ∧ isSeqPlaying (cancelSequencePlayback w) = false.
Proof. unfold cancelSequencePlayback. by destruct (seqTimer w). Qed.

(** The page a key press finds once a playing sequence was cancelled. *)
Lemma cancel_if_playing w :
  let w' := if isSeqPlaying w then cancelSequencePlayback w else w in
  pressedKeys w' = pressedKeys w ∧ mode w' = mode w ∧ isSeqPlaying w' = false
  ∧ engine w' = engine w.
Proof.
  destruct (cancelSequencePlayback_page w) as (? & ? & ?).
  pose proof (cancelSequencePlayback_engine w).
  by destruct (isSeqPlaying w) eqn:E.
Qed.

Lemma triggerKeyDown_page k w :
  pressedKeys (triggerKeyDown k w) = pressedKeys w
  ∧ mode (triggerKeyDown k w) = mode w.
Proof.
  split.
  - unfold triggerKeyDown.
    lazymatch goal with |- context [startToneForKey k ?w0] => set (wa := w0) end.
    pose proof (startToneForKey_engine_only k wa) as Hfr.
    destruct (mode wa); [by rewrite Hfr |].
    destruct (startToneForKey k wa) as [c w1]. cbn [snd] in Hfr.
    destruct c; by rewrite Hfr.
  - pose proof (settings_triggerKeyDown k w) as Hs. unfold settingsOf in Hs.
    by injection Hs.
Qed.

(** The auto-repeat of a held key in hold mode: at most a playing
    sequence is cancelled. *)
Lemma keydown_pressed k w :
  k ∈ validKeys → k ∈ pressedKeys w → mode w = hold →
  step (KeyDown false k) w = if isSeqPlaying w then cancelSequencePlayback w else w.
Proof.
  intros Hk Hp Hm. cbn [step]. rewrite bool_decide_eq_true_2 by done. cbn [negb].
  destruct (cancel_if_playing w) as (Hpk & Hmd & _).
  cbv zeta in Hpk, Hmd. rewrite Hpk, Hmd.
  by rewrite !bool_decide_eq_true_2.
Qed.

(** A key that is not held, or any key in auto mode, is pressed. *)
Lemma keydown_fresh k w :
  k ∈ validKeys → k ∉ pressedKeys w ∨ mode w = auto →
  step (KeyDown false k) w =
    triggerKeyDown k
      (set_pressedKeys ({[k]} ∪ pressedKeys w)
         (if isSeqPlaying w then cancelSequencePlayback w else w)).
Proof.
  intros Hk Hp. cbn [step]. rewrite bool_decide_eq_true_2 by done. cbn [negb].
  destruct (cancel_if_playing w) as (Hpk & Hmd & _).
  cbv zeta in Hpk, Hmd. rewrite Hpk, Hmd.
  destruct Hp as [Hp | Hm].
  - by rewrite (bool_decide_eq_false_2 (k ∈ pressedKeys w)).
  - rewrite Hm. by rewrite andb_false_r.
Qed.

(** X6: in hold mode, once a recognized key is down, its auto-repeat
    changes nothing: however often the keydown of the same key repeats,
    and whatever key events arrive meanwhile with an editable target or
    focus, the page stays exactly as the first keydown left it; no tone
    is restarted and nothing is logged again. *)
Theorem held_key_does_not_retrigger (w : World) (k : string) (es : list event) :
  k ∈ validKeys → mode w = hold → forallb (ignoredWhileHeld k) es = true →
  let w1 := step (KeyDown false k) w in
  k ∈ pressedKeys w1 ∧ isSeqPlaying w1 = false ∧ run es w1 = w1.
Proof.
  intros Hk Hm Hes w1.
  destruct (cancel_if_playing w) as (Hpk & Hmd & Hidle & _). cbv zeta in Hpk, Hmd, Hidle.
  assert (Hw1 : k ∈ pressedKeys w1 ∧ mode w1 = hold ∧ isSeqPlaying w1 = false).
  { destruct (decide (k ∈ pressedKeys w)) as [Hin | Hout].
    - unfold w1. rewrite keydown_pressed by done. by rewrite Hpk, Hmd, Hidle.
    - unfold w1. rewrite keydown_fresh by auto.
      lazymatch goal with |- context [triggerKeyDown k ?w0] => set (wa := w0) end.
      destruct (triggerKeyDown_page k wa) as [-> ->].
      pose proof (seqView_triggerKeyDown k wa) as Hv. unfold seqView in Hv.
      injection Hv as -> _ _.
      change (pressedKeys wa) with ({[k]} ∪ pressedKeys w).
      change (mode wa) with (mode (if isSeqPlaying w then cancelSequencePlayback w else w)).
      change (isSeqPlaying wa)
        with (isSeqPlaying (if isSeqPlaying w then cancelSequencePlayback w else w)).
      rewrite Hmd, Hidle.
      split; [apply elem_of_union; left; by apply elem_of_singleton | done]. }
  destruct Hw1 as (Hin & Hm1 & Hidle1). split; [done |]. split; [done |].
  clearbody w1. induction es as [| e es IH]; [done |].
  cbn [forallb] in Hes. apply andb_prop in Hes as [He Hes].
  cbn [run foldl]. unfold run in IH.
  assert (Hstep : step e w1 = w1).
  { destruct e; try discriminate He; cbn [ignoredWhileHeld] in He.
    - destruct editable; [done |]. cbn in He. apply bool_decide_eq_true in He. subst k0.
      rewrite keydown_pressed by done. by rewrite Hidle1.
    - by subst editable. }
  rewrite Hstep. by apply IH.
Qed.

(** Witness for [held_key_does_not_retrigger]: the key [5] held down
    while a sequence plays; three repeats and a keyup in the input field. *)
Lemma held_key_does_not_retrigger_witness :
  let w := run [PlaySeqClick "12"] (initWorld 120 40) in
  let w1 := step (KeyDown false "5") w in
  run [KeyDown false "5"; KeyDown false "5"; KeyUp true "5"; KeyDown false "5"] w1 = w1.
Proof.
  refine (proj2 (proj2 (held_key_does_not_retrigger
            (run [PlaySeqClick "12"] (initWorld 120 40)) "5"
            [KeyDown false "5"; KeyDown false "5"; KeyUp true "5"; KeyDown false "5"]
            _ eq_refl eq_refl))).
  apply (bool_decide_unpack _). vm_compute. exact I.
Defined.

Lemma keyup_valid k w :
  k ∈ validKeys →
  step (KeyUp false k) w = triggerKeyUp k (set_pressedKeys (pressedKeys w ∖ {[k]}) w).
Proof. intros Hk. cbn [step]. by rewrite bool_decide_eq_true_2. Qed.

Lemma pressedKeys_keydown k k' w :
  k' ≠ k → k' ∉ pressedKeys w → k' ∉ pressedKeys (step (KeyDown false k) w).
Proof.
  intros Hne Hout.
  destruct (cancel_if_playing w) as (Hpk & _). cbv zeta in Hpk.
  destruct (decide (k ∈ validKeys)) as [Hk | Hk].
  2: { cbn [step]. by rewrite bool_decide_eq_false_2. }
  destruct (decide (k ∈ pressedKeys w ∧ mode w = hold)) as [[Hin Hm] | Hnot].
  - rewrite keydown_pressed by done. by rewrite Hpk.
  - rewrite keydown_fresh; [| done |].
    + lazymatch goal with |- context [triggerKeyDown k ?w0] => set (wa := w0) end.
      destruct (triggerKeyDown_page k wa) as [-> _].
      change (pressedKeys wa) with ({[k]} ∪ pressedKeys w).
      rewrite elem_of_union, elem_of_singleton. tauto.
    + destruct (decide (k ∈ pressedKeys w)); [| by left].
      right. destruct (mode w); [| done]. by destruct Hnot.
Qed.

Lemma validKeys_nonempty k : k ∈ validKeys → k ≠ "".
Proof.
  rewrite validKeys_spec. intros Hin ->.
  repeat (apply elem_of_cons in Hin as [Hin | Hin]; [discriminate Hin |]).
  by apply elem_of_nil in Hin.
Qed.

(** The first keydown of a recognized key starts its tone. *)
Lemma keydown_starts k w :
  Good w → k ∈ validKeys → k ∉ pressedKeys w ∨ mode w = auto →
  let w' := step (KeyDown false k) w in
  currentKey (engine w') = Some k ∧ isStarted (engine w') = true.
Proof.
  intros G Hk Hp w'. unfold w'. rewrite keydown_fresh by done.
  lazymatch goal with |- context [triggerKeyDown k ?w0] => set (wa := w0) end.
  assert (Ha : Inv wa).
  { subst wa. inv_frame. destruct G as (H & _).
    destruct (isSeqPlaying w); [by apply Inv_cancelSequencePlayback | done]. }
  by destruct (triggerKeyDown_valid k wa Ha Hk) as (? & ? & _).
Qed.

(** X7: rollover in hold mode. After any events on a fresh page, when a
    second recognized key goes down while a first is held, its tone
    replaces the first one; the release of the first key then leaves the
    tone of the second sounding, and only the release of the second key
    brings silence. *)
Theorem hold_mode_rollover (d g : Z) (es : list event) (k1 k2 : string) :
  let w := run es (initWorld d g) in
  mode w = hold → k1 ∈ validKeys → k2 ∈ validKeys → k1 ≠ k2 →
  k2 ∉ pressedKeys w →
  let w1 := run [KeyDown false k1; KeyDown false k2; KeyUp false k1] w in
  let w2 := step (KeyUp false k2) w1 in
  currentKey (engine w1) = Some k2
  ∧ isStarted (engine w1) = true
  ∧ soundingFrequencies w1 = toneOf (dialPreset (engine w)) (Some k2)
  ∧ currentKey (engine w2) = None
  ∧ isStarted (engine w2) = false
  ∧ soundingFrequencies w2 = [].
Proof.
  intros w Hm Hk1 Hk2 Hne Hout w1 w2.
  assert (G : Good w) by apply Good_run, Good_init.
  set (wA := step (KeyDown false k1) w).
  set (wB := step (KeyDown false k2) wA).
  assert (Hw1 : w1 = step (KeyUp false k1) wB) by reflexivity.
  assert (GA : Good wA) by by apply Good_step.
  assert (GB : Good wB) by by apply Good_step.
  assert (G1 : Good w1) by (rewrite Hw1; by apply Good_step).
  destruct (settings_step_other (KeyDown false k1) w eq_refl) as (HmA & HdA & _).
  destruct (settings_step_other (KeyDown false k2) wA eq_refl) as (HmB & HdB & _).
  destruct (settings_step_other (KeyUp false k1) wB eq_refl) as (Hm1 & Hd1 & _).
  fold wA in HmA, HdA. fold wB in HmB, HdB. rewrite <- Hw1 in Hm1, Hd1.
  assert (HoutA : k2 ∉ pressedKeys wA) by (apply pressedKeys_keydown; [congruence | done]).
  destruct (keydown_starts k2 wA GA Hk2 (or_introl HoutA)) as [HckB HstB].
  fold wB in HckB, HstB.
  assert (He1 : engine w1 = engine wB).
  { rewrite Hw1, keyup_valid by done. rewrite triggerKeyUp_other; [done |].
    right. change (currentKey (engine wB) ≠ Some k1). rewrite HckB. congruence. }
  assert (Hck1 : currentKey (engine w1) = Some k2) by by rewrite He1.
  split; [done |]. split; [by rewrite He1 |]. split.
  { destruct G1 as (_ & _ & S1). rewrite S1, Hck1. congruence. }
  unfold w2. rewrite keyup_valid by done.
  lazymatch goal with |- context [triggerKeyUp k2 ?w0] => set (wa := w0) end.
  assert (Ga : Good wa).
  { apply (Good_engine w1); [subst wa; inv_frame; apply G1 | done | done]. }
  destruct (triggerKeyUp_current k2 wa Ga) as (? & ? & ? & _); [| done | done].
  change (mode wa) with (mode w1). congruence.
Qed.

(** Witness for [hold_mode_rollover]: [1] held, [2] pressed, [1]
    released, on a fresh page. *)
Lemma hold_mode_rollover_witness :
  let w1 := run [KeyDown false "1"; KeyDown false "2"; KeyUp false "1"]
              (initWorld 120 40) in
  soundingFrequencies w1 = [697; 1336]
  ∧ soundingFrequencies (step (KeyUp false "2") w1) = [].
Proof.
  assert (Hv : ∀ k, bool_decide (k ∈ validKeys) = true → k ∈ validKeys).
  { intros k. apply bool_decide_eq_true. }
  destruct (hold_mode_rollover 120 40 [] "1" "2" eq_refl
              (Hv "1" eq_refl) (Hv "2" eq_refl))
    as (_ & _ & H1 & _ & _ & H2); [discriminate | apply not_elem_of_empty |].
  split; [exact H1 | exact H2].
Defined.

Lemma pointerdown_valid k w :
  k ∈ validKeys → step (PointerDown k) w = triggerKeyDown k w.
Proof.
  intros Hk. cbn [step]. by rewrite decide_False by by apply validKeys_nonempty.
Qed.

(** X8: a release only stops a tone in hold mode. After any events on a
    fresh page in hold mode, a recognized key that is pressed, by keyboard
    or pointer, and released after the mode was switched to auto keeps
    sounding: it is still the current key of a started engine, although
    the key is no longer held. *)
Theorem release_in_auto_mode_keeps_tone (d g : Z) (es : list event) (k : string) :
  let w := run es (initWorld d g) in
  mode w = hold → k ∈ validKeys → k ∉ pressedKeys w →
  let w1 := run [KeyDown false k; ModeChange auto; KeyUp false k] w in
  let w2 := run [PointerDown k; ModeChange auto; PointerUp k] w in
  (currentKey (engine w1) = Some k
   ∧ isStarted (engine w1) = true
   ∧ soundingFrequencies w1 = toneOf (dialPreset (engine w)) (Some k)
   ∧ k ∉ pressedKeys w1)
  ∧ (currentKey (engine w2) = Some k
     ∧ isStarted (engine w2) = true
     ∧ soundingFrequencies w2 = toneOf (dialPreset (engine w)) (Some k)).
Proof.
  intros w Hm Hk Hout w1 w2.
  assert (G : Good w) by apply Good_run, Good_init.
  split.
  - set (wA := step (KeyDown false k) w).
    set (wB := step (ModeChange auto) wA).
    assert (Hw1 : w1 = step (KeyUp false k) wB) by reflexivity.
    assert (G1 : Good w1) by (rewrite Hw1; do 3 apply Good_step; done).
    destruct (keydown_starts k w G Hk (or_introl Hout)) as [HckA HstA].
    fold wA in HckA, HstA.
    destruct (settings_step_other (KeyDown false k) w eq_refl) as (_ & HdA & _).
    fold wA in HdA.
    assert (Hw1' : w1 = logUi (RemoveActive k) (set_pressedKeys (pressedKeys wB ∖ {[k]}) wB)).
    { rewrite Hw1, keyup_valid by done. apply triggerKeyUp_other. by left. }
    assert (He : engine w1 = engine wA) by by rewrite Hw1'.
    assert (Hck : currentKey (engine w1) = Some k) by by rewrite He.
    split; [done |]. split; [by rewrite He |]. split.
    + destruct G1 as (_ & _ & S1). rewrite S1, Hck, He. cbn [toneOf]. congruence.
    + rewrite Hw1'. change (k ∉ pressedKeys wB ∖ {[k]}).
      rewrite elem_of_difference, elem_of_singleton. tauto.
  - set (wA := step (PointerDown k) w).
    set (wB := step (ModeChange auto) wA).
    assert (Hw2 : w2 = step (PointerUp k) wB) by reflexivity.
    assert (G2 : Good w2) by (rewrite Hw2; do 3 apply Good_step; done).
    assert (HA : currentKey (engine wA) = Some k ∧ isStarted (engine wA) = true).
    { unfold wA. rewrite pointerdown_valid by done.
      by destruct (triggerKeyDown_valid k w (proj1 G) Hk) as (? & ? & _). }
    destruct HA as [HckA HstA].
    destruct (settings_step_other (PointerDown k) w eq_refl) as (_ & HdA & _).
    fold wA in HdA.
    assert (Hw2' : w2 = logUi (RemoveActive k) wB).
    { rewrite Hw2. apply triggerKeyUp_other. by left. }
    assert (He : engine w2 = engine wA) by by rewrite Hw2'.
    assert (Hck : currentKey (engine w2) = Some k) by by rewrite He.
    split; [done |]. split; [by rewrite He |].
    destruct G2 as (_ & _ & S2). rewrite S2, Hck, He. cbn [toneOf]. congruence.
Qed.

(** Witness for [release_in_auto_mode_keeps_tone]: the key [5]. *)
Lemma release_in_auto_mode_keeps_tone_witness :
  soundingFrequencies
    (run [KeyDown false "5"; ModeChange auto; KeyUp false "5"] (initWorld 120 40))
  = [770; 1336].
Proof.
  assert (Hv : "5" ∈ validKeys) by (apply (bool_decide_unpack _); vm_compute; exact I).
  destruct (release_in_auto_mode_keeps_tone 120 40 [] "5" eq_refl Hv)
    as ((_ & _ & H1 & _) & _); [apply not_elem_of_empty |].
  exact H1.
Defined.

(** A press leaves every pending timer that is not a cadence toggle. *)
Lemma triggerKeyDown_timers k w :
  Inv w → ∀ t, t ∈ timers w → is_cadence (tm_cb t) = false →
  t ∈ timers (triggerKeyDown k w).
Proof.
  intros H t Ht Hc. unfold triggerKeyDown.
  lazymatch goal with |- context [startToneForKey k ?w0] => set (wa := w0) end.
  assert (Ha : Inv wa) by (subst wa; by inv_frame).
  destruct (startToneForKey_timers k wa Ha) as [_ Hkeep].
  specialize (Hkeep t Ht Hc).
  destruct (mode wa); [done |].
  destruct (startToneForKey k wa) as [c w1]. cbn [snd] in Hkeep.
  destruct c; [| done].
  unfold setTimeout. cbn [snd timers set_timers set_nextTimerId].
  apply elem_of_app. by left.
Qed.

Lemma triggerKeyDown_seqTimer k w : seqTimer (triggerKeyDown k w) = seqTimer w.
Proof.
  unfold triggerKeyDown.
  lazymatch goal with |- context [startToneForKey k ?w0] => set (wa := w0) end.
  pose proof (startToneForKey_engine_only k wa) as Hfr.
  destruct (mode wa); [by rewrite Hfr |].
  destruct (startToneForKey k wa) as [c w1]. cbn [snd] in Hfr.
  destruct c; by rewrite Hfr.
Qed.

(** X9: only the keyboard cancels a playing sequence. The keydown of a
    recognized key, outside editable elements, always leaves the sequence
    player stopped, and until the play button is clicked no further key of
    the queue is played; a pointer press on a key, after any events on a
    fresh page, leaves the player, its queue, its recorded timer and every
    pending tone-end and gap timer as they are, so that the sequence goes
    on over the manual tone. *)
Theorem keyboard_cancels_sequence_pointer_does_not
  (d g : Z) (es : list event) (k : string) :
  let w := run es (initWorld d g) in
  k ∈ validKeys →
  (let w1 := step (KeyDown false k) w in
   isSeqPlaying w1 = false
   ∧ ∀ es', forallb (λ e, negb (isPlayClick e)) es' = true →
       isSeqPlaying (run es' w1) = false
       ∧ seqPlayed (run es' w1) = seqPlayed w
       ∧ seqBuffer (run es' w1) = seqBuffer w)
  ∧ (let w2 := step (PointerDown k) w in
     isSeqPlaying w2 = isSeqPlaying w
     ∧ seqBuffer w2 = seqBuffer w
     ∧ seqPlayed w2 = seqPlayed w
     ∧ seqTimer w2 = seqTimer w
     ∧ ∀ t, t ∈ timers w → isChain (tm_cb t) = true → t ∈ timers w2).
Proof.
  intros w Hk. assert (H : Inv w) by apply Inv_run, Inv_init. split.
  - intros w1.
    assert (Hv : seqView w1 = (false, seqPlayed w, seqBuffer w)).
    { assert (Hc : seqView (if isSeqPlaying w then cancelSequencePlayback w else w)
                   = (false, seqPlayed w, seqBuffer w)).
      { destruct (isSeqPlaying w) eqn:E; [apply seqView_cancel |].
        unfold seqView. by rewrite E. }
      unfold w1. destruct (decide (k ∈ pressedKeys w ∧ mode w = hold)) as [[Hin Hm] | Hnot].
      - by rewrite keydown_pressed.
      - rewrite keydown_fresh; [by rewrite seqView_triggerKeyDown | done |].
        destruct (decide (k ∈ pressedKeys w)); [| by left].
        right. destruct (mode w); [| done]. by destruct Hnot. }
    unfold seqView in Hv. injection Hv as Hp Hpl Hb. split; [done |].
    intros es' Hes'. pose proof (seqView_run_idle es' w1 Hes' Hp) as Hr.
    unfold seqView in Hr. injection Hr as -> -> ->. by rewrite Hp, Hpl, Hb.
  - intros w2. unfold w2. rewrite pointerdown_valid by done.
    pose proof (seqView_triggerKeyDown k w) as Hv. unfold seqView in Hv.
    injection Hv as -> -> ->.
    split; [done |]. split; [done |]. split; [done |].
    split; [apply triggerKeyDown_seqTimer |].
    intros t Ht Hc. apply triggerKeyDown_timers; [done | done |].
    by destruct (tm_cb t).
Qed.

(** Witness for [keyboard_cancels_sequence_pointer_does_not]: the key [5]
    during the first tone of the sequence 123. *)
Lemma keyboard_cancels_sequence_pointer_does_not_witness :
  let w := run [PlaySeqClick "123"] (initWorld 120 40) in
  isSeqPlaying w = true
  ∧ isSeqPlaying (step (KeyDown false "5") w) = false
  ∧ isSeqPlaying (step (PointerDown "5") w) = true.
Proof.
  assert (Hv : "5" ∈ validKeys) by (apply (bool_decide_unpack _); vm_compute; exact I).
  destruct (keyboard_cancels_sequence_pointer_does_not 120 40 [PlaySeqClick "123"] "5" Hv)
    as ((H1 & _) & (H2 & _)).
  split; [reflexivity |]. split; [exact H1 | exact H2].
Defined.

(** ** Auto mode *)

(** Starting a tone never takes a timer id back. *)
Lemma startToneForKey_nextTimerId k w :
  Inv w → (nextTimerId w ≤ nextTimerId (snd (startToneForKey k w)))%nat.
Proof.
  intros H.
  destruct (getFrequenciesForKey (dialPreset (engine w)) k) as [spec |] eqn:Hl.
  2: { unfold startToneForKey. by rewrite Hl. }
  destruct (startToneForKey_unfold k spec w H Hl) as (mg & -> & _ & Hctx).
  assert (Hni : nextTimerId (stopTone (ensureContext w)) = nextTimerId w).
  { rewrite stopTone_nextTimerId. by destruct (ensureContext_spec w) as (_ & _ & ? & _). }
  destruct (lookup_shape _ k spec Hl) as [(fa & Ha & Hb) | Ha].
  - destruct (wireTone_normal k spec mg _ fa Hctx Ha Hb)
      as (_ & _ & _ & _ & _ & _ & _ & _ & _ & _ & _ & _ & _ & _ & ->).
    rewrite Hni. destruct (cadence spec); lia.
  - destruct (wireTone_threw k spec mg _ Hctx Ha)
      as (_ & _ & _ & _ & _ & _ & _ & _ & _ & _ & _ & _ & _ & _ & ->).
    by rewrite Hni.
Qed.

(** A press in auto mode arms the timer that ends the tone. *)
Lemma triggerKeyDown_auto k w :
  Inv w → mode w = auto → k ∈ validKeys →
  let w' := triggerKeyDown k w in
  ∃ id,
    (nextTimerId w ≤ id)%nat
    ∧ pendingTimer id w' =
      Some {| tm_id := id; tm_due := now w + Z.max 0 (autoDurationMs w);
              tm_cb := CbAutoStop k |}
    ∧ ui w' = ui w ++ [AddActive k; SetCurrentKey (Some k); AppendLog k;
                       SetStatus StPlaying].
Proof.
  intros H Hm Hk w'.
  pose proof (Inv_triggerKeyDown k w H) as H'. fold w' in H'.
  revert H'. unfold w', triggerKeyDown.
  lazymatch goal with |- context [startToneForKey k ?w0] => set (wa := w0) end.
  assert (Ha : Inv wa) by (subst wa; by inv_frame).
  change (mode wa) with (mode w). rewrite Hm.
  destruct (startToneForKey_valid k wa Ha Hk) as (Hn & _).
  pose proof (startToneForKey_engine_only k wa) as Hfr.
  pose proof (startToneForKey_nextTimerId k wa Ha) as Hle.
  change (nextTimerId wa) with (nextTimerId w) in Hle.
  destruct (startToneForKey k wa) as [c w1]. cbn [fst snd] in *. subst c.
  intros H'. exists (nextTimerId w1). split; [exact Hle |]. split.
  - apply in_pendingTimer; [apply H' | | done].
    unfold setTimeout, setStatus, logUi.
    cbn [snd timers set_timers set_nextTimerId set_ui now autoDurationMs nextTimerId].
    apply elem_of_app. right. rewrite Hfr. cbn. left.
  - unfold setTimeout, setStatus, logUi. cbn [snd ui set_ui set_timers set_nextTimerId].
    rewrite Hfr. unfold wa, appendLog, setCurrentKey, logUi. cbn [ui set_ui set_engine
      set_timers set_nextTimerId].
    rewrite decide_False by by apply validKeys_nonempty.
    by rewrite <- !app_assoc.
Qed.

(** The timer of an auto-mode press fires: it stops the tone when its key
    is still the current one, whichever press made it so, and does
    nothing otherwise. *)
Lemma fire_autoStop id t k w :
  Inv w → pendingTimer id w = Some t → tm_cb t = CbAutoStop k → tm_due t ≤ now w →
  (currentKey (engine w) = Some k →
     isStarted (engine (fire id w)) = false
     ∧ soundingFrequencies (fire id w) = []
     ∧ ui (fire id w) = ui w ++ [SetCurrentKey None;
                                  SetStatus (StAuto (autoDurationMs w));
                                  RemoveActive k]
     ∧ ∀ t', t' ∈ timers w → tm_id t' ≠ id → is_cadence (tm_cb t') = false →
         t' ∈ timers (fire id w))
  ∧ (currentKey (engine w) ≠ Some k → fire id w = clearTimeout id w).
Proof.
  intros H Hp Hcb Hdue.
  assert (Hf : fire id w =
            if decide (currentKey (engine w) = Some k)
            then logUi (RemoveActive k)
                   (setStatus (StAuto (autoDurationMs w))
                      (setCurrentKeyDash (stopTone (clearTimeout id w))))
            else clearTimeout id w).
  { unfold fire. rewrite Hp, Hcb, decide_True by done. reflexivity. }
  assert (H0 : Inv (clearTimeout id w)).
  { apply Inv_clearTimeout; [done |]. intros Hcid.
    apply (pending_cadence id w t H Hp) in Hcid. by rewrite Hcb in Hcid. }
  split; intros Hck; rewrite Hf; [rewrite decide_True by done | by rewrite decide_False].
  pose proof (Inv_stopTone _ H0) as H1.
  pose proof (stopTone_off (clearTimeout id w)) as Hoff.
  split; [exact Hoff |]. split; [exact (silent_sounding _ H1 Hoff) |]. split.
  - unfold setStatus, setCurrentKeyDash, logUi. cbn [ui set_ui].
    rewrite (ui_engine_only _ _ (stopTone_engine_only (clearTimeout id w))).
    change (ui (clearTimeout id w)) with (ui w). by rewrite <- !app_assoc.
  - intros t' Ht' Hid Hc.
    change (t' ∈ timers (stopTone (clearTimeout id w))).
    apply stopTone_timers_keep; [done | | done].
    unfold clearTimeout. cbn [timers set_timers]. by apply list_elem_of_filter.
Qed.

(** X10: the length of a tone in auto mode. After any events on a fresh
    page in auto mode, with a tone length that [window.setTimeout] takes
    as it is (a 32-bit [long]), a press on a recognized key arms a timer
    for the tone length set at that moment; when it fires, however late,
    the tone stops, the key display and the highlight are cleared and the
    status shows the auto mode again. The timer looks at the key only:
    when the same key is pressed again before it fires, it stops the new
    tone at the time meant for the old one, and the timer of the second
    press stays pending. *)
Theorem auto_mode_tone_ends_by_timer (d g : Z) (es : list event) (k : string) :
  let w := run es (initWorld d g) in
  mode w = auto → k ∈ validKeys → isLong (autoDurationMs w) →
  let w1 := step (PointerDown k) w in
  let due := now w + Z.max 0 (autoDurationMs w) in
  ∃ id,
    pendingTimer id w1 = Some {| tm_id := id; tm_due := due; tm_cb := CbAutoStop k |}
    ∧ currentKey (engine w1) = Some k
    ∧ soundingFrequencies w1 = toneOf (dialPreset (engine w)) (Some k)
    ∧ (∀ late, 0 ≤ late →
         let w2 := fire id (set_now (due + late) w1) in
         isStarted (engine w2) = false
         ∧ soundingFrequencies w2 = []
         ∧ ui w2 = ui w1 ++ [SetCurrentKey None;
                             SetStatus (StAuto (autoDurationMs w));
                             RemoveActive k])
    ∧ (∀ t, now w ≤ t → t ≤ due →
         let w1' := step (PointerDown k) (set_now t w1) in
         let w2' := fire id (set_now due w1') in
         ∃ id',
           id' ≠ id
           ∧ pendingTimer id' w1' =
               Some {| tm_id := id'; tm_due := t + Z.max 0 (autoDurationMs w);
                       tm_cb := CbAutoStop k |}
           ∧ currentKey (engine w1') = Some k
           ∧ isStarted (engine w2') = false
           ∧ soundingFrequencies w2' = []
           ∧ pendingTimer id' w2' =
               Some {| tm_id := id'; tm_due := t + Z.max 0 (autoDurationMs w);
                       tm_cb := CbAutoStop k |}).
Proof.
  intros w Hm Hk _ w1 due.
  assert (G : Good w) by apply Good_run, Good_init.
  assert (G1 : Good w1) by by apply Good_step.
  destruct (settings_step_other (PointerDown k) w eq_refl) as (Hm1 & Hd1 & Ha1 & _).
  fold w1 in Hm1, Hd1, Ha1.
  assert (Hw1 : w1 = triggerKeyDown k w) by (unfold w1; by rewrite pointerdown_valid).
  destruct (triggerKeyDown_auto k w (proj1 G) Hm Hk) as (id & _ & Hp1 & _).
  rewrite <- Hw1 in Hp1. fold due in Hp1.
  destruct (triggerKeyDown_valid k w (proj1 G) Hk) as (Hck1 & _).
  rewrite <- Hw1 in Hck1.
  exists id. split; [exact Hp1 |]. split; [exact Hck1 |]. split.
  { destruct G1 as (_ & _ & S1). rewrite S1, Hck1. cbn [toneOf]. congruence. }
  split.
  - intros late Hlate w2.
    assert (Hl : Inv (set_now (due + late) w1)) by (inv_frame; apply G1).
    destruct (fire_autoStop id _ k (set_now (due + late) w1) Hl Hp1 eq_refl)
      as [Hstop _]; [cbn; lia |].
    destruct (Hstop Hck1) as (? & ? & Hui & _).
    split; [done |]. split; [done |]. rewrite <- Ha1. exact Hui.
  - intros t Ht Htd w1' w2'.
    set (wt := set_now t w1).
    assert (Hwt : Inv wt) by (unfold wt; inv_frame; apply G1).
    assert (Hw1' : w1' = triggerKeyDown k wt) by (unfold w1'; by rewrite pointerdown_valid).
    assert (H1' : Inv w1') by (rewrite Hw1'; by apply Inv_triggerKeyDown).
    assert (Hmt : mode wt = auto) by (change (mode w1 = auto); congruence).
    destruct (triggerKeyDown_auto k wt Hwt Hmt Hk) as (id' & Hfresh & Hp' & _).
    rewrite <- Hw1' in Hp'.
    change (now wt) with t in Hp'. change (autoDurationMs wt) with (autoDurationMs w1) in Hp'.
    rewrite Ha1 in Hp'.
    destruct (pendingTimer_Some _ _ _ Hp1) as [HT _].
    assert (Hne : id' ≠ id).
    { pose proof (inv_fresh wt Hwt _ HT) as Hlt.
      change (id < nextTimerId wt)%nat in Hlt. lia. }
    destruct (triggerKeyDown_valid k wt Hwt Hk) as (Hck' & _).
    rewrite <- Hw1' in Hck'.
    assert (HT' : pendingTimer id w1' =
                  Some {| tm_id := id; tm_due := due; tm_cb := CbAutoStop k |}).
    { apply in_pendingTimer; [apply H1' | | done].
      rewrite Hw1'. by apply triggerKeyDown_timers. }
    set (wd := set_now due w1').
    assert (Hwd : Inv wd) by (unfold wd; by inv_frame).
    destruct (fire_autoStop id _ k wd Hwd HT' eq_refl) as [Hstop _]; [cbn; lia |].
    destruct (Hstop Hck') as (Hoff & Hsil & _ & Hkeep).
    exists id'. split; [done |]. split; [done |]. split; [done |].
    split; [done |]. split; [done |].
    apply in_pendingTimer; [apply (Inv_fire id wd Hwd) | | done].
    apply Hkeep; [| done | done].
    by destruct (pendingTimer_Some _ _ _ Hp').
Qed.

(** Witness for [auto_mode_tone_ends_by_timer]: the key [5] pressed at 0
    and again at 100 with a tone length of 120: silence at 120, the second
    timer still pending for 220. *)
Lemma auto_mode_tone_ends_by_timer_witness :
  let w := run [ModeChange auto] (initWorld 120 40) in
  let w1' := step (PointerDown "5") (set_now 100 (step (PointerDown "5") w)) in
  soundingFrequencies w1' = [770; 1336]
  ∧ soundingFrequencies (fire 1 (set_now 120 w1')) = []
  ∧ pendingTimer 2 (fire 1 (set_now 120 w1')) =
      Some {| tm_id := 2; tm_due := 220; tm_cb := CbAutoStop "5" |}.
Proof.
  assert (Hv : "5" ∈ validKeys) by (apply (bool_decide_unpack _); vm_compute; exact I).
  assert (Hlong : isLong 120) by (unfold isLong; lia).
  destruct (auto_mode_tone_ends_by_timer 120 40 [ModeChange auto] "5" eq_refl Hv Hlong)
    as (id & Hp & _ & _ & _ & Hre).
  assert (Hid : id = 1%nat).
  { apply pendingTimer_Some in Hp as [Hin _].
    change (timers (step (PointerDown "5") (run [ModeChange auto] (initWorld 120 40))))
      with [ {| tm_id := 1; tm_due := 120; tm_cb := CbAutoStop "5" |} ] in Hin.
    apply list_elem_of_singleton in Hin. by injection Hin. }
  split; [reflexivity |].
  destruct (Hre 100) as (id' & _ & Hp' & _ & _ & Hsil & _); [done | done |].
  subst id. split; [exact Hsil | reflexivity].
Defined.

(** ** The input log *)

Lemma list_ascii_of_string_app (s1 s2 : string) :
  String.list_ascii_of_string (String.append s1 s2)
  = String.list_ascii_of_string s1 ++ String.list_ascii_of_string s2.
Proof.
  induction s1 as [| c s1 IH]; [done |].
  change (c :: String.list_ascii_of_string (String.append s1 s2)
          = c :: (String.list_ascii_of_string s1 ++ String.list_ascii_of_string s2)).
  by rewrite IH.
Qed.

Lemma string_length_list (s : string) :
  String.length s = length (String.list_ascii_of_string s).
Proof.
  induction s as [| c s IH]; [done |].
  change (S (String.length s) = S (length (String.list_ascii_of_string s))).
  by rewrite IH.
Qed.

Lemma string_append_assoc (s1 s2 s3 : string) :
  String.append (String.append s1 s2) s3 = String.append s1 (String.append s2 s3).
Proof.
  induction s1 as [| c s1 IH]; [done |].
  change (String c (String.append (String.append s1 s2) s3)
          = String c (String.append s1 (String.append s2 s3))).
  by rewrite IH.
Qed.

Lemma string_append_empty (s : string) : String.append s "" = s.
Proof.
  induction s as [| c s IH]; [done |].
  change (String c (String.append s "") = String c s). by rewrite IH.
Qed.

(** A negative [start] keeps the last [n] code units. *)
Lemma slice_last n (s : string) :
  (0 < n)%nat →
  slice (- Z.of_nat n) s =
    String.string_of_list_ascii
      (drop (length (String.list_ascii_of_string s) - n) (String.list_ascii_of_string s)).
Proof.
  intros Hn. unfold slice.
  assert (Hneg : (- Z.of_nat n <? 0) = true) by (apply Z.ltb_lt; lia).
  rewrite Hneg. do 2 f_equal. lia.
Qed.

Lemma drop_last_app {A} n (l1 l2 : list A) :
  drop (length (drop (length l1 - n) l1 ++ l2) - n) (drop (length l1 - n) l1 ++ l2)
  = drop (length (l1 ++ l2) - n) (l1 ++ l2).
Proof.
  rewrite !length_app, length_drop.
  destruct (decide (length l1 ≤ n)%nat) as [Hle | Hgt].
  - replace (length l1 - n)%nat with 0%nat by lia.
    by rewrite Nat.sub_0_r.
  - replace (length l1 - (length l1 - n) + length l2 - n)%nat with (length l2) by lia.
    replace (length l1 + length l2 - n)%nat with ((length l1 - n) + length l2)%nat by lia.
    rewrite <- drop_drop. by rewrite (drop_app_le l1) by lia.
Qed.

(** Cutting to the last 24 before appending changes nothing of the last
    24 after it. *)
Lemma slice_24_absorb (s1 s2 : string) :
  slice (-24) (String.append (slice (-24) s1) s2) = slice (-24) (String.append s1 s2).
Proof.
  change (-24) with (- Z.of_nat 24). rewrite !slice_last by lia.
  rewrite !list_ascii_of_string_app, String.list_ascii_of_string_of_list_ascii.
  by rewrite drop_last_app.
Qed.

Lemma loggedKeys_cons c calls :
  loggedKeys (c :: calls)
  = match c with AppendLog k => k :: loggedKeys calls | _ => loggedKeys calls end.
Proof. by destruct c. Qed.

Lemma inputLogText_spec init calls :
  inputLogText init calls =
    if decide (loggedKeys calls = []) then init
    else slice (-24) (String.append init (joinKeys (loggedKeys calls))).
Proof.
  revert init. induction calls as [| c calls IH]; intros init; [done |].
  change (inputLogText init (c :: calls))
    with (inputLogText (match c with AppendLog k => appendLogText k init | _ => init end)
            calls).
  rewrite IH, loggedKeys_cons.
  destruct c as [| | k | |]; try done.
  rewrite (decide_False (P := k :: loggedKeys calls = [])) by done.
  cbn [joinKeys foldr]. fold (joinKeys (loggedKeys calls)).
  case_decide as Hnil.
  - rewrite Hnil. cbn [joinKeys foldr]. by rewrite string_append_empty.
  - unfold appendLogText. by rewrite slice_24_absorb, string_append_assoc.
Qed.

Lemma slice_24_length (s : string) :
  String.length (slice (-24) s) = (String.length s `min` 24)%nat.
Proof.
  change (-24) with (- Z.of_nat 24). rewrite slice_last by lia.
  rewrite string_length_list, String.list_ascii_of_string_of_list_ascii.
  rewrite length_drop, <- string_length_list. lia.
Qed.

Lemma slice_24_suffix (s : string) :
  ∃ front, s = String.append front (slice (-24) s).
Proof.
  change (-24) with (- Z.of_nat 24). rewrite slice_last by lia.
  set (l := String.list_ascii_of_string s).
  exists (String.string_of_list_ascii (take (length l - 24) l)).
  rewrite <- (String.string_of_list_ascii_of_string s) at 1. fold l.
  rewrite <- (take_drop (length l - 24) l) at 1.
  generalize (take (length l - 24) l) (drop (length l - 24) l). clear.
  intros l1 l2. induction l1 as [| c l1 IH]; [done |].
  change (String c (String.string_of_list_ascii (l1 ++ l2))
          = String c (String.append (String.string_of_list_ascii l1)
                        (String.string_of_list_ascii l2))).
  by rewrite IH.
Qed.

(** X11: the input log shows the last 24 code units of what was logged.
    Whatever DOM calls were made, once a key was logged the text of the
    log is the text it started from followed by all logged keys, in
    order, cut to its last 24 code units; it is never longer than 24; and
    a log that received no key shows its initial text. *)
Theorem input_log_shows_last_24 (init : string) (calls : list UiCall) :
  (loggedKeys calls = [] → inputLogText init calls = init)
  ∧ (loggedKeys calls ≠ [] →
       let all := String.append init (joinKeys (loggedKeys calls)) in
       inputLogText init calls = slice (-24) all
       ∧ (∃ front, all = String.append front (inputLogText init calls))
       ∧ String.length (inputLogText init calls) = (String.length all `min` 24)%nat
       ∧ (String.length (inputLogText init calls) ≤ 24)%nat).
Proof.
  rewrite inputLogText_spec. split; intros Hk; [by rewrite decide_True |].
  rewrite decide_False by done. intros all. split; [done |].
  split; [apply slice_24_suffix |].
  rewrite slice_24_length. subst all. split; lia.
Qed.

(** Witness for [input_log_shows_last_24]: thirty keys played by a
    sequence on a fresh page with an empty log. *)
Lemma input_log_shows_last_24_witness :
  let w := eventLoop 100
             (startSequencePlaybackFromText "123456789012345678901234567890"
                (initWorld 120 40)) in
  inputLogText "" (ui w) = "789012345678901234567890".
Proof.
  intros w.
  destruct (input_log_shows_last_24 "" (ui w)) as [_ H].
  destruct H as (H & _); [by vm_compute |].
  rewrite H. vm_compute. reflexivity.
Defined.

(** ** The pointer listeners *)

Lemma inherited_not_valid key : key ∈ objectPrototype → key ∉ validKeys.
Proof.
  unfold objectPrototype. intros Hin.
  repeat (apply elem_of_cons in Hin as [-> | Hin];
          [apply (bool_decide_unpack _); vm_compute; exact I |]).
  by apply elem_of_nil in Hin.
Qed.

Lemma lookup_inherited p key :
  key ∈ objectPrototype →
  getFrequenciesForKey p key =
    Some {| a := JInherited key; b := JInherited key; isContinuous := false;
            cadence := None |}.
Proof.
  intros Hin. pose proof (inherited_not_valid key Hin) as Hout.
  destruct (tables_miss key Hout) as [Hlow Hhigh].
  assert (key ≠ "*" ∧ key ≠ "/") as [H1 H2].
  { split; intros ->; apply Hout; apply validKeys_spec; in_list. }
  unfold getFrequenciesForKey, getProp.
  rewrite !decide_False by done. rewrite Hlow, Hhigh.
  by rewrite bool_decide_eq_true_2.
Qed.


Lemma Good_releases keys w :
  Good w → Good (foldl (λ w key, triggerKeyUp key w) w keys).
Proof.
  revert w. induction keys as [| key keys IH]; intros w G; [done |].
  cbn [foldl]. by apply IH, Good_triggerKeyUp.
Qed.

Lemma mode_triggerKeyUp k w : mode (triggerKeyUp k w) = mode w.
Proof.
  pose proof (settings_triggerKeyUp k w) as Hs. unfold settingsOf in Hs.
  by injection Hs.
Qed.

(** In hold mode the releases of a list of keys that holds the current
    key leave no current key. *)
Lemma releases_silence keys w :
  Good w → mode w = hold →
  (∀ k, currentKey (engine w) = Some k → k ∈ keys) →
  currentKey (engine (foldl (λ w key, triggerKeyUp key w) w keys)) = None.
Proof.
  revert w. induction keys as [| key keys IH]; intros w G Hm Hin.
  - cbn [foldl]. destruct (currentKey (engine w)) as [k |]; [| done].
    specialize (Hin k eq_refl). by apply elem_of_nil in Hin.
  - cbn [foldl]. apply IH.
    + by apply Good_triggerKeyUp.
    + by rewrite mode_triggerKeyUp.
    + intros k Hk. destruct (decide (currentKey (engine w) = Some key)) as [Hc | Hc].
      * destruct (triggerKeyUp_current key w G Hm Hc) as (_ & Hnone & _).
        rewrite Hnone in Hk. done.
      * rewrite triggerKeyUp_other in Hk by by right.
        specialize (Hin k Hk). apply elem_of_cons in Hin as [-> | Hin]; [| done].
        by destruct Hc.
Qed.

(** A press ends normally unless the key is a name the tables inherit. *)
Lemma triggerKeyDown_completes k w :
  Inv w → k ∉ objectPrototype → triggerKeyDownCompletion k w = Normal.
Proof.
  intros H Hout. unfold triggerKeyDownCompletion.
  set (wa := appendLog k (setCurrentKey k (logUi (AddActive k) w))).
  assert (Ha : Inv wa) by (subst wa; by inv_frame).
  destruct (decide (k ∈ validKeys)) as [Hk | Hk].
  - by destruct (startToneForKey_valid k wa Ha Hk) as (? & _).
  - unfold startToneForKey.
    destruct (getFrequenciesForKey (dialPreset (engine wa)) k) as [spec |] eqn:Hl; [| done].
    exfalso. destruct (tables_miss k Hk) as [Hlow Hhigh].
    assert (k ≠ "*" ∧ k ≠ "/") as [H1 H2].
    { split; intros ->; apply Hk; apply validKeys_spec; in_list. }
    revert Hl. unfold getFrequenciesForKey, getProp.
    rewrite !decide_False by done. rewrite Hlow, Hhigh.
    by rewrite bool_decide_eq_false_2.
Qed.

Lemma triggerKeyDown_throws k w :
  Inv w → k ∈ objectPrototype → triggerKeyDownCompletion k w = Threw.
Proof.
  intros H Hin. unfold triggerKeyDownCompletion.
  set (wa := appendLog k (setCurrentKey k (logUi (AddActive k) w))).
  assert (Ha : Inv wa) by (subst wa; by inv_frame).
  pose proof (lookup_inherited (dialPreset (engine wa)) k Hin) as Hl.
  destruct (startToneForKey_unfold k _ wa Ha Hl) as (mg & -> & _ & Hctx).
  by destruct (wireTone_threw k
                 {| a := JInherited k; b := JInherited k; isContinuous := false;
                    cadence := None |} mg _ Hctx) as (? & _).
Qed.

(** X12: the [up] listeners of the keypad. A release event on the window
    runs every registered [up] once, oldest first, and leaves none
    registered, so that a second release event does nothing. After any
    events on a fresh page: a press that ends normally followed by a
    release, with no other press pending, is the pair of events
    [PointerDown], [PointerUp] of the page; a press on a name the tables
    inherit raises before [up] is registered, so that no release undoes
    its highlight; and in hold mode, when two keys are pressed one after
    the other without a release, the second tone replaces the first and
    a single release event releases both keys and brings silence. *)
Theorem pointer_release_runs_every_up_once
  (d g : Z) (es : list event) (ls : list string) (k1 k2 : string) :
  let p := {| world := run es (initWorld d g); upListeners := ls |} in
  upListeners (pointerend p) = []
  ∧ pointerend (pointerend p) = pointerend p
  ∧ (k1 ≠ "" → k1 ∉ objectPrototype → ls = [] →
       world (pointerend (pointerdown (Some k1) p))
       = run [PointerDown k1; PointerUp k1] (world p))
  ∧ (k1 ∈ objectPrototype → upListeners (pointerdown (Some k1) p) = ls)
  ∧ (mode (world p) = hold → k1 ∈ validKeys → k2 ∈ validKeys →
       let p2 := pointerdown (Some k2) (pointerdown (Some k1) p) in
       upListeners p2 = ls ++ [k1; k2]
       ∧ currentKey (engine (world p2)) = Some k2
       ∧ upListeners (pointerend p2) = []
       ∧ isStarted (engine (world (pointerend p2))) = false
       ∧ soundingFrequencies (world (pointerend p2)) = []).
Proof.
  intros p. set (w := run es (initWorld d g)) in *.
  assert (G : Good w) by apply Good_run, Good_init.
  split; [done |]. split; [done |]. subst p. split; [| split].
  - intros Hne Hout ->. unfold pointerdown, pointerend. rewrite decide_False by done.
    cbn [world upListeners]. rewrite (triggerKeyDown_completes k1 w (proj1 G) Hout).
    cbn [app foldl run step]. by rewrite decide_False.
  - intros Hin. unfold pointerdown.
    assert (Hne : k1 ≠ "").
    { intros ->. revert Hin. apply (bool_decide_unpack _). vm_compute. exact I. }
    rewrite decide_False by done.
    cbn [world upListeners].
    by rewrite (triggerKeyDown_throws k1 w (proj1 G) Hin).
  - intros Hm Hk1 Hk2 p2.
    assert (G1 : Good (triggerKeyDown k1 w)) by by apply Good_triggerKeyDown.
    assert (Hn1 : triggerKeyDownCompletion k1 w = Normal).
    { apply triggerKeyDown_completes; [apply G |]. intros Hin.
      by apply (inherited_not_valid k1 Hin). }
    assert (Hn2 : triggerKeyDownCompletion k2 (triggerKeyDown k1 w) = Normal).
    { apply triggerKeyDown_completes; [apply G1 |]. intros Hin.
      by apply (inherited_not_valid k2 Hin). }
    assert (Hp2 : p2 = {| world := triggerKeyDown k2 (triggerKeyDown k1 w);
                          upListeners := (ls ++ [k1]) ++ [k2] |}).
    { unfold p2, pointerdown.
      rewrite !decide_False by by apply validKeys_nonempty.
      cbn [world upListeners]. by rewrite Hn1, Hn2. }
    set (w2 := triggerKeyDown k2 (triggerKeyDown k1 w)) in *.
    assert (G2 : Good w2) by by apply Good_triggerKeyDown.
    assert (Hm2 : mode w2 = hold).
    { unfold w2. destruct (triggerKeyDown_page k2 (triggerKeyDown k1 w)) as [_ ->].
      by destruct (triggerKeyDown_page k1 w) as [_ ->]. }
    destruct (triggerKeyDown_valid k2 _ (proj1 G1) Hk2) as (Hck2 & _). fold w2 in Hck2.
    rewrite Hp2. cbn [world upListeners pointerend].
    split; [by rewrite <- app_assoc |]. split; [done |]. split; [done |].
    set (keys := (ls ++ [k1]) ++ [k2]).
    assert (Hnone : currentKey (engine (foldl (λ w key, triggerKeyUp key w) w2 keys)) = None).
    { apply releases_silence; [done | done |].
      intros k Hk. rewrite Hck2 in Hk. injection Hk as <-.
      unfold keys. apply elem_of_app. right. left. }
    destruct (Good_releases keys w2 G2) as (_ & W & S).
    split.
    + destruct (isStarted (engine _)) eqn:Hst; [| done].
      by destruct (wired_started _ W Hst).
    + by rewrite S, Hnone.
Qed.

(** Witness for [pointer_release_runs_every_up_once]: [1] and [2]
    pressed, one release. *)
Lemma pointer_release_runs_every_up_once_witness :
  let p := {| world := initWorld 120 40; upListeners := [] |} in
  let p2 := pointerdown (Some "2") (pointerdown (Some "1") p) in
  soundingFrequencies (world p2) = [697; 1336]
  ∧ soundingFrequencies (world (pointerend p2)) = []
  ∧ world (pointerend (pointerdown (Some "1") p))
    = run [PointerDown "1"; PointerUp "1"] (world p)
  ∧ upListeners (pointerdown (Some "toString") p) = [].
Proof.
  assert (Hv : ∀ k, bool_decide (k ∈ validKeys) = true → k ∈ validKeys).
  { intros k. apply bool_decide_eq_true. }
  destruct (pointer_release_runs_every_up_once 120 40 [] [] "1" "2")
    as (_ & _ & H3 & _ & H4).
  destruct (H4 eq_refl (Hv "1" eq_refl) (Hv "2" eq_refl)) as (_ & _ & _ & _ & Hs).
  split; [reflexivity |]. split; [exact Hs |]. split.
  - apply H3; [discriminate | | reflexivity].
    apply (bool_decide_unpack _). vm_compute. exact I.
  - destruct (pointer_release_runs_every_up_once 120 40 [] [] "toString" "2")
      as (_ & _ & _ & H & _).
    apply H. unfold objectPrototype. in_list.
Defined.

(** ** The timing of a sequence *)

(** The drain step on a queue whose first symbol is playable. *)
Lemma scheduleNextFromBuffer_plays k rest w :
  Inv w → isSeqPlaying w = true → seqBuffer w = k :: rest → playable k →
  scheduleNextFromBuffer w = played k (announced k rest w).
Proof.
  intros H Hplay Hb [Hne Hv]. unfold scheduleNextFromBuffer. rewrite Hb.
  cbn [scheduleNextFrom]. rewrite Hplay. cbn [negb].
  rewrite decide_False by done. rewrite bool_decide_eq_true_2 by done. cbn [negb].
  lazymatch goal with |- context [startToneForKey k ?w0] => set (wa := w0) end.
  assert (Hwa : wa = announced k rest w) by reflexivity.
  clearbody wa. subst wa.
  assert (Ha : Inv (announced k rest w)) by (unfold announced; by inv_frame).
  pose proof (proj1 (startToneForKey_valid k _ Ha Hv)) as Hn.
  unfold played. destruct (startToneForKey k (announced k rest w)) as [c w1].
  cbn [fst snd] in *. subst c.
  by destruct (setTimeout (CbToneEnd k) _ _).
Qed.

(** The two timers of a played key. *)
Lemma played_timers k rest w :
  Inv w →
  let w' := played k (announced k rest w) in
  ∃ id,
    pendingTimer id w' =
      Some {| tm_id := id; tm_due := now w + Z.max 0 (autoDurationMs w);
              tm_cb := CbToneEnd k |}
    ∧ pendingTimer (S id) w' =
        Some {| tm_id := S id; tm_due := now w + Z.max 0 (autoDurationMs w + 10);
                tm_cb := CbUnhighlight k |}
    ∧ (nextTimerId w ≤ id)%nat
    ∧ (∀ t, t ∈ timers w → is_cadence (tm_cb t) = false → t ∈ timers w').
Proof.
  intros H w'. set (wa := announced k rest w).
  assert (Ha : Inv wa) by (unfold wa, announced; by inv_frame).
  pose proof (startToneForKey_engine_only k wa) as Hfr.
  pose proof (startToneForKey_nextTimerId k wa Ha) as Hle.
  destruct (startToneForKey_timers k wa Ha) as [_ Hkeep].
  pose proof (Inv_startToneForKey k wa Ha) as H1.
  set (w1 := snd (startToneForKey k wa)) in *.
  assert (Hnow : now w1 = now w) by by rewrite Hfr.
  assert (Hdur : autoDurationMs w1 = autoDurationMs w) by by rewrite Hfr.
  assert (Hts : timers w' = (timers w1 ++
            [{| tm_id := nextTimerId w1; tm_due := now w + Z.max 0 (autoDurationMs w);
                tm_cb := CbToneEnd k |}]) ++
            [{| tm_id := S (nextTimerId w1);
                tm_due := now w + Z.max 0 (autoDurationMs w + 10);
                tm_cb := CbUnhighlight k |}]).
  { rewrite <- Hnow, <- Hdur. reflexivity. }
  assert (H' : Inv w').
  { unfold w', played. fold wa. fold w1.
    apply Inv_setTimeout; [done |]. apply Inv_setTimeout; [done |]. by inv_frame. }
  exists (nextTimerId w1). split; [| split; [| split]].
  - apply in_pendingTimer; [apply H' | | done].
    rewrite Hts. apply elem_of_app. left. apply elem_of_app. right. left.
  - apply in_pendingTimer; [apply H' | | done].
    rewrite Hts. apply elem_of_app. right. left.
  - exact Hle.
  - intros t Ht Hc. rewrite Hts. apply elem_of_app. left. apply elem_of_app. left.
    by apply Hkeep.
Qed.

(** A due tone-end timer leaves the engine as the end of the tone does. *)
Lemma fire_toneEnd_engine id t k w :
  pendingTimer id w = Some t → tm_cb t = CbToneEnd k → tm_due t ≤ now w →
  engine (fire id w) = engine (afterTone k (clearTimeout id w)).
Proof.
  intros Hp Hcb Hdue. unfold fire. rewrite Hp, Hcb, decide_True by done.
  reflexivity.
Qed.

(** X13: the timing of a sequence, for tone lengths and gaps that
    [window.setTimeout] takes as they are (32-bit [long]s). After any
    events on a fresh page, a drain step that plays the key [k] lets its
    tone sound and arms the end of the tone for the tone length set at
    that moment, and the end of the highlight 10 ms later; moving the
    tone-length slider during the tone moves neither timer. When the
    tone-end timer fires, however late, the tone stops and the next drain
    step is armed, and recorded in [seqTimer], for the gap set at the
    moment of firing, so that the gap slider still acts on the gap that
    follows the current tone. *)
Theorem sequence_tone_and_gap_timing
  (d g : Z) (es : list event) (k : string) (rest : list string) :
  let w := run es (initWorld d g) in
  isSeqPlaying w = true → seqBuffer w = k :: rest → playable k →
  isLong (autoDurationMs w) → isLong (autoDurationMs w + 10) →
  let w' := scheduleNextFromBuffer w in
  let due := now w + Z.max 0 (autoDurationMs w) in
  ∃ id,
    pendingTimer id w' = Some {| tm_id := id; tm_due := due; tm_cb := CbToneEnd k |}
    ∧ pendingTimer (S id) w' =
        Some {| tm_id := S id; tm_due := now w + Z.max 0 (autoDurationMs w + 10);
                tm_cb := CbUnhighlight k |}
    ∧ soundingFrequencies w' = toneOf (dialPreset (engine w)) (Some k)
    ∧ (∀ d', pendingTimer id (step (DurationInput d') w') =
               Some {| tm_id := id; tm_due := due; tm_cb := CbToneEnd k |}
             ∧ pendingTimer (S id) (step (DurationInput d') w') =
                 Some {| tm_id := S id; tm_due := now w + Z.max 0 (autoDurationMs w + 10);
                         tm_cb := CbUnhighlight k |})
    ∧ (∀ late g', 0 ≤ late → isLong g' →
         let w1 := set_now (due + late) (step (GapInput g') w') in
         let w2 := fire id w1 in
         isStarted (engine w2) = false
         ∧ soundingFrequencies w2 = []
         ∧ isSeqPlaying w2 = true
         ∧ seqBuffer w2 = rest
         ∧ seqTimer w2 = Some (nextTimerId w')
         ∧ pendingTimer (nextTimerId w') w2 =
             Some {| tm_id := nextTimerId w'; tm_due := due + late + Z.max 0 g';
                     tm_cb := CbNext |}).
Proof.
  intros w Hplay Hb Hk _ _ w' due.
  assert (G : Good w) by apply Good_run, Good_init.
  pose proof G as (H & _).
  assert (Hw' : w' = played k (announced k rest w)).
  { by apply scheduleNextFromBuffer_plays. }
  assert (G' : Good w') by (by apply Good_scheduleNextFrom).
  destruct (played_timers k rest w H) as (id & Hp & Hp2 & _).
  destruct (played_spec k rest w H) as (Hv & _ & _ & _ & _ & Hcur).
  rewrite <- Hw' in Hp, Hp2, Hv. fold due in Hp.
  destruct (Hcur (proj2 Hk)) as [Hck _]. rewrite <- Hw' in Hck.
  assert (Hdp : dialPreset (engine w') = dialPreset (engine w)).
  { pose proof (settings_scheduleNextFrom (seqBuffer w) w) as Hs.
    unfold settingsOf in Hs. by injection Hs. }
  exists id. split; [exact Hp |]. split; [exact Hp2 |]. split.
  { destruct G' as (_ & _ & S'). rewrite S', Hck. cbn [toneOf]. by rewrite Hdp. }
  split.
  { intros d'. cbn [step]. cbv zeta.
    change (mode (set_autoDurationMs d' w')) with (mode w').
    by destruct (mode w'). }
  intros late g' Hlate _ w1 w2.
  assert (H1 : Inv w1) by (unfold w1; cbn [step]; inv_frame; apply G').
  assert (Hp1 : pendingTimer id w1 = Some {| tm_id := id; tm_due := due; tm_cb := CbToneEnd k |})
    by exact Hp.
  assert (Hdue : due ≤ now w1) by (cbn; lia).
  destruct (fire_toneEnd id _ k w1 H1 Hp1 eq_refl Hdue) as (Hsq & Hgap & _ & Hv2 & _).
  fold w2 in Hsq, Hgap, Hv2.
  pose proof (fire_toneEnd_engine id _ k w1 Hp1 eq_refl Hdue) as He. fold w2 in He.
  assert (Hoff : isStarted (engine w2) = false).
  { rewrite He. unfold afterTone.
    change (engine (clearTimeout id w1)) with (engine w'). rewrite decide_True by done.
    apply (stopTone_off (clearTimeout id w1)). }
  split; [exact Hoff |].
  split; [apply silent_sounding; [by apply Inv_fire | exact Hoff] |].
  unfold seqView in Hv, Hv2. injection Hv2 as Hv21 _ Hv23. injection Hv as Hv1 _ Hv3.
  split; [rewrite Hv21, Hv1; exact Hplay |].
  split; [rewrite Hv23; exact Hv3 |].
  split; [exact Hsq | exact Hgap].
Qed.

(** Witness for [sequence_tone_and_gap_timing]: the second key of the
    sequence 12. *)
Lemma sequence_tone_and_gap_timing_witness :
  let w := run [PlaySeqClick "12"; Advance 120; Fire 1; Advance 160]
             (initWorld 120 40) in
  ∃ id,
    pendingTimer id (scheduleNextFromBuffer w) =
      Some {| tm_id := id; tm_due := 280; tm_cb := CbToneEnd "2" |}
    ∧ soundingFrequencies (scheduleNextFromBuffer w) = [697; 1336].
Proof.
  assert (Hk : playable "2").
  { split; [discriminate |]. apply (bool_decide_unpack _). vm_compute. exact I. }
  assert (Hlong : isLong 120 ∧ isLong (120 + 10)) by (unfold isLong; lia).
  destruct (sequence_tone_and_gap_timing 120 40
              [PlaySeqClick "12"; Advance 120; Fire 1; Advance 160] "2" []
              eq_refl eq_refl Hk (proj1 Hlong) (proj2 Hlong)) as (id & Hp & _ & Hs & _).
  exists id. split; [exact Hp | exact Hs].
Defined.

(** ** Restarting a sequence *)

Lemma cancelSequencePlayback_timers w t :
  Inv w → t ∈ timers w → tm_cb t ≠ CbNext → t ∈ timers (cancelSequencePlayback w).
Proof.
  intros H Ht Hcb. unfold cancelSequencePlayback.
  destruct (seqTimer w) as [sq |] eqn:Hsq; [| done].
  change (t ∈ filter (λ t, tm_id t ≠ sq) (timers w)).
  apply list_elem_of_filter. split; [| done]. intros Hid.
  destruct (inv_seqTimer w H sq Hsq) as [_ Hnext]. by apply Hcb, Hnext.
Qed.

Lemma cancelSequencePlayback_clock w :
  now (cancelSequencePlayback w) = now w
  ∧ autoDurationMs (cancelSequencePlayback w) = autoDurationMs w
  ∧ nextTimerId (cancelSequencePlayback w) = nextTimerId w.
Proof. unfold cancelSequencePlayback. by destruct (seqTimer w). Qed.

(** The start of a sequence whose text holds a playable key: the first
    such key is played on the page whose recorded gap timer was
    cancelled. *)
Lemma startSequence_plays raw w :
  Inv w → keysOf raw ≠ [] →
  ∃ k rest,
    head (keysOf raw) = Some k ∧ playable k
    ∧ startSequencePlaybackFromText raw w =
        played k (announced k rest
          (set_isSeqPlaying true
             (cancelSequencePlayback
                (set_seqBuffer (split_chars (String.substring 0 128 raw)) w)))).
Proof.
  intros H Hkeys. unfold keysOf in *. rewrite <- split_chars_substring in *.
  set (buf := split_chars (String.substring 0 128 raw)) in *.
  unfold startSequencePlaybackFromText. fold buf.
  change (seqBuffer (set_seqBuffer buf w)) with buf.
  assert (Hbuf : buf ≠ []) by (intros Hnil; by rewrite Hnil in Hkeys).
  rewrite decide_False by (by destruct buf).
  set (wc := set_isSeqPlaying true (cancelSequencePlayback (set_seqBuffer buf w))).
  assert (Hc : Inv wc).
  { unfold wc. inv_frame. apply Inv_cancelSequencePlayback. by inv_frame. }
  unfold scheduleNextFromBuffer.
  assert (Hsb : seqBuffer wc = buf).
  { unfold wc, cancelSequencePlayback. by destruct (seqTimer _). }
  rewrite Hsb.
  destruct (scheduleNextFrom_spec buf wc Hc eq_refl)
    as [[Hf _] | (sk & k & rest & Hb & Hf & Hk & Hs)]; [done | done |].
  exists k, rest. split; [| done].
  by rewrite Hb, filter_app, Hf, filter_cons, decide_True.
Qed.

(** X14: a restart during a tone of a sequence leaves the end of that
    tone armed. After any events on a fresh page, clicking play on a text
    with a playable key while a tone-end timer is pending cancels only
    the gap timer recorded in [seqTimer]: the old tone-end timer stays
    pending beside the one of the first key of the new text. When the old
    one fires it arms a gap timer for the new queue, the new tone-end
    timer still pending, so that two chains of timers drain the new
    queue; and when the old and the new key are the same, it cuts the new
    tone at the time meant for the old one. *)
Theorem restart_leaves_tone_end_timer
  (d g : Z) (es : list event) (raw : string) (id : nat) (t : Timer) (k0 : string) :
  let w := run es (initWorld d g) in
  pendingTimer id w = Some t → tm_cb t = CbToneEnd k0 → keysOf raw ≠ [] →
  let w1 := startSequencePlaybackFromText raw w in
  pendingTimer id w1 = Some t
  ∧ ∃ id' k,
      id' ≠ id
      ∧ head (keysOf raw) = Some k
      ∧ currentKey (engine w1) = Some k
      ∧ pendingTimer id' w1 =
          Some {| tm_id := id'; tm_due := now w + Z.max 0 (autoDurationMs w);
                  tm_cb := CbToneEnd k |}
      ∧ ∀ late, 0 ≤ late →
          let w2 := fire id (set_now (Z.max (now w) (tm_due t) + late) w1) in
          pendingTimer id' w2 =
            Some {| tm_id := id'; tm_due := now w + Z.max 0 (autoDurationMs w);
                    tm_cb := CbToneEnd k |}
          ∧ seqTimer w2 = Some (nextTimerId w1)
          ∧ (∃ gap, pendingTimer (nextTimerId w1) w2 = Some gap ∧ tm_cb gap = CbNext)
          ∧ isSeqPlaying w2 = true
          ∧ (k = k0 → isStarted (engine w2) = false).
Proof.
  intros w Hp Hcb Hkeys w1.
  assert (H : Inv w) by apply Inv_run, Inv_init.
  assert (H1 : Inv w1) by by apply Inv_startSequencePlaybackFromText.
  destruct (startSequence_plays raw w H Hkeys) as (k & rest & Hhd & Hk & Hw1).
  fold w1 in Hw1.
  set (buf := split_chars (String.substring 0 128 raw)) in *.
  set (wc := set_isSeqPlaying true (cancelSequencePlayback (set_seqBuffer buf w))) in *.
  assert (Hc : Inv wc).
  { unfold wc. inv_frame. apply Inv_cancelSequencePlayback. by inv_frame. }
  destruct (cancelSequencePlayback_clock (set_seqBuffer buf w)) as (Hnow & Hdur & Hni).
  destruct (pendingTimer_Some _ _ _ Hp) as [Ht Hid].
  assert (Htc : t ∈ timers wc).
  { apply (cancelSequencePlayback_timers (set_seqBuffer buf w)); [by inv_frame | done |].
    by rewrite Hcb. }
  destruct (played_timers k rest wc Hc) as (id' & Hp' & _ & Hle & Hkeep).
  rewrite <- Hw1 in Hp', Hkeep.
  change (now wc) with (now (cancelSequencePlayback (set_seqBuffer buf w))) in Hp'.
  change (autoDurationMs wc)
    with (autoDurationMs (cancelSequencePlayback (set_seqBuffer buf w))) in Hp'.
  rewrite Hnow, Hdur in Hp'.
  change (now (set_seqBuffer buf w)) with (now w) in Hp'.
  change (autoDurationMs (set_seqBuffer buf w)) with (autoDurationMs w) in Hp'.
  change (nextTimerId wc)
    with (nextTimerId (cancelSequencePlayback (set_seqBuffer buf w))) in Hle.
  rewrite Hni in Hle. change (nextTimerId (set_seqBuffer buf w)) with (nextTimerId w) in Hle.
  assert (Hne : id' ≠ id).
  { pose proof (inv_fresh w H t Ht). lia. }
  assert (Hp1 : pendingTimer id w1 = Some t).
  { apply in_pendingTimer; [apply H1 | | done]. apply Hkeep; [done | by rewrite Hcb]. }
  destruct (played_spec k rest wc Hc) as (Hv & _ & _ & _ & _ & Hcur).
  rewrite <- Hw1 in Hv, Hcur. destruct (Hcur (proj2 Hk)) as [Hck _].
  split; [exact Hp1 |]. exists id', k.
  split; [done |]. split; [done |]. split; [done |]. split; [done |].
  intros late Hlate w2.
  set (wn := set_now (Z.max (now w) (tm_due t) + late) w1) in *.
  assert (Hn : Inv wn) by (unfold wn; by inv_frame).
  assert (Hdue : tm_due t ≤ now wn) by (cbn; lia).
  assert (Hpn : pendingTimer id wn = Some t) by exact Hp1.
  destruct (fire_toneEnd id t k0 wn Hn Hpn Hcb Hdue) as (Hsq & Hgap & Hts & Hv2 & _).
  fold w2 in Hsq, Hgap, Hts, Hv2.
  assert (Hn0 : Inv (clearTimeout id wn)).
  { apply (Inv_clearTimeout_chain id t); [done | done | by rewrite Hcb]. }
  split.
  { apply in_pendingTimer; [by apply Inv_fire | | done].
    rewrite Hts. apply elem_of_app. left.
    assert (Hin : {| tm_id := id'; tm_due := now w + Z.max 0 (autoDurationMs w);
                     tm_cb := CbToneEnd k |} ∈ timers (clearTimeout id wn)).
    { unfold clearTimeout. cbn [timers set_timers]. apply list_elem_of_filter.
      split; [done |]. by destruct (pendingTimer_Some _ _ _ Hp'). }
    unfold afterTone. case_decide; [| done].
    change (timers (setCurrentKeyDash (stopTone (clearTimeout id wn))))
      with (timers (stopTone (clearTimeout id wn))).
    by apply stopTone_timers_keep. }
  split; [exact Hsq |]. split; [eexists; split; [exact Hgap | done] |].
  split.
  { unfold seqView in Hv2, Hv. injection Hv2 as -> _ _. by injection Hv as -> _ _. }
  intros <-. unfold w2. rewrite (fire_toneEnd_engine id t k wn Hpn Hcb Hdue).
  unfold afterTone. change (engine (clearTimeout id wn)) with (engine w1).
  rewrite decide_True by done. apply (stopTone_off (clearTimeout id wn)).
Qed.

(** Witness for [restart_leaves_tone_end_timer]: the sequence 12 restarted
    with 1 at 50 ms, during its first tone. *)
Lemma restart_leaves_tone_end_timer_witness :
  let w := run [PlaySeqClick "12"; Advance 50] (initWorld 120 40) in
  let w1 := startSequencePlaybackFromText "1" w in
  pendingTimer 1 w1 = Some {| tm_id := 1; tm_due := 120; tm_cb := CbToneEnd "1" |}
  ∧ pendingTimer 3 w1 = Some {| tm_id := 3; tm_due := 170; tm_cb := CbToneEnd "1" |}
  ∧ isStarted (engine (fire 1 (set_now 120 w1))) = false.
Proof.
  destruct (restart_leaves_tone_end_timer 120 40 [PlaySeqClick "12"; Advance 50] "1"
              1%nat {| tm_id := 1; tm_due := 120; tm_cb := CbToneEnd "1" |} "1"
              eq_refl eq_refl) as (H1 & id' & k & _ & Hhd & _ & _ & Hfire);
    [by vm_compute |].
  split; [exact H1 |]. split; [reflexivity |].
  assert (Hk : k = "1") by (vm_compute in Hhd; by injection Hhd).
  destruct (Hfire 0) as (_ & _ & _ & _ & Hoff); [done |].
  exact (Hoff Hk).
Defined.

(** ** Names the tables inherit *)

(** X15: the lookup answers for the thirteen keys and for the names every
    object inherits, and for nothing else. For an inherited name, such as
    [toString], both frequencies are the inherited member, not a number:
    after any events on a fresh page [startToneForKey] then passes its
    guard, stops the tone that sounds, creates the gate and one
    oscillator and ends with the TypeError of the frequency assignment;
    the engine is left not started, without current key, nothing
    sounding, and with no timer added. The keyboard handlers never pass
    such a name on. *)
Theorem inherited_name_stops_tone_and_throws
  (d g : Z) (es : list event) (p : RegionalPreset) (key : string) :
  let w := run es (initWorld d g) in
  ((getFrequenciesForKey p key ≠ None) ↔ (key ∈ validKeys ∨ key ∈ objectPrototype))
  ∧ (key ∈ objectPrototype →
       let w' := snd (startToneForKey key w) in
       (key ∉ validKeys)
       ∧ fst (startToneForKey key w) = Threw
       ∧ isStarted (engine w') = false
       ∧ currentKey (engine w') = None
       ∧ soundingFrequencies w' = []
       ∧ nodes w' = nodes (stopTone (ensureContext w)) ++
           [NGain {| gain_value := 1; gain_out := Some (ToNode 0) |}; newOscillator]
       ∧ (∀ t, t ∈ timers w' → t ∈ timers w)
       ∧ step (KeyDown false key) w = w
       ∧ step (KeyUp false key) w = w).
Proof.
  intros w. split.
  - split.
    + intros Hl. destruct (decide (key ∈ validKeys)) as [| Hout]; [by left |]. right.
      destruct (tables_miss key Hout) as [Hlow Hhigh].
      assert (key ≠ "*" ∧ key ≠ "/") as [H1 H2].
      { split; intros ->; apply Hout; apply validKeys_spec; in_list. }
      revert Hl. unfold getFrequenciesForKey, getProp.
      rewrite !decide_False by done. rewrite Hlow, Hhigh.
      by case_bool_decide.
    + intros [Hin | Hin].
      * destruct (lookup_valid p key Hin) as (fa & vb & c & ct & -> & _). done.
      * by rewrite lookup_inherited.
  - intros Hin w'.
    assert (G : Good w) by apply Good_run, Good_init.
    pose proof G as (H & W & _).
    pose proof (inherited_not_valid key Hin) as Hout.
    pose proof (lookup_inherited (dialPreset (engine w)) key Hin) as Hl.
    assert (G' : Good w').
    { apply Good_startToneForKey; [done | done |]. right. by rewrite Hl. }
    destruct (startToneForKey_unfold key _ w H Hl) as (mg & Hun & Hmg & Hctx).
    set (w0 := stopTone (ensureContext w)) in *.
    assert (H0 : Inv w0) by apply Inv_stopTone, Inv_ensureContext, H.
    assert (W0 : Wired w0).
    { apply Wired_stopTone; [by apply Inv_ensureContext | by apply Wired_ensureContext]. }
    destruct (wired_master w0 W0 mg Hmg) as [-> _].
    destruct (wireTone_threw key
                {| a := JInherited key; b := JInherited key; isContinuous := false;
                   cadence := None |} 0%nat w0 Hctx)
      as (Hthrew & _ & Hns & _ & _ & _ & Hck & Hst & _ & _ & _ & _ & _ & Hts & _);
      [done |].
    unfold w'. rewrite Hun.
    pose proof (stopTone_off (ensureContext w)) as Hoff. fold w0 in Hoff.
    split; [done |]. split; [done |]. split; [by rewrite Hst |].
    split; [rewrite Hck; by apply (inv_key w0 H0) |].
    split.
    { rewrite <- Hun. destruct G' as (H' & _).
      apply silent_sounding; [exact H' |]. fold w'. unfold w'. by rewrite Hun, Hst. }
    split; [exact Hns |]. split.
    { intros t. rewrite Hts. unfold w0. intros Ht.
      rewrite <- (ensureContext_timers w).
      destruct (isStarted (engine (ensureContext w))) eqn:E.
      - destruct (stopTone_started _ E) as (_ & Hx & _). rewrite Hx in Ht.
        destruct (cadenceTimeoutId _); [| done].
        by apply list_elem_of_filter in Ht as [_ ?].
      - unfold stopTone in Ht. by rewrite E in Ht. }
    cbn [step]. by rewrite bool_decide_eq_false_2.
Qed.

(** Witness for [inherited_name_stops_tone_and_throws]: [toString] while
    the key [5] sounds. *)
Lemma inherited_name_stops_tone_and_throws_witness :
  let w := run [PointerDown "5"] (initWorld 120 40) in
  soundingFrequencies w = [770; 1336]
  ∧ fst (startToneForKey "toString" w) = Threw
  ∧ soundingFrequencies (snd (startToneForKey "toString" w)) = [].
Proof.
  destruct (inherited_name_stops_tone_and_throws 120 40 [PointerDown "5"] us "toString")
    as [_ H].
  destruct H as (_ & Ht & _ & _ & Hs & _); [unfold objectPrototype; in_list |].
  split; [reflexivity |]. split; [exact Ht | exact Hs].
Defined.

(** ** The dial-tone preset *)

(** X16: the dial-tone selector takes effect at once. After any events on
    a fresh page, a change of the selector sets the preset of the engine
    and keeps the current key; while the dial tone [*] sounds, the tone is
    restarted with the frequencies of the new preset (400 Hz for [jp],
    350 Hz and 440 Hz for [us]); while any other key or none is the
    current one, no node and no timer is touched. *)
Theorem preset_change_restarts_dial_tone
  (d g : Z) (es : list event) (p : RegionalPreset) :
  let w := run es (initWorld d g) in
  let w' := step (PresetChange p) w in
  dialPreset (engine w') = p
  ∧ currentKey (engine w') = currentKey (engine w)
  ∧ (currentKey (engine w) = Some "*" →
       soundingFrequencies w' = match p with jp => [400] | us => [350; 440] end)
  ∧ (currentKey (engine w) ≠ Some "*" →
       nodes w' = nodes w ∧ timers w' = timers w
       ∧ soundingFrequencies w' = soundingFrequencies w).
Proof.
  intros w w'.
  assert (G : Good w) by apply Good_run, Good_init.
  assert (G' : Good w') by by apply Good_step.
  pose proof G as (H & W & S).
  assert (Hdp : dialPreset (engine w') = p).
  { pose proof (settings_step (PresetChange p) w) as Hs. fold w' in Hs.
    unfold settingsOf in Hs. cbn [applySetting] in Hs. by injection Hs. }
  set (w1 := setDialPreset p w).
  assert (Hw' : w' = if bool_decide (currentKey (engine w) = Some "*") && isStarted (engine w)
                     then snd (startToneForKey "*" w1) else w1) by reflexivity.
  assert (Hstar : "*" ∈ validKeys) by (apply (bool_decide_unpack _); vm_compute; exact I).
  destruct (decide (currentKey (engine w) = Some "*")) as [Hck | Hck].
  - assert (Hst : isStarted (engine w) = true).
    { destruct (isStarted (engine w)) eqn:E; [done |].
      rewrite (inv_key w H E) in Hck. done. }
    rewrite bool_decide_eq_true_2, Hst in Hw' by done. cbn [andb] in Hw'.
    destruct (startToneForKey_valid "*" w1 (Inv_setDialPreset p w H) Hstar) as (_ & Hck' & _).
    rewrite <- Hw' in Hck'.
    split; [done |]. split; [congruence |]. split; [| done].
    intros _. destruct G' as (_ & _ & S'). rewrite S', Hck', Hdp. by destruct p.
  - rewrite bool_decide_eq_false_2 in Hw' by done. cbn [andb] in Hw'.
    split; [done |]. split; [by rewrite Hw' |]. split; [done |].
    intros _. by rewrite Hw'.
Qed.

(** Witness for [preset_change_restarts_dial_tone]: the dial tone held
    while the selector goes to [jp]. *)
Lemma preset_change_restarts_dial_tone_witness :
  let w := run [PointerDown "*"] (initWorld 120 40) in
  soundingFrequencies w = [350; 440]
  ∧ soundingFrequencies (step (PresetChange jp) w) = [400].
Proof.
  destruct (preset_change_restarts_dial_tone 120 40 [PointerDown "*"] jp)
    as (_ & _ & H & _).
  split; [reflexivity | exact (H eq_refl)].
Defined.

(** ** A key without a tone *)

Lemma startToneForKey_unknown key w :
  isSymbol key → key ∉ validKeys → startToneForKey key w = (Normal, w).
Proof.
  intros Hsym Hout. unfold startToneForKey. by rewrite lookup_unknown.
Qed.

(** X17: a press on a key that has no tone. After any events on a fresh
    page, a pointer press whose [data-key] is a symbol outside the
    thirteen keys starts nothing, yet the key is highlighted, displayed
    and logged. In hold mode the release only removes the highlight, the
    display keeps the key. In auto mode the status turns to playing and
    the timer of the tone length is armed; when it fires it finds another
    current key, or none, and clears nothing: the display, the highlight
    and the status stay. *)
Theorem unknown_key_is_shown_but_silent (d g : Z) (es : list event) (key : string) :
  let w := run es (initWorld d g) in
  isSymbol key → key ∉ validKeys →
  let w1 := step (PointerDown key) w in
  engine w1 = engine w
  ∧ (mode w = hold →
       ui w1 = ui w ++ [AddActive key; SetCurrentKey (Some key); AppendLog key]
       ∧ timers w1 = timers w
       ∧ step (PointerUp key) w1 = logUi (RemoveActive key) w1)
  ∧ (mode w = auto →
       let id := nextTimerId w in
       let due := now w + Z.max 0 (autoDurationMs w) in
       ui w1 = ui w ++ [AddActive key; SetCurrentKey (Some key); AppendLog key;
                        SetStatus StPlaying]
       ∧ timers w1 = timers w ++ [{| tm_id := id; tm_due := due; tm_cb := CbAutoStop key |}]
       ∧ ∀ late, 0 ≤ late →
           let w2 := fire id (set_now (due + late) w1) in
           ui w2 = ui w1 ∧ engine w2 = engine w ∧ timers w2 = timers w).
Proof.
  intros w Hsym Hout w1.
  assert (G : Good w) by apply Good_run, Good_init.
  pose proof G as (H & W & _).
  assert (Hne : key ≠ "") by (intros ->; discriminate Hsym).
  assert (Hnk : currentKey (engine w) ≠ Some key).
  { intros Hck. by apply Hout, (wired_key w W). }
  set (wa := appendLog key (setCurrentKey key (logUi (AddActive key) w))).
  assert (Hui : ui wa = ui w ++ [AddActive key; SetCurrentKey (Some key); AppendLog key]).
  { unfold wa, appendLog, setCurrentKey, logUi. cbn [ui set_ui].
    rewrite decide_False by done. by rewrite <- !app_assoc. }
  assert (Hw1 : w1 = match mode w with
                     | hold => wa
                     | auto => snd (setTimeout (CbAutoStop key) (autoDurationMs w)
                                      (setStatus StPlaying wa))
                     end).
  { unfold w1. cbn [step]. rewrite decide_False by done. unfold triggerKeyDown.
    fold wa. rewrite (startToneForKey_unknown key wa Hsym Hout).
    change (mode wa) with (mode w). by destruct (mode w). }
  split; [rewrite Hw1; by destruct (mode w) |]. split.
  - intros Hm. rewrite Hm in Hw1. rewrite Hw1.
    split; [exact Hui |]. split; [done |].
    cbn [step]. apply triggerKeyUp_other. by right.
  - intros Hm id due. rewrite Hm in Hw1.
    assert (Hts : timers w1 = timers w ++
              [{| tm_id := id; tm_due := due; tm_cb := CbAutoStop key |}])
      by (by rewrite Hw1).
    split.
    { rewrite Hw1. unfold setTimeout, setStatus, logUi.
      cbn [snd ui set_ui set_timers set_nextTimerId]. rewrite Hui.
      by rewrite <- app_assoc. }
    split; [exact Hts |].
    intros late Hlate w2.
    set (wn := set_now (due + late) w1) in *.
    assert (H1 : Inv w1) by by apply Inv_step.
    assert (Hn : Inv wn) by (unfold wn; by inv_frame).
    assert (Hp : pendingTimer id wn =
                 Some {| tm_id := id; tm_due := due; tm_cb := CbAutoStop key |}).
    { apply in_pendingTimer; [apply Hn | | done].
      change (timers wn) with (timers w1). rewrite Hts. apply elem_of_app. right. left. }
    destruct (fire_autoStop id _ key wn Hn Hp eq_refl) as [_ Hsame]; [cbn; lia |].
    assert (He : engine wn = engine w) by (unfold wn; by rewrite Hw1).
    unfold w2. rewrite Hsame by by rewrite He.
    split; [done |]. split; [exact He |].
    unfold clearTimeout. cbn [timers set_timers]. change (timers wn) with (timers w1).
    rewrite Hts, filter_app, filter_cons, decide_False by (cbn; auto).
    rewrite filter_nil, app_nil_r. apply filter_id_absent.
    intros [t [Hid Ht]]%list_elem_of_fmap.
    pose proof (inv_fresh w H t Ht) as Hlt. unfold id in Hid. lia.
Qed.

(** Witness for [unknown_key_is_shown_but_silent]: a press on [a] in auto
    mode while nothing sounds. *)
Lemma unknown_key_is_shown_but_silent_witness :
  let w := run [ModeChange auto] (initWorld 120 40) in
  let w1 := step (PointerDown "a") w in
  nodes w1 = []
  ∧ ui (fire 1 (set_now 120 w1))
    = [SetStatus (StAuto 120); AddActive "a"; SetCurrentKey (Some "a"); AppendLog "a";
       SetStatus StPlaying].
Proof.
  assert (Hout : "a" ∉ validKeys).
  { apply (bool_decide_unpack _). vm_compute. exact I. }
  destruct (unknown_key_is_shown_but_silent 120 40 [ModeChange auto] "a" eq_refl Hout)
    as (_ & _ & Ha).
  destruct (Ha eq_refl) as (_ & _ & Hf).
  destruct (Hf 0) as (Hu & _); [done |].
  split; [reflexivity | exact Hu].
Defined.

(** ** The keys held down *)

Lemma pressedKeys_engine_only w w' : engine_only w w' → pressedKeys w' = pressedKeys w.
Proof. intros ->. reflexivity. Qed.

Lemma pressedKeys_stopTone w : pressedKeys (stopTone w) = pressedKeys w.
Proof. apply pressedKeys_engine_only, stopTone_engine_only. Qed.

Lemma pressedKeys_toggle on off isOn w :
  pressedKeys (toggle on off isOn w) = pressedKeys w.
Proof. apply pressedKeys_engine_only, toggle_engine_only. Qed.

Lemma pressedKeys_triggerKeyUp k w : pressedKeys (triggerKeyUp k w) = pressedKeys w.
Proof.
  unfold triggerKeyUp. destruct (mode _); [| done]. case_decide; [| done].
  apply (pressedKeys_stopTone (logUi (RemoveActive k) w)).
Qed.

Lemma pressedKeys_scheduleNextFrom buf w :
  pressedKeys (scheduleNextFrom buf w) = pressedKeys w.
Proof.
  revert w. induction buf as [| k rest IH]; intros w; cbn [scheduleNextFrom].
  - by destruct (isSeqPlaying w).
  - destruct (isSeqPlaying w); cbn [negb]; [| done].
    destruct (decide (k = "")); [by rewrite IH |].
    destruct (bool_decide _); cbn [negb]; [| by rewrite IH].
    lazymatch goal with |- context [startToneForKey k ?w0] => set (wa := w0) end.
    pose proof (pressedKeys_engine_only _ _ (startToneForKey_engine_only k wa)) as Hs.
    change (pressedKeys wa) with (pressedKeys w) in Hs.
    destruct (startToneForKey k wa) as [c w1]. by destruct c.
Qed.

Lemma pressedKeys_fire id w : pressedKeys (fire id w) = pressedKeys w.
Proof.
  unfold fire. destruct (pendingTimer id w) as [t |]; [| done].
  case_decide; [| done].
  destruct (tm_cb t) as [isOn on off | localK | | k | localKey]; cbn [runCallback].
  - apply (pressedKeys_toggle on off isOn (clearTimeout id w)).
  - case_decide; [| done]. apply (pressedKeys_stopTone (clearTimeout id w)).
  - unfold scheduleNextFromBuffer. by rewrite pressedKeys_scheduleNextFrom.
  - done.
  - case_decide; [| done]. apply (pressedKeys_stopTone (clearTimeout id w)).
Qed.

Lemma pressedKeys_step e w : pressedKeys (step e w) = heldAfter e (pressedKeys w).
Proof.
  destruct (cancelSequencePlayback_page w) as (Hcp & _).
  destruct e; cbn [step heldAfter].
  - done.
  - apply pressedKeys_fire.
  - unfold startSequencePlaybackFromText. case_decide; [done |].
    unfold scheduleNextFromBuffer. rewrite pressedKeys_scheduleNextFrom.
    lazymatch goal with |- context [cancelSequencePlayback ?w0] =>
      exact (proj1 (cancelSequencePlayback_page w0)) end.
  - exact Hcp.
  - case_decide; [done |]. by destruct (triggerKeyDown_page key w) as [-> _].
  - apply pressedKeys_triggerKeyUp.
  - destruct editable; [done |].
    destruct (bool_decide (k ∈ validKeys)) eqn:Hk; cbn [negb]; [| done].
    apply bool_decide_eq_true in Hk.
    destruct (cancel_if_playing w) as (Hpk & Hmd & _). cbv zeta in Hpk, Hmd.
    rewrite Hpk, Hmd.
    destruct (bool_decide (k ∈ pressedKeys w) && bool_decide (mode w = hold)) eqn:Hc.
    + apply andb_prop in Hc as [Hin%bool_decide_eq_true _]. rewrite Hpk.
      apply set_eq. intros x. rewrite elem_of_union, elem_of_singleton.
      split; [auto | by intros [-> | ?]].
    + lazymatch goal with |- context [triggerKeyDown k ?w0] =>
        by destruct (triggerKeyDown_page k w0) as [-> _] end.
  - destruct editable; [done |].
    destruct (bool_decide (k ∈ validKeys)); cbn [negb]; [| done].
    by rewrite pressedKeys_triggerKeyUp.
  - by rewrite (pressedKeys_engine_only w (setVolume v w))
      by by destruct (setVolume_spec v w) as (_ & _ & _ & _ & _ & _ & _ & _ & _ & _ & ?).
  - cbv zeta. change (mode (set_autoDurationMs d w)) with (mode w). by destruct (mode w).
  - done.
  - done.
  - cbv zeta. destruct (_ && _); [| done].
    by rewrite (pressedKeys_engine_only _ _ (startToneForKey_engine_only "*" _)).
  - by destruct (audioContext (engine w)).
Qed.

(** X18: the set of pressed keys mirrors the keyboard. After any events
    the set holds exactly the recognized keys whose keydown was seen
    outside editable elements with no keyup seen there since: a keydown
    and its keyup leave the set as it was, and nothing else, no timer,
    pointer, sequence or control, touches it. A keyup that arrives while
    an editable element has the focus is not seen: the key stays in the
    set, and in hold mode its next keydown is taken for an auto-repeat
    and changes nothing. *)
Theorem pressed_keys_mirror_keyboard (es : list event) (w : World) (k : string) :
  pressedKeys (run es w) = foldl (λ held e, heldAfter e held) (pressedKeys w) es
  ∧ (k ∈ validKeys → k ∉ pressedKeys w →
       pressedKeys (run [KeyDown false k; KeyUp false k] w) = pressedKeys w)
  ∧ (k ∈ validKeys → mode w = hold →
       let w1 := run [KeyDown false k; KeyUp true k] w in
       k ∈ pressedKeys w1 ∧ step (KeyDown false k) w1 = w1).
Proof.
  split; [| split].
  - revert w. induction es as [| e es IH]; intros w; [done |].
    cbn [run foldl]. unfold run in IH. by rewrite IH, pressedKeys_step.
  - intros Hk Hout. cbn [run foldl]. rewrite !pressedKeys_step. cbn [heldAfter].
    rewrite !bool_decide_eq_true_2 by done.
    apply set_eq. intros x.
    rewrite elem_of_difference, elem_of_union, elem_of_singleton.
    split; [by intros [[-> | ?] ?] |]. intros Hx. split; [by right |].
    by intros ->.
  - intros Hk Hm w1.
    assert (Hw1 : w1 = step (KeyDown false k) w) by reflexivity.
    assert (Hin : k ∈ pressedKeys w1).
    { rewrite Hw1, pressedKeys_step. cbn [heldAfter].
      rewrite bool_decide_eq_true_2 by done.
      apply elem_of_union. left. by apply elem_of_singleton. }
    split; [done |].
    destruct (settings_step_other (KeyDown false k) w eq_refl) as (Hm1 & _).
    rewrite <- Hw1 in Hm1.
    rewrite keydown_pressed; [| done | done | congruence].
    assert (Hidle : isSeqPlaying w1 = false).
    { rewrite Hw1. destruct (cancel_if_playing w) as (_ & _ & Hi & _). cbv zeta in Hi.
      destruct (decide (k ∈ pressedKeys w)) as [Hp | Hp].
      - by rewrite keydown_pressed.
      - rewrite keydown_fresh by auto.
        lazymatch goal with |- context [triggerKeyDown k ?w0] =>
          pose proof (seqView_triggerKeyDown k w0) as Hv end.
        unfold seqView in Hv. by injection Hv as -> _ _. }
    by rewrite Hidle.
Qed.

(** Witness for [pressed_keys_mirror_keyboard]: the key [5] released
    while the text field has the focus. *)
Lemma pressed_keys_mirror_keyboard_witness :
  let w1 := run [KeyDown false "5"; KeyUp true "5"] (initWorld 120 40) in
  "5" ∈ pressedKeys w1 ∧ step (KeyDown false "5") w1 = w1.
Proof.
  assert (Hv : "5" ∈ validKeys) by (apply (bool_decide_unpack _); vm_compute; exact I).
  destruct (pressed_keys_mirror_keyboard [] (initWorld 120 40) "5") as (_ & _ & H).
  exact (H Hv eq_refl).
Defined.

(** ** A sequence and the rest of the page *)

Lemma progressing_frame exp w w' :
  seqView w' = seqView w →
  (∀ t, t ∈ timers w → isChain (tm_cb t) = true → t ∈ timers w') →
  progressing exp w → progressing exp w'.
Proof.
  unfold seqView. intros [= Hv1 Hv2 Hv3] Hkeep Hp.
  destruct Hp as [(Hplay & Hexp & t & Ht & Hc) | (Hplay & Hexp)]; [left | right].
  - rewrite Hv1, Hv2, Hv3. split; [done |]. split; [done |]. eauto.
  - by rewrite Hv1, Hv2.
Qed.

Lemma draining_progressing exp c0 w : draining exp c0 w → progressing exp w.
Proof.
  intros [(Hplay & Hexp & _ & Ht) | (Hplay & Hexp & _)]; [by left | by right].
Qed.

Lemma chain_not_cadence (t : Timer) : isChain (tm_cb t) = true → is_cadence (tm_cb t) = false.
Proof. by destruct (tm_cb t). Qed.

Lemma setVolume_timers v w : timers (setVolume v w) = timers w.
Proof. destruct_world w. destruct mg, ctx as [[cst ns] |]; reflexivity. Qed.

Lemma triggerKeyUp_timers k w :
  Inv w → ∀ t, t ∈ timers w → is_cadence (tm_cb t) = false → t ∈ timers (triggerKeyUp k w).
Proof.
  intros H t Ht Hc. unfold triggerKeyUp. destruct (mode _); [| done].
  case_decide; [| done].
  change (t ∈ timers (stopTone (logUi (RemoveActive k) w))).
  apply stopTone_timers_keep; [by inv_frame | done | done].
Qed.

(** Every event that does not interrupt the sequence leaves it on its
    way. *)
Lemma progressing_step exp e w :
  interruptsSequence e = false → Inv w → progressing exp w →
  progressing exp (step e w).
Proof.
  intros He H Hp.
  destruct (isSeqPlaying w) eqn:Hplay.
  2: { destruct Hp as [(? & _) | (_ & Hexp)]; [congruence |]. right.
       assert (Hn : isPlayClick e = false) by by destruct e.
       pose proof (seqView_step_idle e w Hn Hplay) as Hv.
       unfold seqView in Hv. injection Hv as -> -> _. by rewrite Hplay. }
  destruct e; try discriminate He; cbn [step].
  - exact Hp.
  - apply (draining_progressing exp (idleCount w)). apply draining_fire; [done |].
    destruct Hp as [(_ & Hexp & Ht) | (? & _)]; [by left | congruence].
  - case_decide; [done |]. revert Hp. apply progressing_frame.
    + apply seqView_triggerKeyDown.
    + intros t Ht Hc. apply triggerKeyDown_timers; [done | done |].
      by apply chain_not_cadence.
  - revert Hp. apply progressing_frame.
    + apply seqView_triggerKeyUp.
    + intros t Ht Hc. apply triggerKeyUp_timers; [done | done |].
      by apply chain_not_cadence.
  - destruct editable; [done |]. cbn [interruptsSequence] in He.
    by rewrite He.
  - destruct editable; [done |]. destruct (bool_decide _); cbn [negb]; [| done].
    revert Hp. apply progressing_frame.
    + by rewrite seqView_triggerKeyUp.
    + intros t Ht Hc. apply triggerKeyUp_timers; [by inv_frame | done |].
      by apply chain_not_cadence.
  - revert Hp. apply progressing_frame; [apply seqView_setVolume |].
    intros t Ht _. by rewrite setVolume_timers.
  - cbv zeta. change (mode (set_autoDurationMs d w)) with (mode w).
    revert Hp. apply progressing_frame; by destruct (mode w).
  - exact Hp.
  - exact Hp.
  - cbv zeta. destruct (_ && _); [| exact Hp].
    revert Hp. apply progressing_frame.
    + by rewrite seqView_startToneForKey.
    + intros t Ht Hc.
      apply (startToneForKey_timers "*" (setDialPreset p w)); [| done |].
      * by apply Inv_setDialPreset.
      * by apply chain_not_cadence.
  - destruct (audioContext (engine w)); exact Hp.
Qed.

(** The start of a sequence sets it on its way through the keys of the
    text. *)
Lemma startSequence_draining raw w :
  Inv w → raw ≠ "" →
  draining (seqPlayed w ++ keysOf raw) (idleCount w)
    (startSequencePlaybackFromText raw w).
Proof.
  intros H Hraw.
  set (queue := take 128 (split_chars raw)).
  set (w0 := set_isSeqPlaying true (cancelSequencePlayback (set_seqBuffer queue w))).
  assert (Hq : queue = split_chars (String.substring 0 128 raw))
    by (unfold queue; by rewrite split_chars_substring).
  assert (Hw1 : startSequencePlaybackFromText raw w = scheduleNextFromBuffer w0).
  { unfold startSequencePlaybackFromText. cbn [seqBuffer set_seqBuffer].
    rewrite <- Hq. rewrite decide_False; [done |].
    pose proof (split_chars_nonempty raw Hraw) as Hne. fold queue in Hne.
    by destruct queue. }
  assert (H0 : Inv w0).
  { unfold w0. apply Inv_set_isSeqPlaying, Inv_cancelSequencePlayback.
    by apply Inv_set_seqBuffer. }
  assert (Hpl0 : seqPlayed w0 = seqPlayed w).
  { unfold w0, cancelSequencePlayback. by destruct (seqTimer _). }
  assert (Hbuf0 : seqBuffer w0 = queue).
  { unfold w0, cancelSequencePlayback. by destruct (seqTimer _). }
  assert (Hi0 : idleCount w0 = idleCount w).
  { unfold w0, cancelSequencePlayback. by destruct (seqTimer _). }
  rewrite Hw1. unfold keysOf. fold queue. rewrite <- Hpl0, <- Hbuf0, <- Hi0.
  by apply draining_scheduleNextFromBuffer.
Qed.

(** X19: a sequence goes on through everything that does not interrupt
    it. After any events on a fresh page, once a non-empty text is
    played, whatever follows among timers, pointer presses and releases,
    keyups, key events in editable elements, sliders, mode and preset
    changes and suspensions of the context, in any order, the keys played
    so far followed by the playable keys still queued are the recognized
    keys of the text in order, with a timer pending that carries the
    sequence on, until the player has stopped having played them all.
    Only the play and stop buttons and the keydown of a recognized key
    interrupt it. *)
Theorem sequence_survives_pointer_and_controls
  (d g : Z) (es es' : list event) (raw : string) :
  raw ≠ "" → forallb (λ e, negb (interruptsSequence e)) es' = true →
  let w := run es (initWorld d g) in
  let w' := run es' (startSequencePlaybackFromText raw w) in
  progressing (seqPlayed w ++ keysOf raw) w'
  ∧ (∃ queued, seqPlayed w' ++ queued = seqPlayed w ++ keysOf raw
               ∧ (isSeqPlaying w' = false → queued = []))
  ∧ (isSeqPlaying w' = true → ∃ t, t ∈ timers w' ∧ isChain (tm_cb t) = true).
Proof.
  intros Hraw Hes w w'.
  assert (H : Inv w) by apply Inv_run, Inv_init.
  set (w1 := startSequencePlaybackFromText raw w) in *.
  assert (H1 : Inv w1) by by apply Inv_startSequencePlaybackFromText.
  assert (Hp1 : progressing (seqPlayed w ++ keysOf raw) w1).
  { apply (draining_progressing _ (idleCount w)). by apply startSequence_draining. }
  assert (Hp : progressing (seqPlayed w ++ keysOf raw) w').
  { unfold w'. clear w'. clearbody w1. clear H. revert w1 H1 Hp1.
    induction es' as [| e es' IH]; intros w1 H1 Hp1; [done |].
    cbn [forallb] in Hes. apply andb_prop in Hes as [He Hes].
    apply negb_true_iff in He. cbn [run foldl].
    apply IH; [done | by apply Inv_step | by apply progressing_step]. }
  split; [exact Hp |].
  destruct Hp as [(Hplay & Hexp & Ht) | (Hplay & Hexp)].
  - split; [| done]. eexists. split; [exact Hexp |]. congruence.
  - split; [| congruence]. exists []. by rewrite app_nil_r.
Qed.

(** Witness for [sequence_survives_pointer_and_controls]: the sequence
    12a3 with a pointer press, a slider and a preset change in between. *)
Lemma sequence_survives_pointer_and_controls_witness :
  let es' := [Advance 50; PointerDown "9"; GapInput 10; Advance 120; Fire 1;
              PresetChange jp; PointerUp "9"; Advance 130; Fire 3; Fire 2] in
  let w' := run es' (startSequencePlaybackFromText "12a3" (initWorld 120 40)) in
  seqPlayed w' = ["1"; "2"]
  ∧ ∃ queued, seqPlayed w' ++ queued = ["1"; "2"; "3"].
Proof.
  intros es' w'. split; [reflexivity |].
  destruct (sequence_survives_pointer_and_controls 120 40 [] es' "12a3")
    as (_ & (queued & Hq & _) & _); [discriminate | reflexivity |].
  exists queued. exact Hq.
Defined.
